(** * Clone Hero content ingestion: a shallow embedding of the services

    The development follows the Python sources
    - [src/services/content_manager.py]  (descriptor parsing, dedup store,
      the per-descriptor loop),
    - [src/services/content_utils.py]    (archive extraction, scratch
      directory handling),
    - [src/services/song_generator.py]   (chart writer, song processing),
    - [src/services/database_explorer.py], [src/services/service_manager.py]
      (queries on the songs table, the asynchronous wrappers),
    - [src/routes/content_manager.py], [src/routes/database_explorer.py],
      [src/routes/health.py], [src/routes/song_generator.py]  (the routes),
    - [src/database.py], [src/api/main.py]  (connection pool, schema
      script and start-up),
    and states the properties of the specification over it, followed by
    further properties of the same code.

    Strings are byte strings; dictionaries are [gmap]s; the file system
    and the songs table are explicit state; Python exceptions are a
    result type threaded through a small state-and-exception monad. *)

From Stdlib Require Import ZArith String Ascii List Bool Lia.
From Stdlib Require Import SpecFloat.
From stdpp Require Import gmap strings list fin_maps pretty sorting.

Local Open Scope string_scope.
Local Open Scope list_scope.
Local Open Scope Z_scope.

(* ===================================================================== *)
(** * Python values that the services pass around *)
(* ===================================================================== *)

(** Exceptions that the modelled library calls raise.  Only the class
    matters to the control flow. *)
Inductive exn :=
  | InterpolationSyntaxError (option_ : string)
  | InterpolationMissingOptionError (option_ : string)
  | InterpolationDepthError (option_ : string)
  | FileNotFoundError (p : list string)
  | FileExistsError (p : list string)
  | NotADirectoryError (p : list string)
  | IsADirectoryError (p : list string)
  | ShutilError (p : list string)
  | BadZipFile
  | NeedFirstVolume
  | RarCannotExec
  | BadRarFile
  | RuntimeError (msg : string)
  | OverflowError
  | ValueError.

Inductive result (A : Type) :=
  | Ok (a : A)
  | Raise (e : exn).
Arguments Ok {A} a.
Arguments Raise {A} e.

#[global] Instance result_ret : MRet result := fun _ a => Ok a.
#[global] Instance result_bind : MBind result := fun _ _ f r =>
  match r with
  | Ok a => f a
  | Raise e => Raise e
  end.

(* ===================================================================== *)
(** * Strings: [str.strip], [str.lower] *)
(* ===================================================================== *)

Module Str.

(** ASCII characters that [str.strip()] removes. *)
Definition is_space (c : ascii) : bool :=
  let n := nat_of_ascii c in
  ((9 <=? n)%nat && (n <=? 13)%nat) || ((28 <=? n)%nat && (n <=? 32)%nat).

Fixpoint lstrip (s : string) : string :=
  match s with
  | String c s' => if is_space c then lstrip s' else s
  | EmptyString => EmptyString
  end.

Fixpoint rstrip (s : string) : string :=
  match s with
  | String c s' =>
      match rstrip s' with
      | EmptyString => if is_space c then EmptyString else String c EmptyString
      | r => String c r
      end
  | EmptyString => EmptyString
  end.

Definition strip (s : string) : string := rstrip (lstrip s).

Definition lower_ascii (c : ascii) : ascii :=
  let n := nat_of_ascii c in
  if ((65 <=? n)%nat && (n <=? 90)%nat) then ascii_of_nat (n + 32) else c.

Fixpoint lower (s : string) : string :=
  match s with
  | String c s' => String (lower_ascii c) (lower s')
  | EmptyString => EmptyString
  end.

(** [c in s] for a one-character [c]. *)
Fixpoint contains (c : ascii) (s : string) : bool :=
  match s with
  | String d s' => if Ascii.eqb c d then true else contains c s'
  | EmptyString => false
  end.

(** Python truthiness of a string. *)
Definition truthy (s : string) : bool :=
  match s with
  | EmptyString => false
  | _ => true
  end.

(** [s.split(sep)] for a one-character separator. *)
Fixpoint split_go (sep : ascii) (cur : string) (s : string) : list string :=
  match s with
  | String c s' =>
      if Ascii.eqb c sep then String.rev cur :: split_go sep "" s'
      else split_go sep (String c cur) s'
  | EmptyString => [String.rev cur]
  end.
Definition split (sep : ascii) (s : string) : list string := split_go sep "" s.

(** [sep.join(parts)]. *)
Fixpoint join (sep : string) (parts : list string) : string :=
  match parts with
  | [] => ""
  | [p] => p
  | p :: ps => p +:+ sep +:+ join sep ps
  end.

End Str.

(* ===================================================================== *)
(** * [configparser.ConfigParser()] as the descriptor reader uses it *)
(* ===================================================================== *)

Module configparser.

(** The text of an [.ini] file after line splitting: bracketed headers,
    each followed by its [key = value] lines as written (the key
    without the delimiter, the value with whatever blanks surround
    it), in file order. *)
Definition ini_text : Type := list (string * list (string * string)).

Definition default_section : string := "DEFAULT".
Definition MAX_INTERPOLATION_DEPTH : nat := 10.

Record ConfigParser := {
  _defaults : gmap string string;
  _sections : gmap string (gmap string string)
}.

Definition optionxform (optionstr : string) : string := Str.lower optionstr.

(** One section body under [strict=True]: a repeated option name is a
    [DuplicateOptionError]; the value is stored stripped. *)
Fixpoint read_options (added : gset string) (cursect : gmap string string)
         (lines : list (string * string)) : option (gset string * gmap string string) :=
  match lines with
  | [] => Some (added, cursect)
  | (optname, optval) :: rest =>
      let optname := optionxform (Str.rstrip optname) in
      if decide (optname ∈ added) then None
      else read_options ({[optname]} ∪ added) (<[optname := Str.strip optval]> cursect) rest
  end.

(** [read_file] on a fresh parser: [None] stands for the
    [DuplicateSectionError] / [DuplicateOptionError] of strict mode.
    [added] holds the option names already seen under [DEFAULT]. *)
Fixpoint read_blocks (added : gset string) (cfg : ConfigParser)
         (blocks : ini_text) : option ConfigParser :=
  match blocks with
  | [] => Some cfg
  | (sectname, lines) :: rest =>
      if decide (sectname = default_section) then
        match read_options added (_defaults cfg) lines with
        | Some (added', d) =>
            read_blocks added' {| _defaults := d; _sections := _sections cfg |} rest
        | None => None
        end
      else
        match _sections cfg !! sectname with
        | Some _ => None
        | None =>
            match read_options ∅ ∅ lines with
            | Some (_, sect) =>
                read_blocks added
                  {| _defaults := _defaults cfg;
                     _sections := <[sectname := sect]> (_sections cfg) |} rest
            | None => None
            end
        end
  end.

Definition read_file (f : ini_text) : option ConfigParser :=
  read_blocks ∅ {| _defaults := ∅; _sections := ∅ |} f.

Definition has_section (cfg : ConfigParser) (section : string) : bool :=
  bool_decide (is_Some (_sections cfg !! section)).

Definition has_option (cfg : ConfigParser) (section option_ : string) : bool :=
  if decide (section = "" ∨ section = default_section) then
    bool_decide (is_Some (_defaults cfg !! optionxform option_))
  else
    match _sections cfg !! section with
    | None => false
    | Some sect =>
        bool_decide (is_Some (sect !! optionxform option_))
        || bool_decide (is_Some (_defaults cfg !! optionxform option_))
    end.

(** [_unify_values]: the section's own options shadow the defaults. *)
Definition unify_values (cfg : ConfigParser) (section : string)
  : option (gmap string string) :=
  match _sections cfg !! section with
  | Some sect => Some (sect ∪ _defaults cfg)
  | None =>
      if decide (section = default_section) then Some (_defaults cfg) else None
  end.

(** The match of [%\(([^)]+)\)s] at the head of [rest], the leading
    [%(] already consumed: the name and what follows [)s]. *)
Fixpoint key_reference (name : string) (rest : string) : option (string * string) :=
  match rest with
  | String c rest1 =>
      if Ascii.eqb c ")" then
        match name, rest1 with
        | String _ _, String c1 rest2 =>
            if Ascii.eqb c1 "s" then Some (String.rev name, rest2) else None
        | _, _ => None
        end
      else key_reference (String c name) rest1
  | EmptyString => None
  end.

(** The [while rest:] loop of [BasicInterpolation._interpolate_some];
    [nested] is the call one level deeper, [n] bounds the scan. *)
Fixpoint scan (nested : string → result string) (option_ : string)
         (map : gmap string string) (n : nat) (rest : string) : result string :=
  match n, rest with
  | _, EmptyString => Ok ""
  | O, _ => Ok ""
  | S n', String c rest1 =>
      if Ascii.eqb c "%" then
        match rest1 with
        | String c1 rest2 =>
            if Ascii.eqb c1 "%" then
              accum ← scan nested option_ map n' rest2; Ok (String "%" accum)
            else if Ascii.eqb c1 "(" then
              match key_reference "" rest2 with
              | None => Raise (InterpolationSyntaxError option_)
              | Some (name, rest3) =>
                  match map !! optionxform name with
                  | None => Raise (InterpolationMissingOptionError option_)
                  | Some v =>
                      v' ← (if Str.contains "%" v then nested v else Ok v);
                      accum ← scan nested option_ map n' rest3;
                      Ok (v' +:+ accum)
                  end
              end
            else Raise (InterpolationSyntaxError option_)
        | EmptyString => Raise (InterpolationSyntaxError option_)
        end
      else
        accum ← scan nested option_ map n' rest1; Ok (String c accum)
  end.

(** [BasicInterpolation._interpolate_some]; [depth_left] counts the
    nesting levels still allowed. *)
Fixpoint interpolate_some (depth_left : nat) (option_ : string)
         (map : gmap string string) (rest : string) : result string :=
  match depth_left with
  | O => Raise (InterpolationDepthError option_)
  | S depth_left' =>
      scan (interpolate_some depth_left' option_ map) option_ map
           (String.length rest) rest
  end.

Definition before_get (option_ : string) (map : gmap string string)
           (value : string) : result string :=
  interpolate_some MAX_INTERPOLATION_DEPTH option_ map value.

(** [config.get(section, option, fallback=None)]. *)
Definition get (cfg : ConfigParser) (section option_ : string)
  : result (option string) :=
  match unify_values cfg section with
  | None => Ok None
  | Some d =>
      match d !! optionxform option_ with
      | None => Ok None
      | Some value => v ← before_get (optionxform option_) d value; Ok (Some v)
      end
  end.

End configparser.

(* ===================================================================== *)
(** * [content_manager.py]: the descriptor parser *)
(* ===================================================================== *)

(** Optional metadata fields for songs. *)
Definition OPTIONAL_FIELDS : list string := [
  "genre"; "year"; "album_track"; "playlist_track"; "charter"; "icon";
  "diff_guitar"; "diff_rhythm"; "diff_bass"; "diff_guitar_coop"; "diff_drums";
  "diff_drums_real"; "diff_guitarghl"; "diff_bassghl"; "diff_rhythm_ghl";
  "diff_guitar_coop_ghl"; "diff_keys"; "song_length"; "preview_start_time";
  "video_start_time"; "modchart"; "loading_phrase"; "delay"
].

(** What [parse_song_ini] returns: the empty dict, or the four-key dict. *)
Inductive parsed :=
  | Skip
  | Song (title artist album : string) (metadata : gmap string string).

(** The dict comprehension over [OPTIONAL_FIELDS], in list order. *)
Fixpoint collect_metadata (config : configparser.ConfigParser)
         (fields : list string) : result (gmap string string) :=
  match fields with
  | [] => Ok ∅
  | field :: rest =>
      if configparser.has_option config "song" field then
        v ← configparser.get config "song" field;
        metadata ← collect_metadata config rest;
        Ok (match v with
            | Some v => <[field := v]> metadata
            | None => metadata
            end)
      else collect_metadata config rest
  end.

(** [parse_song_ini], from the point where [ini_path.open] and
    [config.read_file] have either failed ([None]: the [except] branch
    returns the empty dict) or handed over the file's text. *)
Definition parse_song_ini_text (f : option configparser.ini_text) : result parsed :=
  match f ≫= configparser.read_file with
  | None => Ok Skip
  | Some config =>
      if negb (configparser.has_section config "song") then Ok Skip
      else
        name ← configparser.get config "song" "name";
        artist ← configparser.get config "song" "artist";
        album ← configparser.get config "song" "album";
        match name, artist, album with
        | Some name, Some artist, Some album =>
            if negb (Str.truthy name) || negb (Str.truthy artist)
               || negb (Str.truthy album)
            then Ok Skip
            else
              metadata ← collect_metadata config OPTIONAL_FIELDS;
              Ok (Song (Str.strip name) (Str.strip artist) (Str.strip album)
                       (Str.strip <$> metadata))
        | _, _, _ => Ok Skip
        end
  end.


(* ===================================================================== *)
(** * Statements with side effects: state plus exceptions *)
(* ===================================================================== *)

(** A Python statement run in state [S]: the state after it, and either
    its value or the exception it raised.  The state survives a raise. *)
Definition State (S A : Type) : Type := S → S * result A.

Definition ret {S A} (a : A) : State S A := fun s => (s, Ok a).
Definition bind {S A B} (m : State S A) (f : A → State S B) : State S B := fun s =>
  match m s with
  | (s', Ok a) => f a s'
  | (s', Raise e) => (s', Raise e)
  end.

Notation "'let*' x ':=' m 'in' k" := (bind m (fun x => k))
  (at level 10, x name, m at level 100, k at level 200).
Notation "'do' m 'then' k" := (bind m (fun _ => k))
  (at level 10, m at level 100, k at level 200).

Definition raise {S A} (e : exn) : State S A := fun s => (s, Raise e).
Definition gets {S A} (f : S → A) : State S A := fun s => (s, Ok (f s)).
Definition modify {S} (f : S → S) : State S unit := fun s => (f s, Ok tt).
Definition lift_result {S A} (r : result A) : State S A := fun s => (s, r).

(** [try: body  except Exception as e: handler e]. *)
Definition try_except {S A} (body : State S A) (handler : exn → State S A)
  : State S A := fun s =>
  match body s with
  | (s', Ok a) => (s', Ok a)
  | (s', Raise e) => handler e s'
  end.

(** [try: body  finally: cleanup]; an exception of [cleanup] replaces
    the outcome of [body]. *)
Definition try_finally {S A} (body : State S A) (cleanup : State S unit)
  : State S A := fun s =>
  match body s with
  | (s', r) =>
      match cleanup s' with
      | (s'', Ok _) => (s'', r)
      | (s'', Raise e) => (s'', Raise e)
      end
  end.

(* ===================================================================== *)
(** * The songs table and [add_content_to_db] *)
(* ===================================================================== *)

Module Db.

(** Modelled from the spec: the [songs] table ([sql/schema.sql] is not
    among the sources).  A ContentRecord has an identifier, title,
    artist, album, canonical storage path and a string-to-string
    metadata map; identifiers are handed out by the table's sequence
    ([RETURNING id]). *)
Record song_row := {
  id : Z;
  title : string;
  artist : string;
  album : string;
  file_path : string;
  metadata : gmap string string
}.

(** [pool_up] is false when [db_pool is None] or [getconn] fails. *)
Record database := {
  pool_up : bool;
  songs : list song_row;
  songs_id_seq : Z
}.

Definition matches (title_ artist_ album_ : string) (r : song_row) : bool :=
  bool_decide (title r = title_) && bool_decide (artist r = artist_)
  && bool_decide (album r = album_).

(** [with get_connection() as conn]. *)
Definition get_connection : State database unit := fun db =>
  if pool_up db then (db, Ok tt)
  else (db, Raise (RuntimeError "Database pool is unavailable.")).

(** [SELECT id FROM songs WHERE title = %s AND artist = %s AND album = %s]
    followed by [fetchone()]. *)
Definition select_id (title_ artist_ album_ : string) : State database (option Z) :=
  gets (fun db => id <$> head (filter (fun r => matches title_ artist_ album_ r = true) (songs db))).

(** [INSERT INTO songs (...) VALUES (...) RETURNING id], committed. *)
Definition insert_returning_id (title_ artist_ album_ file_path_ : string)
           (metadata_ : gmap string string) : State database Z := fun db =>
  let content_id := songs_id_seq db in
  ({| pool_up := pool_up db;
      songs := songs db ++ [{| id := content_id; title := title_; artist := artist_;
                               album := album_; file_path := file_path_;
                               metadata := metadata_ |}];
      songs_id_seq := content_id + 1 |}, Ok content_id).

(** Insert content into the database and return its ID. *)
Definition add_content_to_db (title_ artist_ album_ file_path_ : string)
           (metadata_ : gmap string string) : State database Z :=
  try_except
    (do get_connection then
     let* existing_song := select_id title_ artist_ album_ in
     match existing_song with
     | Some existing_id => ret existing_id
     | None => insert_returning_id title_ artist_ album_ file_path_ metadata_
     end)
    (fun e => ret (-1)).

End Db.

(* ===================================================================== *)
(** * Paths ([pathlib]) and the file system *)
(* ===================================================================== *)

Module Path.

(** A path is the list of its components below the root; relative
    paths are taken from the root. *)
Abbreviation t := (list string).

Definition of_string (s : string) : t :=
  filter (fun c => c ≠ "" ∧ c ≠ ".") (Str.split "/" s).

Definition is_absolute (s : string) : bool :=
  match s with
  | String "/" _ => true
  | _ => false
  end.

(** [base / s]: an absolute right operand replaces the base. *)
Definition joinpath (base : t) (s : string) : t :=
  if is_absolute s then of_string s else base ++ of_string s.

Definition to_string (p : t) : string := "/" +:+ Str.join "/" p.

Definition name (p : t) : string := default "" (last p).

Definition parent (p : t) : t := removelast p.

(** The text from the last dot of [s] on, if [s] has a dot. *)
Fixpoint from_last_dot (s : string) : option string :=
  match s with
  | EmptyString => None
  | String c s' =>
      match from_last_dot s' with
      | Some r => Some r
      | None => if Ascii.eqb c "." then Some s else None
      end
  end.

(** [Path.suffix]: empty when the last dot is the first or the last
    character of the name. *)
Definition suffix (p : t) : string :=
  match name p with
  | EmptyString => ""
  | String _ rest =>
      match from_last_dot rest with
      | Some (String "." (String c r)) => String "." (String c r)
      | _ => ""
      end
  end.

End Path.

Module Fs.

(** What a regular file holds, as far as the services look into it:
    descriptor text, or bytes they never interpret. *)
Inductive content :=
  | Blob (bytes : string)
  | IniFile (text : configparser.ini_text).

(** An archive lists its members in order.  A zip member has the
    file name stored in the archive and its data, [None] when the data
    cannot be decompressed.  A rar member has the path, relative to the
    destination, at which the unpacker puts it. *)
Inductive fdata :=
  | Plain (c : content)
  | ZipFile (members : list (string * option content))
  | RarFile (need_first_volume : bool) (members : list (list string * content)).

Inductive node :=
  | Dir
  | File (d : fdata).

Abbreviation t := (gmap (list string) node).

(** The kernel's path walk, without symbolic links: a [..] step goes
    back to the parent. *)
Fixpoint resolve_go (seen : list string) (p : list string) : list string :=
  match p with
  | [] => rev seen
  | c :: p' =>
      if decide (c = "..") then resolve_go (tail seen) p'
      else resolve_go (c :: seen) p'
  end.
Definition resolve (p : Path.t) : list string := resolve_go [] p.

Definition lookup (fs : t) (p : list string) : option node :=
  match p with
  | [] => Some Dir
  | _ => fs !! p
  end.

Definition is_file (fs : t) (p : list string) : bool :=
  match lookup fs p with
  | Some (File _) => true
  | _ => false
  end.

Definition is_dir (fs : t) (p : list string) : bool :=
  match lookup fs p with
  | Some Dir => true
  | _ => false
  end.

(** The non-empty proper prefixes of [p], shortest first; and those
    with [p] itself at the end. *)
Definition ancestors (p : list string) : list (list string) :=
  (fun n => take n p) <$> seq 1 (length p - 1).
Definition prefixes (p : list string) : list (list string) :=
  (fun n => take n p) <$> seq 1 (length p).

Definition blocked (fs : t) (p : list string) : option (list string) :=
  head (filter (fun a => is_file fs a = true) (ancestors p)).

Definition make_dirs (fs : t) (dirs : list (list string)) : t :=
  foldr (fun a fs => <[a := Dir]> fs) fs dirs.

(** [os.makedirs(p, exist_ok=True)] and
    [Path.mkdir(parents=True, exist_ok=True)]. *)
Definition mkdir_parents (p : Path.t) (fs : t) : result t :=
  let p := resolve p in
  match blocked fs p with
  | Some a => Raise (NotADirectoryError a)
  | None =>
      if is_file fs p then Raise (FileExistsError p)
      else Ok (make_dirs fs (prefixes p))
  end.

(** [open(p, "wb")] with the parent directories made first, as the
    archive libraries do for each member. *)
Definition write_file (p : Path.t) (d : fdata) (fs : t) : result t :=
  let p := resolve p in
  match blocked fs p with
  | Some a => Raise (NotADirectoryError a)
  | None =>
      if is_dir fs p then Raise (IsADirectoryError p)
      else Ok (<[p := File d]> (make_dirs fs (ancestors p)))
  end.

(** [os.remove(p)]. *)
Definition remove (p : Path.t) (fs : t) : result t :=
  let p := resolve p in
  match lookup fs p with
  | Some (File _) => Ok (delete p fs)
  | Some Dir => Raise (IsADirectoryError p)
  | None => Raise (FileNotFoundError p)
  end.

Definition under (d p : list string) : bool := bool_decide (d `prefix_of` p).

(** [shutil.rmtree(p, ignore_errors=True)]: a directory goes with all
    that is below it; a regular file at [p] makes the call fail, which
    is ignored. *)
Definition rmtree (p : Path.t) (fs : t) : t :=
  let p := resolve p in
  if is_file fs p then fs
  else filter (fun kv => under p kv.1 = false) fs.

(** The subtree at [src], re-rooted at [dst]. *)
Definition rebase (src dst : list string) (fs : t) : t :=
  kmap (fun p => dst ++ drop (length src) p)
       (filter (fun kv => under src kv.1 = true) fs).

(** [shutil.move(src, dst)] on one file system: a move into an existing
    directory goes below it; a directory moved onto itself stays; the
    rename of a directory falls back to a copy, which creates the
    missing parents of the destination. *)
Definition move (src dst : Path.t) (fs : t) : result t :=
  let src := resolve src in
  let dst := resolve dst in
  let real_dst := if is_dir fs dst then dst ++ [Path.name src] else dst in
  if is_dir fs dst && bool_decide (src = dst) then Ok fs
  else if is_dir fs dst && bool_decide (is_Some (lookup fs real_dst))
  then Raise (ShutilError real_dst)
  else
    match lookup fs src with
    | None => Raise (FileNotFoundError src)
    | Some (File d) =>
        match blocked fs real_dst with
        | Some a => Raise (NotADirectoryError a)
        | None =>
            if is_dir fs (Path.parent real_dst)
            then Ok (<[real_dst := File d]> (delete src fs))
            else Raise (FileNotFoundError real_dst)
        end
    | Some Dir =>
        if under src real_dst then Raise (ShutilError src)
        else
          match blocked fs real_dst with
          | Some a => Raise (NotADirectoryError a)
          | None =>
              if is_file fs real_dst then Raise (FileExistsError real_dst)
              else
                Ok (rebase src real_dst fs
                      ∪ make_dirs (filter (fun kv => under src kv.1 = false) fs)
                                  (ancestors real_dst))
          end
    end.

(** [Path(d).rglob(name)], as the list of matches found on entry.  The
    walk of [pathlib] (Python 3.12 and later) passes over a directory
    that is gone when it comes to scan it; here a match below a folder
    that the loop has moved away is still listed and then fails to
    open, which the loop passes over likewise. *)
Definition rglob (d : Path.t) (name : string) (fs : t) : list Path.t :=
  let d := resolve d in
  filter (fun p => under d p = true ∧ p ≠ d ∧ last p = Some name)
         (map_to_list fs).*1.

(** [ini_path.open("r", encoding="utf-8-sig")] followed by
    [config.read_file]: anything but descriptor text fails to open,
    decode or parse. *)
Definition read_ini (p : Path.t) (fs : t) : option configparser.ini_text :=
  match lookup fs (resolve p) with
  | Some (File (Plain (IniFile text))) => Some text
  | _ => None
  end.

End Fs.

(* ===================================================================== *)
(** * The world the services run in *)
(* ===================================================================== *)

(** Effects on disk and on the table, in the order they happened. *)
Inductive event :=
  | EvMkdir (p : list string)
  | EvWrite (p : list string)
  | EvRemove (p : list string)
  | EvMove (src dst : list string)
  | EvRmtree (p : list string)
  | EvStore (title artist album : string) (content_id : Z).

Record world := {
  w_fs : gmap (list string) Fs.node;
  w_db : Db.database;
  w_unrar : bool;              (* the [unrar] tool is installed *)
  w_uuid : nat → string;       (* the hex digits [uuid4] will hand out *)
  w_drawn : nat;               (* how many of them were drawn *)
  w_trace : list event
}.

Definition with_fs (fs : gmap (list string) Fs.node) (ev : event) (w : world) : world :=
  {| w_fs := fs; w_db := w_db w; w_unrar := w_unrar w; w_uuid := w_uuid w;
     w_drawn := w_drawn w; w_trace := w_trace w ++ [ev] |}.

Definition with_db (db : Db.database) (w : world) : world :=
  {| w_fs := w_fs w; w_db := db; w_unrar := w_unrar w; w_uuid := w_uuid w;
     w_drawn := w_drawn w; w_trace := w_trace w |}.

Definition log (ev : event) : State world unit := fun w =>
  ({| w_fs := w_fs w; w_db := w_db w; w_unrar := w_unrar w; w_uuid := w_uuid w;
      w_drawn := w_drawn w; w_trace := w_trace w ++ [ev] |}, Ok tt).

(** A file-system call: it changes the disk, or raises and leaves it. *)
Definition fs_call (ev : event) (f : Fs.t → result Fs.t) : State world unit := fun w =>
  match f (w_fs w) with
  | Ok fs => (with_fs fs ev w, Ok tt)
  | Raise e => (w, Raise e)
  end.

Definition lift_db {A} (m : State Db.database A) : State world A := fun w =>
  match m (w_db w) with
  | (db, r) => (with_db db w, r)
  end.

Definition mkdir (p : Path.t) : State world unit :=
  fs_call (EvMkdir (Fs.resolve p)) (Fs.mkdir_parents p).
Definition write_file (p : Path.t) (d : Fs.fdata) : State world unit :=
  fs_call (EvWrite (Fs.resolve p)) (Fs.write_file p d).
Definition os_remove (p : Path.t) : State world unit :=
  fs_call (EvRemove (Fs.resolve p)) (Fs.remove p).
Definition shutil_move (src dst : Path.t) : State world unit :=
  fs_call (EvMove (Fs.resolve src) (Fs.resolve dst)) (Fs.move src dst).
Definition shutil_rmtree (p : Path.t) : State world unit :=
  fs_call (EvRmtree (Fs.resolve p)) (fun fs => Ok (Fs.rmtree p fs)).

(** [uuid.uuid4().hex]. *)
Definition uuid4_hex : State world string := fun w =>
  ({| w_fs := w_fs w; w_db := w_db w; w_unrar := w_unrar w; w_uuid := w_uuid w;
      w_drawn := S (w_drawn w); w_trace := w_trace w |}, Ok (w_uuid w (w_drawn w))).

(** [str(e)], up to the wording of the library's messages. *)
Definition str (e : exn) : string :=
  match e with
  | InterpolationSyntaxError o => "'%' must be followed by '%' or '(' in option " +:+ o
  | InterpolationMissingOptionError o => "Bad value substitution in option " +:+ o
  | InterpolationDepthError o => "Recursion limit exceeded in value substitution: option " +:+ o
  | FileNotFoundError p => "[Errno 2] No such file or directory: " +:+ Path.to_string p
  | FileExistsError p => "[Errno 17] File exists: " +:+ Path.to_string p
  | NotADirectoryError p => "[Errno 20] Not a directory: " +:+ Path.to_string p
  | IsADirectoryError p => "[Errno 21] Is a directory: " +:+ Path.to_string p
  | ShutilError p => "Destination path already exists or lies inside the source: " +:+ Path.to_string p
  | BadZipFile => "File is not a zip file"
  | NeedFirstVolume => "Need to start from first volume"
  | RarCannotExec => "Cannot find working tool"
  | BadRarFile => "Not a RAR file"
  | RuntimeError msg => msg
  | OverflowError => "cannot convert float infinity to integer"
  | ValueError => "cannot convert float NaN to integer"
  end.

(* ===================================================================== *)
(** * [zipfile] and [rarfile] *)
(* ===================================================================== *)

Module zipfile.

(** The member's path below the destination: the file name split at
    [/], without its empty, [.] and [..] parts. *)
Definition arcname (filename : string) : list string :=
  filter (fun x => x ≠ "" ∧ x ≠ "." ∧ x ≠ "..") (Str.split "/" filename).

(** [ZipInfo.is_dir]: the name ends with a slash. *)
Definition is_dir (filename : string) : bool :=
  match String.rev filename with
  | String "/" _ => true
  | _ => false
  end.

(** [ZipFile._extract_member]. *)
Definition extract_member (targetpath : Path.t) (member : string * option Fs.content)
  : State world unit :=
  let targetpath' := targetpath ++ arcname member.1 in
  if is_dir member.1 then mkdir targetpath'
  else
    match arcname member.1 with
    | [] => raise (IsADirectoryError (Fs.resolve targetpath))
    | _ =>
        match member.2 with
        | Some c => write_file targetpath' (Fs.Plain c)
        | None => do write_file targetpath' (Fs.Plain (Fs.Blob "")) then raise BadZipFile
        end
    end.

Fixpoint extract_members (path : Path.t) (members : list (string * option Fs.content))
  : State world unit :=
  match members with
  | [] => ret tt
  | member :: rest => do extract_member path member then extract_members path rest
  end.

(** [with zipfile.ZipFile(file_path, "r") as zip_ref: zip_ref.extractall(path)]. *)
Definition extractall (file_path path : Path.t) : State world unit :=
  let* node := gets (fun w => Fs.lookup (w_fs w) (Fs.resolve file_path)) in
  match node with
  | Some (Fs.File (Fs.ZipFile members)) => extract_members path members
  | Some (Fs.File _) => raise BadZipFile
  | Some Fs.Dir => raise (IsADirectoryError (Fs.resolve file_path))
  | None => raise (FileNotFoundError (Fs.resolve file_path))
  end.

End zipfile.

Module rarfile.

Fixpoint extract_members (path : Path.t) (members : list (list string * Fs.content))
  : State world unit :=
  match members with
  | [] => ret tt
  | member :: rest =>
      do write_file (path ++ member.1) (Fs.Plain member.2) then extract_members path rest
  end.

(** [with rarfile.RarFile(file_path) as rar_ref: rar_ref.extractall(path)]. *)
Definition extractall (file_path path : Path.t) : State world unit :=
  let* node := gets (fun w => Fs.lookup (w_fs w) (Fs.resolve file_path)) in
  match node with
  | Some (Fs.File (Fs.RarFile need_first_volume members)) =>
      if need_first_volume then raise NeedFirstVolume
      else
        let* tool := gets w_unrar in
        if tool then extract_members path members else raise RarCannotExec
  | Some (Fs.File _) => raise BadRarFile
  | Some Fs.Dir => raise (IsADirectoryError (Fs.resolve file_path))
  | None => raise (FileNotFoundError (Fs.resolve file_path))
  end.

End rarfile.

(* ===================================================================== *)
(** * [content_utils.py] and the loop of [content_manager.py] *)
(* ===================================================================== *)

(** What the services hand back to the routes. *)
Record stored := {
  s_id : Z;
  s_title : string;
  s_artist : string;
  s_album : string;
  s_folder_path : string;
  s_metadata : gmap string string
}.

Inductive response :=
  | RError (msg : string)              (* {"error": msg} *)
  | RSuccess                           (* {"success": True} *)
  | RStored (l : list stored)          (* the list of stored songs *)
  | RMessage (msg file : string).      (* {"message": msg, "file": file} *)

Definition has_error (r : response) : bool :=
  match r with
  | RError _ => true
  | _ => false
  end.

Definition CONTENT_BASE_DIR : Path.t := ["app"; "data"; "clonehero_content"].

Definition CONTENT_FOLDERS : gmap string string :=
  list_to_map [("backgrounds", "backgrounds"); ("colors", "colors");
               ("generator", "generator"); ("highways", "highways");
               ("songs", "songs"); ("temp", "temp")].

Definition gettempdir : Path.t := ["tmp"].

(** Return subfolder path for the given content_type, ensuring the
    directory exists. *)
Definition get_final_directory (content_type : string) : State world Path.t :=
  let subfolder := default content_type (CONTENT_FOLDERS !! content_type) in
  let final_dir := Path.joinpath CONTENT_BASE_DIR subfolder in
  do mkdir final_dir then
  ret final_dir.

Definition parse_song_ini (ini_path : Path.t) : State world parsed :=
  let* f := gets (fun w => Fs.read_ini ini_path (w_fs w)) in
  lift_result (parse_song_ini_text f).

Definition add_content_to_db (title artist album file_path : string)
           (metadata : gmap string string) : State world Z :=
  let* content_id := lift_db (Db.add_content_to_db title artist album file_path metadata) in
  do log (EvStore title artist album content_id) then
  ret content_id.

(** The body of [for ini_path in temp_extract_dir.rglob("song.ini")]. *)
Fixpoint process_descriptors (ini_paths : list Path.t) (stored_content : list stored)
  : State world (list stored) :=
  match ini_paths with
  | [] => ret stored_content
  | ini_path :: rest =>
      let* parsed := parse_song_ini ini_path in
      match parsed with
      | Skip => process_descriptors rest stored_content
      | Song title artist album metadata =>
          let* songs_dir := get_final_directory "songs" in
          let artist_dir := Path.joinpath songs_dir artist in
          do mkdir artist_dir then
          let* hex := uuid4_hex in
          let final_dir := Path.joinpath artist_dir (title +:+ "_" +:+ substring 0 8 hex) in
          let* stored_content :=
            try_except
              (do shutil_move (Path.parent ini_path) final_dir then
               let* content_id :=
                 add_content_to_db title artist album (Path.to_string final_dir) metadata in
               if decide (content_id ≠ -1) then
                 ret (stored_content ++
                      [{| s_id := content_id; s_title := title; s_artist := artist;
                          s_album := album; s_folder_path := Path.to_string final_dir;
                          s_metadata := metadata |}])
               else ret stored_content)
              (fun e => ret stored_content) in
          process_descriptors rest stored_content
      end
  end.

(** Process and store content, including songs and visual assets. *)
Definition process_and_store_content (temp_extract_dir : Path.t) (content_type : string)
  : State world (list stored) :=
  let* ini_paths := gets (fun w => Fs.rglob temp_extract_dir "song.ini" (w_fs w)) in
  process_descriptors ini_paths [].

(** Move extracted content to the final directory. *)
Definition store_extracted_content (temp_extract_dir : Path.t) (content_type : string)
  : State world response :=
  let* l := process_and_store_content temp_extract_dir content_type in
  ret (RStored l).

(** Extracts .zip or .rar archives using available methods. *)
Definition extract_archive (file_path extract_dir : Path.t) (file_ext : string)
  : State world response :=
  try_except
    (if decide (file_ext = ".zip") then
       do zipfile.extractall file_path extract_dir then
       ret RSuccess
     else if decide (file_ext = ".rar") then
       try_except
         (do rarfile.extractall file_path extract_dir then
          ret RSuccess)
         (fun e =>
            match e with
            | NeedFirstVolume => ret (RError "Multi-part RAR archives are not supported")
            | RarCannotExec =>
                ret (RError "RAR extraction failed. Ensure 'unrar' is installed")
            | _ => raise e
            end)
     else ret (RError "Unsupported file format"))
    (fun e => ret (RError (str e))).

(** The scratch directory of a request: [extract_] and six hex digits,
    under the temporary directory. *)
Definition scratch_dir (hex : string) : Path.t :=
  gettempdir ++ ["extract_" +:+ substring 0 6 hex].

(** Extracts an archive or moves a file to its designated folder. *)
Definition extract_content (file_path : string) (content_type : string)
  : State world response :=
  let file_name := Path.name (Path.of_string file_path) in
  let* hex := uuid4_hex in
  let temp_extract_dir := scratch_dir hex in
  try_finally
    (try_except
       (let file_ext := Str.lower (Path.suffix (Path.of_string file_path)) in
        if decide (file_ext ∈ [".zip"; ".rar"]) then
          do mkdir temp_extract_dir then
          let* extract_result :=
            extract_archive (Path.of_string file_path) temp_extract_dir file_ext in
          if has_error extract_result then ret extract_result
          else
            do os_remove (Path.of_string file_path) then
            store_extracted_content temp_extract_dir content_type
        else
          let* final_dir := get_final_directory content_type in
          let dst_path := Path.joinpath final_dir file_name in
          if decide (content_type = "songs") then
            ret (RError "⚠️ Please upload a .zip or .rar file containing a song.ini")
          else
            do shutil_move (Path.of_string file_path) dst_path then
            ret (RMessage ("✅ Stored file: " +:+ file_name) (Path.to_string dst_path)))
       (fun e => ret (RError (str e))))
    (shutil_rmtree temp_extract_dir).

(* ===================================================================== *)
(** * [song_generator.py]: the chart writer *)
(* ===================================================================== *)

Module Chart.

(** Beat times are IEEE 754 binary64 numbers ([numpy.float64]). *)
Definition prec : Z := 53.
Definition emax : Z := 1024.

Definition float64 : Type := spec_float.

Definition of_int (n : Z) : float64 := binary_normalize prec emax n 0 false.
Definition mul (x y : float64) : float64 := SFmul prec emax x y.

(** The binary64 number nearest to [num / den], as a decimal literal
    such as [0.5005 = 5005 / 10000] denotes it. *)
Definition decimal (num den : Z) : float64 := SFdiv prec emax (of_int num) (of_int den).

(** [int(x)]: truncation toward zero; infinities and NaN raise. *)
Definition int (x : float64) : result Z :=
  match x with
  | S754_zero _ => Ok 0
  | S754_finite s m e =>
      let magnitude := if 0 <=? e then Z.pos m * 2 ^ e else Z.pos m / 2 ^ (- e) in
      Ok (if s then - magnitude else magnitude)
  | S754_infinity _ => Raise OverflowError
  | S754_nan => Raise ValueError
  end.

Definition nl : string := String (ascii_of_nat 10) "".

(** [f.write(text)] on the open chart file. *)
Definition f_write (text : string) : State string unit :=
  modify (fun written => written +:+ text).

Definition sync_line (ms : Z) : string :=
  "  " +:+ pretty ms +:+ " = TS " +:+ pretty ms +:+ nl.

(** [for time in beat_times: f.write(...)]. *)
Fixpoint write_beats (beat_times : list float64) : State string unit :=
  match beat_times with
  | [] => ret tt
  | time :: rest =>
      let* ms := lift_result (int (mul time (of_int 1000))) in
      do f_write (sync_line ms) then
      write_beats rest
  end.

Definition header (song_name : string) : string :=
  "[Song]" +:+ nl +:+ "{" +:+ nl +:+ "  Name = " +:+ song_name +:+ nl
  +:+ "  Artist = Unknown" +:+ nl +:+ "  Charter = AI" +:+ nl +:+ "}" +:+ nl.

(** Generate a notes.chart file based on detected beats.  The state is
    the text of the file opened for writing; the [except] branch logs
    and raises again. *)
Definition generate_notes_chart (song_name : string) (beat_times : list float64)
  : State string unit :=
  try_except
    (do f_write (header song_name) then
     do f_write (nl +:+ "[SyncTrack]" +:+ nl +:+ "{" +:+ nl) then
     do write_beats beat_times then
     f_write ("}" +:+ nl))
    (fun e => raise e).

(** The integer timestamps that the loop writes, one per beat. *)
Fixpoint sync_events (beat_times : list float64) : result (list Z) :=
  match beat_times with
  | [] => Ok []
  | time :: rest =>
      ms ← int (mul time (of_int 1000));
      events ← sync_events rest;
      Ok (ms :: events)
  end.

End Chart.

(* ===================================================================== *)
(** * Store calls that overlap in time *)
(* ===================================================================== *)

Module Concurrent.

(** Each call of [add_content_to_db] holds its own pooled connection
    and issues its statements one at a time; between two statements of
    one call, statements of other calls may run.  [unique_triple] says
    whether the table, whose schema is not among the sources, rejects
    a second row with the same (title, artist, album). *)
Inductive pc :=
  | Start                   (* before the SELECT *)
  | Checked                 (* the SELECT found no row *)
  | Done (content_id : Z).  (* returned *)

Record call := {
  c_title : string;
  c_artist : string;
  c_album : string;
  c_file_path : string;
  c_metadata : gmap string string
}.

Definition has_match (c : call) (db : Db.database) : bool :=
  bool_decide (is_Some (head (filter
    (fun r => Db.matches (c_title c) (c_artist c) (c_album c) r = true) (Db.songs db)))).

(** One statement of one call. *)
Definition step (unique_triple : bool) (c : call) (st : pc) (db : Db.database)
  : Db.database * pc :=
  match st with
  | Start =>
      match (do Db.get_connection then
             Db.select_id (c_title c) (c_artist c) (c_album c)) db with
      | (db, Ok (Some existing_id)) => (db, Done existing_id)
      | (db, Ok None) => (db, Checked)
      | (db, Raise _) => (db, Done (-1))
      end
  | Checked =>
      if unique_triple && has_match c db then (db, Done (-1))
      else
        match Db.insert_returning_id (c_title c) (c_artist c) (c_album c)
                (c_file_path c) (c_metadata c) db with
        | (db, Ok content_id) => (db, Done content_id)
        | (db, Raise _) => (db, Done (-1))
        end
  | Done content_id => (db, Done content_id)
  end.

(** The calls in flight with their program counters; a schedule names
    the call that runs its next statement. *)
Fixpoint run (unique_triple : bool) (schedule : list nat)
         (calls : list (call * pc)) (db : Db.database)
  : Db.database * list (call * pc) :=
  match schedule with
  | [] => (db, calls)
  | i :: rest =>
      match calls !! i with
      | Some (c, st) =>
          let '(db', st') := step unique_triple c st db in
          run unique_triple rest (<[i := (c, st')]> calls) db'
      | None => run unique_triple rest calls db
      end
  end.

(** The schedule in which call 0 runs to its end, then call 1, ... *)
Definition one_by_one (n : nat) : list nat :=
  flat_map (fun i => [i; i]) (seq 0 n).

Definition returned (calls : list (call * pc)) : list (option Z) :=
  (fun cs => match cs.2 with Done content_id => Some content_id | _ => None end) <$> calls.

End Concurrent.

(* ===================================================================== *)
(** * Exceptions and awaiting at the level of the routes *)
(* ===================================================================== *)

(** The body of [GET /health]. *)
Record health_status := {
  h_status : string;
  h_database : string;
  h_uptime_seconds : Chart.float64;
  h_version : string
}.

(** The [detail] of an [HTTPException]: a message, or the health dict. *)
Inductive detail :=
  | Message (msg : string)
  | Health (h : health_status).

(** Exceptions as the routes see them: those of the services, the
    [TypeError] of a protocol that an object does not support, the
    errors of the database driver ([psycopg2.DatabaseError] and its
    subclass [OperationalError]), and FastAPI's [HTTPException].  All
    of them are instances of [Exception]. *)
Inductive error :=
  | Service (e : exn)
  | TypeError (msg : string)
  | DatabaseError (pgerror : string)
  | OperationalError (pgerror : string)
  | HTTPException (status_code : Z) (detail_ : detail).

(** [isinstance(e, DatabaseError)]: [OperationalError] is one of its
    subclasses. *)
Definition is_database_error (e : error) : bool :=
  match e with
  | DatabaseError _ | OperationalError _ => true
  | _ => false
  end.

Inductive outcome (A : Type) :=
  | Return (a : A)
  | Throw (e : error).
Arguments Return {A} a.
Arguments Throw {A} e.

(** A statement of a route or of a query in state [S]. *)
Definition Py (S A : Type) : Type := S → S * outcome A.

Definition py_ret {S A} (a : A) : Py S A := fun s => (s, Return a).
Definition py_bind {S A B} (m : Py S A) (f : A → Py S B) : Py S B := fun s =>
  match m s with
  | (s', Return a) => f a s'
  | (s', Throw e) => (s', Throw e)
  end.

Notation "'let+' x ':=' m 'in' k" := (py_bind m (fun x => k))
  (at level 10, x name, m at level 100, k at level 200).
Notation "'perform' m 'then' k" := (py_bind m (fun _ => k))
  (at level 10, m at level 100, k at level 200).

Definition throw {S A} (e : error) : Py S A := fun s => (s, Throw e).

(** A call into the services. *)
Definition call {S A} (m : State S A) : Py S A := fun s =>
  match m s with
  | (s', Ok a) => (s', Return a)
  | (s', Raise e) => (s', Throw (Service e))
  end.

(** [try: body  except ...: handler e]; a handler for one class raises
    the others again. *)
Definition py_try {S A} (body : Py S A) (handler : error → Py S A) : Py S A := fun s =>
  match body s with
  | (s', Return a) => (s', Return a)
  | (s', Throw e) => handler e s'
  end.

(** [try: body  finally: cleanup]. *)
Definition py_finally {S A} (body : Py S A) (cleanup : Py S unit) : Py S A := fun s =>
  match body s with
  | (s', r) =>
      match cleanup s' with
      | (s'', Return _) => (s'', r)
      | (s'', Throw e) => (s'', Throw e)
      end
  end.

(** What [get_connection()] hands back before any [with]: the object
    that [@contextmanager] makes around the generator, whose body has
    not run yet.  It has [__enter__] and [__exit__], and neither
    [__aenter__] nor [__aexit__]. *)
Inductive context_manager (S : Type) :=
  | GeneratorContextManager (enter : State S unit).
Arguments GeneratorContextManager {S} enter.

(** [with cm: block]. *)
Definition with_ {S A} (cm : context_manager S) (block : Py S A) : Py S A :=
  match cm with
  | GeneratorContextManager enter => perform call enter then block
  end.

(** [async with cm: block]: the statement looks up [__aenter__] and
    [__aexit__] on the type of [cm] first, and raises [TypeError] when
    they are missing, before [block] or any part of [cm] runs. *)
Definition async_with {S A} (cm : context_manager S) (block : Py S A) : Py S A :=
  match cm with
  | GeneratorContextManager _ =>
      throw (TypeError "'_GeneratorContextManager' object does not support the asynchronous context manager protocol")
  end.

(** [await value] for a value that is no awaitable, such as the dict
    that a plain function returned. *)
Definition await_dict {S A B} (value : A) : Py S B :=
  throw (TypeError "object dict can't be used in 'await' expression").

(** [content[start:stop]] for integers of either sign. *)
Definition slice_index (len i : Z) : Z :=
  if i <? 0 then Z.max (i + len) 0 else Z.min i len.

Definition slice {A} (l : list A) (start stop : Z) : list A :=
  let lo := slice_index (Z.of_nat (length l)) start in
  let hi := slice_index (Z.of_nat (length l)) stop in
  take (Z.to_nat (hi - lo)) (drop (Z.to_nat lo) l).

(* ===================================================================== *)
(** * Queries on the songs table *)
(* ===================================================================== *)

Module Query.

(** [ORDER BY id DESC]; the order among rows of one id is the
    database's choice, here that of a stable sort. *)
Definition id_desc (r1 r2 : Db.song_row) : Prop := Db.id r2 ≤ Db.id r1.
#[global] Instance id_desc_dec : RelDecision id_desc :=
  fun r1 r2 => decide (Db.id r2 ≤ Db.id r1).

Definition order_by_id_desc (rows : list Db.song_row) : list Db.song_row :=
  merge_sort id_desc rows.

(** [... LIMIT %s OFFSET %s] with [fetchall()]: PostgreSQL refuses a
    negative row count. *)
Definition limit_offset {A} (limit offset : Z) (rows : list A) : Py Db.database (list A) :=
  if offset <? 0 then throw (DatabaseError "OFFSET must not be negative")
  else if limit <? 0 then throw (DatabaseError "LIMIT must not be negative")
  else py_ret (take (Z.to_nat limit) (drop (Z.to_nat offset) rows)).

(** The dict made of a row: [metadata] is replaced by the empty dict
    when it is empty or NULL. *)
Definition row_dict (row : Db.song_row) : Db.song_row :=
  {| Db.id := Db.id row; Db.title := Db.title row; Db.artist := Db.artist row;
     Db.album := Db.album row; Db.file_path := Db.file_path row;
     Db.metadata := if decide (Db.metadata row = ∅) then ∅ else Db.metadata row |}.

(** Fetch paginated content from the database. *)
Definition fetch_content_from_db (skip limit : Z) : Py Db.database (list Db.song_row) :=
  py_try
    (perform call Db.get_connection then
     let+ rows := call (gets Db.songs) in
     let+ content := limit_offset limit skip (order_by_id_desc rows) in
     py_ret (row_dict <$> content))
    (fun e => py_ret []).

(** Delete a song from the database by its ID, ensuring it exists
    before deletion. *)
Definition delete_song_by_id (song_id : Z) : State Db.database bool :=
  try_except
    (do Db.get_connection then
     let* song := gets (fun db => head (filter (fun r => Db.id r = song_id) (Db.songs db))) in
     match song with
     | None => ret false
     | Some _ =>
         do modify (fun db =>
              {| Db.pool_up := Db.pool_up db;
                 Db.songs := filter (fun r => Db.id r ≠ song_id) (Db.songs db);
                 Db.songs_id_seq := Db.songs_id_seq db |}) then
         ret true
     end)
    (fun e => ret false).

(** Check if the database is reachable. *)
Definition check_database : State Db.database bool :=
  try_except
    (do Db.get_connection then
     ret true)
    (fun e => ret false).

(** List all stored content: [get_connection] is called in a worker
    thread, which only makes the context manager, and the result is
    entered with [async with]. *)
Definition list_all_content : Py Db.database (list Db.song_row) :=
  py_try
    (let conn := GeneratorContextManager Db.get_connection in
     async_with conn
       (let+ content := call (gets Db.songs) in
        py_ret (row_dict <$> content)))
    (fun e => py_ret []).

End Query.

(* ===================================================================== *)
(** * [routes/database_explorer.py], [routes/health.py], [GET /content/] *)
(* ===================================================================== *)

(** [DELETE /songs/{song_id}]. *)
Definition delete_song (song_id : Z) : Py Db.database string :=
  py_try
    (let+ deleted := call (Query.delete_song_by_id song_id) in
     if negb deleted then throw (HTTPException 404 (Message "Song not found"))
     else py_ret ("✅ Song ID " +:+ pretty song_id +:+ " deleted successfully."))
    (fun e => throw (HTTPException 500 (Message "Error deleting song"))).

(** [GET /health]; [uptime] is what [get_service_uptime()] returns and
    [version] the value of [APP_VERSION]. *)
Definition health_check (uptime : Chart.float64) (version : string)
  : Py Db.database health_status :=
  py_try
    (let+ db_status := call Query.check_database in
     let health_status :=
       {| h_status := if db_status then "ok" else "degraded";
          h_database := if db_status then "ok" else "down";
          h_uptime_seconds := uptime;
          h_version := version |} in
     if negb db_status then throw (HTTPException 503 (Health health_status))
     else py_ret health_status)
    (fun e => throw (HTTPException 500 (Message "Health check failed"))).

Record content_page := {
  page_total : nat;
  page_returned : nat;
  page_content : list Db.song_row
}.

(** [GET /content/]. *)
Definition list_content (skip limit : Z) : Py Db.database content_page :=
  py_try
    (let+ content := Query.list_all_content in
     let paginated_content := slice content skip (skip + limit) in
     py_ret {| page_total := length content; page_returned := length paginated_content;
               page_content := paginated_content |})
    (fun e => throw (HTTPException 500 (Message "Failed to fetch content"))).

(* ===================================================================== *)
(** * [routes/content_manager.py]: uploads *)
(* ===================================================================== *)

Module os_path.

(** [os.path.join(a, b)]. *)
Definition join (a b : string) : string :=
  if Path.is_absolute b then b
  else
    match a with
    | EmptyString => b
    | _ =>
        match String.rev a with
        | String "/" _ => a +:+ b
        | _ => a +:+ "/" +:+ b
        end
    end.

(** The last segment of [p]: what follows its last slash. *)
Definition basename (p : string) : string := default "" (last (Str.split "/" p)).

Fixpoint all_dots (s : string) : bool :=
  match s with
  | EmptyString => true
  | String c s' => Ascii.eqb c "." && all_dots s'
  end.

(** [os.path.splitext(p)[-1]]: the text from the last dot of the last
    segment on, unless nothing but dots comes before that dot in the
    segment (leading dots belong to the root). *)
Definition splitext_ext (p : string) : string :=
  let name := basename p in
  match Path.from_last_dot name with
  | Some ext =>
      if all_dots (substring 0 (String.length name - String.length ext) name) then ""
      else ext
  | None => ""
  end.

End os_path.

(** What the client sends: the file name as given, the number of bytes,
    and the content. *)
Record UploadFile := {
  filename : string;
  file_size : Z;
  file_data : Fs.fdata
}.

(** The lengths of the chunks that successive [file.read(chunk_size)]
    calls return, up to the empty chunk that ends the loop. *)
Definition chunk_lengths (chunk_size : Z) (file : UploadFile) : list Z :=
  replicate (Z.to_nat (file_size file / chunk_size)) chunk_size
  ++ (if file_size file mod chunk_size =? 0 then [] else [file_size file mod chunk_size]).

Definition ALLOWED_CONTENT_TYPES : list string := ["backgrounds"; "colors"; "highways"; "songs"].
Definition ALLOWED_EXTENSIONS : list string := [".zip"; ".rar"; ".png"; ".jpg"].

Definition MAX_FILE_SIZE_GB : Z := 10.
Definition MAX_FILE_SIZE_BYTES : Z := MAX_FILE_SIZE_GB * 1024 * 1024 * 1024.

(** Returns a secure temp file path in the system temp directory. *)
Definition get_temp_file (file_name : string) : State world string :=
  let temp_dir := Path.to_string gettempdir in
  let* hex := uuid4_hex in
  ret (os_path.join temp_dir (hex +:+ "_" +:+ file_name)).

(** Ensure the uploaded/downloaded file has a valid extension. *)
Definition validate_file_extension {S} (file_name : string) : Py S unit :=
  let ext := Str.lower (os_path.splitext_ext file_name) in
  if decide (ext ∉ ALLOWED_EXTENSIONS)
  then throw (HTTPException 400 (Message ("Invalid file extension: " +:+ ext)))
  else py_ret tt.

(** The [while chunk := await file.read(chunk_size)] loop. *)
Fixpoint count_chunks {S} (chunks : list Z) (size : Z) : Py S unit :=
  match chunks with
  | [] => py_ret tt
  | chunk :: rest =>
      let size := size + chunk in
      if MAX_FILE_SIZE_BYTES <? size
      then throw (HTTPException 413
                    (Message ("File too large (max " +:+ pretty MAX_FILE_SIZE_GB +:+ "GB)")))
      else count_chunks rest size
  end.

(** Check if uploaded file exceeds the allowed size limit. *)
Definition validate_file_size {S} (file : UploadFile) : Py S unit :=
  count_chunks (chunk_lengths (1024 * 1024) file) 0.

(** [open(p, "wb")] and the writes up to the close: the file is made or
    replaced; its directory has to exist. *)
Definition open_write (p : Path.t) (d : Fs.fdata) (fs : gmap (list string) Fs.node)
  : result (gmap (list string) Fs.node) :=
  let p := Fs.resolve p in
  match Fs.blocked fs p with
  | Some a => Raise (NotADirectoryError a)
  | None =>
      if Fs.is_dir fs p then Raise (IsADirectoryError p)
      else if Fs.is_dir fs (Path.parent p) then Ok (<[p := Fs.File d]> fs)
      else Raise (FileNotFoundError p)
  end.

Definition save_file (p : Path.t) (d : Fs.fdata) : State world unit :=
  fs_call (EvWrite (Fs.resolve p)) (open_write p d).

(** The [finally] clause of the upload routes. *)
Definition remove_temp_file (temp_file_path : string) : Py world unit :=
  py_try
    (call (os_remove (Path.of_string temp_file_path)))
    (fun e =>
       match e with
       | Service (FileNotFoundError _) => py_ret tt
       | _ => throw e
       end).

(** What [POST /upload_content/] returns: the result of the processing
    functions, or [{"status": "error", "message": "Internal Server Error"}]. *)
Inductive upload_reply :=
  | Processed (result : response)
  | InternalServerError.

(** [isinstance(result, dict)]. *)
Definition is_dict (result : response) : bool :=
  match result with
  | RStored _ => false
  | _ => true
  end.

(** [POST /upload_content/]. *)
Definition upload_content (file : UploadFile) (content_type : string)
  : Py world upload_reply :=
  if decide (content_type ∉ ALLOWED_CONTENT_TYPES)
  then throw (HTTPException 400 (Message ("Invalid content type: " +:+ content_type)))
  else
    perform validate_file_size file then
    perform validate_file_extension (filename file) then
    let+ temp_file_path := call (get_temp_file (filename file)) in
    py_finally
      (py_try
         (perform call (save_file (Path.of_string temp_file_path) (file_data file)) then
          let+ result := call (extract_content temp_file_path content_type) in
          let+ result :=
            if decide (content_type = "songs") then
              let+ stored_content :=
                call (process_and_store_content (Path.of_string temp_file_path)
                        content_type) in
              py_ret (RStored stored_content)
            else py_ret result in
          if negb (is_dict result) then throw (Service ValueError)
          else py_ret (Processed result))
         (fun e => py_ret InternalServerError))
      (remove_temp_file temp_file_path).

(* ===================================================================== *)
(** * [services/song_generator.py] and [POST /process_song/] *)
(* ===================================================================== *)

(** An [async def] function that was called and not awaited: a
    coroutine object, whose body has not run. *)
Inductive coroutine (S A : Type) :=
  | Coroutine (body : Py S A).
Arguments Coroutine {S A} body.

(** [str(e)] at route level. *)
Definition error_str (e : error) : string :=
  match e with
  | Service e => str e
  | TypeError msg => msg
  | DatabaseError pgerror => pgerror
  | OperationalError pgerror => pgerror
  | HTTPException status_code (Message msg) => pretty status_code +:+ ": " +:+ msg
  | HTTPException status_code (Health _) => pretty status_code +:+ ": "
  end.

Module service_manager.

(** What [store_content] returns: whatever [asyncio.to_thread] handed
    back, or the error dict. *)
Inductive store_reply :=
  | Unawaited (result : coroutine world (list stored))
  | StoreError (msg : string).

(** Wrapper to process and store extracted content asynchronously.
    [asyncio.to_thread] calls [process_and_store_content] in a worker
    thread; that function is an [async def], so the call makes its
    coroutine and returns it. *)
Definition store_content (temp_extract_dir content_type : string) : Py world store_reply :=
  py_try
    (let result :=
       Coroutine (call (process_and_store_content (Path.of_string temp_extract_dir)
                          content_type)) in
     py_ret (Unawaited result))
    (fun e => py_ret (StoreError (error_str e))).

End service_manager.

Definition OUTPUT_DIR : Path.t := ["app"; "data"; "clonehero_content"; "generator"].

(** [Path.stem]: the name without its suffix. *)
Definition stem (p : Path.t) : string :=
  let name := Path.name p in
  substring 0 (String.length name - String.length (Path.suffix p)) name.

(** What [POST /process_song/] works with: tempo and beat times. *)
Definition beat_analysis : Type := Chart.float64 * list Chart.float64.

Inductive song_reply :=
  | SongProcessed (message notes_chart : string) (tempo : Chart.float64)
  | SongError (msg : string).

Section SongGenerator.

(** What [librosa.load], [beat_track] and [frames_to_time] make of the
    node at the path of the audio file. *)
Variable librosa : option Fs.node → result beat_analysis.

(** Analyze audio to detect tempo, beats, and note positions. *)
Definition analyze_audio (file_path : string) : State world beat_analysis :=
  try_except
    (let* node := gets (fun w => Fs.lookup (w_fs w) (Fs.resolve (Path.of_string file_path))) in
     lift_result (librosa node))
    (fun e => raise e).

(** [generate_notes_chart] with its file: [output_path.open("w")] makes
    or empties the file, and what was written before an exception
    stays in it. *)
Definition generate_notes_chart (song_name : string) (beat_times : list Chart.float64)
           (output_path : Path.t) : State world unit :=
  let written := Chart.generate_notes_chart song_name beat_times "" in
  do save_file output_path (Fs.Plain (Fs.Blob written.1)) then
  lift_result written.2.

(** Process an uploaded song file and generate Clone Hero assets. *)
Definition process_song_file (file_path : string) : State world song_reply :=
  try_except
    (let* analysis := analyze_audio file_path in
     let '(tempo, beat_times) := analysis in
     let song_name := stem (Path.of_string file_path) in
     let song_output_dir := Path.joinpath OUTPUT_DIR song_name in
     do mkdir song_output_dir then
     let notes_chart_path := Path.joinpath song_output_dir "notes.chart" in
     do generate_notes_chart song_name beat_times notes_chart_path then
     let _ := service_manager.store_content (Path.to_string song_output_dir) "song" in
     ret (SongProcessed "Song processed successfully"
                        (Path.to_string notes_chart_path) tempo))
    (fun e => ret (SongError (str e))).

Definition SUPPORTED_FORMATS : list string := [".mp3"; ".ogg"; ".wav"; ".flac"].

(** Asynchronously saves an uploaded file with a unique name.  The
    formats of the error message come in the iteration order of the
    set. *)
Definition save_uploaded_file (uploaded_file : UploadFile) : Py world Path.t :=
  let file_ext := Str.lower (Path.suffix (Path.of_string (filename uploaded_file))) in
  if decide (file_ext ∉ SUPPORTED_FORMATS) then
    throw (HTTPException 400
             (Message ("Invalid file format: " +:+ file_ext +:+ ". Supported formats: "
                       +:+ Str.join ", " SUPPORTED_FORMATS)))
  else
    let+ hex := call uuid4_hex in
    let unique_file_name := hex +:+ file_ext in
    let file_path := Path.joinpath OUTPUT_DIR unique_file_name in
    py_try
      (perform call (save_file file_path (file_data uploaded_file)) then
       py_ret file_path)
      (fun e => throw (HTTPException 500 (Message "Error saving uploaded file."))).

Record processed_song := {
  p_message : string;
  p_notes_chart : string;
  p_tempo : Chart.float64;
  p_file_name : string
}.

(** [POST /process_song/]: [process_song_file] is a plain function, so
    the call runs it and [await] is applied to the dict it returned. *)
Definition process_song (file : UploadFile) : Py world processed_song :=
  let+ temp_file_path := save_uploaded_file file in
  py_finally
    (py_try
       (let+ result :=
          (let+ returned := call (process_song_file (Path.to_string temp_file_path)) in
           await_dict returned) in
        match result with
        | SongError msg => throw (HTTPException 500 (Message msg))
        | SongProcessed message notes_chart tempo =>
            py_ret {| p_message := "Song processed successfully";
                      p_notes_chart := notes_chart; p_tempo := tempo;
                      p_file_name := filename file |}
        end)
       (fun e =>
          match e with
          | HTTPException _ _ => throw e
          | _ => throw (HTTPException 500
                          (Message "Internal server error during song processing."))
          end))
    (remove_temp_file (Path.to_string temp_file_path)).

End SongGenerator.

(* ===================================================================== *)
(** * [database.py] at start-up, and [wait_for_db] of [api/main.py] *)
(* ===================================================================== *)

Module startup.

(** A number of seconds handed to [sleep]: an [int] or a [float]. *)
Inductive seconds :=
  | IntSeconds (n : Z)
  | FloatSeconds (x : Chart.float64).

(** The process at start-up: the module-level [db_pool], the SQL files
    on disk, and what the surroundings answer: whether the n-th attempt
    to open the pool succeeds, what the driver raises for a script, what
    [random.uniform(0, 1)] draws. *)
Record server := {
  db_pool : bool;                       (* [db_pool is not None] *)
  pool_opens : nat → bool;
  attempts : nat;                       (* attempts to open the pool so far *)
  sql_files : gmap string string;
  sql_result : string → option error;
  executed : list string;               (* scripts run and committed *)
  uniform : nat → Chart.float64;
  drawn : nat;
  slept : list seconds                  (* the arguments of [sleep], oldest first *)
}.

Definition set_db_pool (pool : bool) (st : server) : server :=
  {| db_pool := pool; pool_opens := pool_opens st; attempts := attempts st;
     sql_files := sql_files st; sql_result := sql_result st; executed := executed st;
     uniform := uniform st; drawn := drawn st; slept := slept st |}.

Definition add_sleep (d : seconds) (st : server) : server :=
  {| db_pool := db_pool st; pool_opens := pool_opens st; attempts := attempts st;
     sql_files := sql_files st; sql_result := sql_result st; executed := executed st;
     uniform := uniform st; drawn := drawn st; slept := slept st ++ [d] |}.

(** [pool.SimpleConnectionPool(...)], assigned to [db_pool]. *)
Definition open_pool : Py server unit := fun st =>
  let st' :=
    {| db_pool := db_pool st; pool_opens := pool_opens st; attempts := S (attempts st);
       sql_files := sql_files st; sql_result := sql_result st; executed := executed st;
       uniform := uniform st; drawn := drawn st; slept := slept st |} in
  if pool_opens st (attempts st) then (set_db_pool true st', Return tt)
  else (st', Throw (OperationalError "could not connect to server")).

(** [time.sleep(delay)]. *)
Definition time_sleep (delay : Z) : Py server unit := fun st =>
  if delay <? 0 then (st, Throw (Service ValueError))
  else (add_sleep (IntSeconds delay) st, Return tt).

(** [await asyncio.sleep(delay)]. *)
Definition asyncio_sleep (delay : seconds) : Py server unit := fun st =>
  (add_sleep delay st, Return tt).

(** [random.uniform(0, 1)]. *)
Definition random_uniform : Py server Chart.float64 := fun st =>
  ({| db_pool := db_pool st; pool_opens := pool_opens st; attempts := attempts st;
      sql_files := sql_files st; sql_result := sql_result st; executed := executed st;
      uniform := uniform st; drawn := S (drawn st); slept := slept st |},
   Return (uniform st (drawn st))).

(** The body of [for attempt in range(retries)], [retries] times. *)
Fixpoint create_db_pool_attempts (retries : nat) (delay : Z) : Py server unit :=
  match retries with
  | O => fun st => (set_db_pool false st, Return tt)
  | S retries' =>
      let+ opened :=
        py_try
          (perform open_pool then
           py_ret true)
          (fun e =>
             perform time_sleep delay then
             py_ret false) in
      if opened then py_ret tt else create_db_pool_attempts retries' delay
  end.

(** Creates a database connection pool with retry logic. *)
Definition create_db_pool (retries delay : Z) : Py server unit :=
  create_db_pool_attempts (Z.to_nat retries) delay.

(** [with get_connection() as conn: block]: an [OperationalError] of
    the block is logged and raised again, any other exception passes
    through, and the connection goes back to the pool. *)
Definition get_connection {A} (block : Py server A) : Py server A := fun st =>
  if negb (db_pool st)
  then (st, Throw (Service (RuntimeError "Database pool is unavailable.")))
  else
    py_finally
      (py_try block (fun e => throw e))
      (py_ret tt) st.

(** [open(sql_file, "r", encoding="utf-8")] and [f.read()]. *)
Definition read_text (sql_file : string) : Py server string := fun st =>
  match sql_files st !! sql_file with
  | Some text => (st, Return text)
  | None => (st, Throw (Service (FileNotFoundError (Path.of_string sql_file))))
  end.

(** [cursor.execute(sql_commands)] and [conn.commit()]. *)
Definition execute_and_commit (sql_commands : string) : Py server unit := fun st =>
  match sql_result st sql_commands with
  | Some e => (st, Throw e)
  | None =>
      ({| db_pool := db_pool st; pool_opens := pool_opens st; attempts := attempts st;
          sql_files := sql_files st; sql_result := sql_result st;
          executed := executed st ++ [sql_commands];
          uniform := uniform st; drawn := drawn st; slept := slept st |}, Return tt)
  end.

(** Executes an SQL file with better error handling. *)
Definition execute_sql_file (sql_file : string) : Py server unit :=
  py_try
    (let+ text := read_text sql_file in
     let sql_commands := Str.strip text in
     if negb (Str.truthy sql_commands) then py_ret tt
     else get_connection (execute_and_commit sql_commands))
    (fun e => if is_database_error e then py_ret tt else throw e).

(** Initializes the database schema and triggers. *)
Definition init_db : Py server unit :=
  execute_sql_file "/app/src/sql/schema.sql".

(** [min(base_delay * (2 ** attempt) + u, 60)]: the sum is a float, and
    [min] hands back its first argument unless the second is smaller. *)
Definition delay_time (base_delay : Z) (attempt : nat) (u : Chart.float64) : seconds :=
  let x := SFadd Chart.prec Chart.emax
             (Chart.of_int (base_delay * 2 ^ Z.of_nat attempt)) u in
  if SFltb (Chart.of_int 60) x then IntSeconds 60 else FloatSeconds x.

(** The body of [for attempt in range(max_retries)] from [attempt] on. *)
Fixpoint wait_for_db_attempts (left : nat) (attempt : nat) (base_delay : Z)
  : Py server unit :=
  match left with
  | O => throw (Service (RuntimeError "Database connection failed after multiple retries."))
  | S left' =>
      let+ initialized :=
        py_try
          (perform init_db then
           py_ret true)
          (fun e =>
             if is_database_error e then
               let+ u := random_uniform in
               perform asyncio_sleep (delay_time base_delay attempt u) then
               py_ret false
             else throw e) in
      if initialized then py_ret tt
      else wait_for_db_attempts left' (S attempt) base_delay
  end.

(** Wait for the database to be ready before initializing. *)
Definition wait_for_db (max_retries base_delay : Z) : Py server unit :=
  wait_for_db_attempts (Z.to_nat max_retries) 0 base_delay.

End startup.

(* ===================================================================== *)
(** * Vocabulary of the statements *)
(* ===================================================================== *)

(** ** Relations between a statement and the world *)

(** [preserves P m]: whatever [m] does and however it ends, a world in
    [P] stays in [P]. *)
Definition preserves {A : Type} (P : world → Prop) (m : State world A) : Prop :=
  ∀ w w' r, P w → m w = (w', r) → P w'.

Definition db_is (db : Db.database) (w : world) : Prop := w_db w = db.

(** [fs_step R m]: however [m] ends, the disk before and after it are
    related by [R]. *)
Definition fs_step {A : Type}
           (R : gmap (list string) Fs.node → gmap (list string) Fs.node → Prop)
           (m : State world A) : Prop :=
  ∀ w w' r, m w = (w', r) → R (w_fs w) (w_fs w').

(** A step keeps what is outside [d]: every node that was there is
    still there, and no regular file has appeared. *)
Definition outside_kept (d : list string) (fs fs' : gmap (list string) Fs.node) : Prop :=
  (∀ p n, fs !! p = Some n → ¬ d `prefix_of` p → fs' !! p = Some n)
  ∧ (∀ p x, fs' !! p = Some (Fs.File x) → ¬ d `prefix_of` p → fs !! p = Some (Fs.File x)).

(** [appends P m]: however [m] ends, it has only added events to the
    trace, all of them in [P]. *)
Definition appends {A : Type} (P : event → Prop) (m : State world A) : Prop :=
  ∀ w w' r, m w = (w', r) → ∃ evs, w_trace w' = w_trace w ++ evs ∧ Forall P evs.

(** Events that put content into the library: a move into the canonical
    layout, a store call. *)
Definition is_store (ev : event) : Prop :=
  match ev with
  | EvMove _ _ | EvStore _ _ _ _ => True
  | _ => False
  end.

Definition any_event (ev : event) : Prop := True.

(** A trace whose store events all come after the removal of [archive]. *)
Definition removed_first (archive : list string) (evs : list event) : Prop :=
  ∀ i ev, evs !! i = Some ev → is_store ev →
          ∃ j, (j < i)%nat ∧ evs !! j = Some (EvRemove archive).

(** ** Parts of the services that the statements name *)

(** The archive branch of [extract_content], up to the cleanup. *)
Definition archive_branch (file_path : Path.t) (temp_extract_dir : Path.t)
           (file_ext content_type : string) : State world response :=
  do mkdir temp_extract_dir then
  let* extract_result := extract_archive file_path temp_extract_dir file_ext in
  if has_error extract_result then ret extract_result
  else
    do os_remove file_path then
    store_extracted_content temp_extract_dir content_type.

(** [Path(file_path).suffix.lower()]. *)
Definition archive_ext (file_path : string) : string :=
  Str.lower (Path.suffix (Path.of_string file_path)).

(** The lines of the sync track for given timestamps. *)
Definition sync_lines (events : list Z) : string :=
  foldr (fun ms text => Chart.sync_line ms +:+ text) "" events.

(** Calls in flight: all at their start, all returned with one
    identifier; calls with the triple of [c]. *)
Definition init (cs : list Concurrent.call) : list (Concurrent.call * Concurrent.pc) :=
  (fun c => (c, Concurrent.Start)) <$> cs.
Definition finished (content_id : Z) (cs : list Concurrent.call)
  : list (Concurrent.call * Concurrent.pc) :=
  (fun c => (c, Concurrent.Done content_id)) <$> cs.
Definition same_triple (c c' : Concurrent.call) : Prop :=
  Concurrent.c_title c' = Concurrent.c_title c
  ∧ Concurrent.c_artist c' = Concurrent.c_artist c
  ∧ Concurrent.c_album c' = Concurrent.c_album c.

(** ** Worlds and inputs of the concrete runs *)

Definition song_ini (name artist album : string) : Fs.content :=
  Fs.IniFile [("song", [("name", name); ("artist", artist); ("album", album)])].

Definition hex_digits (n : nat) : string :=
  nth n ["3f9a1c0de4b7425a8c6e0f1d2b3a4c5d"; "a81b22c7f05e4d3c9b8a7f6e5d4c3b2a";
         "5c0e7d19ab3f4e2d8c7b6a5f4e3d2c1b"; "e2d4c6b8a09f4e1d3c5b7a9f8e6d4c2b"]
      "00000000000000000000000000000000".

Definition empty_db (up : bool) : Db.database :=
  {| Db.pool_up := up; Db.songs := []; Db.songs_id_seq := 1 |}.

Definition db_one_song : Db.database :=
  {| Db.pool_up := true;
     Db.songs := [{| Db.id := 7; Db.title := "Test"; Db.artist := "Band";
                     Db.album := "Demo"; Db.file_path := "/songs/Band/Test_0a1b2c3d";
                     Db.metadata := ∅ |}];
     Db.songs_id_seq := 8 |}.

(** A server with an empty content folder and the upload saved under
    the temporary directory as [/tmp/upload.zip]. *)
Definition upload_world (db : Db.database) (archive : Fs.fdata) : world :=
  {| w_fs := <[ ["tmp"; "upload.zip"] := Fs.File archive ]> (<[ ["tmp"] := Fs.Dir ]> ∅);
     w_db := db;
     w_unrar := true;
     w_uuid := hex_digits;
     w_drawn := 0;
     w_trace := [] |}.

Definition with_hostname (w : world) : world :=
  {| w_fs := <[ ["etc"; "hostname"] := Fs.File (Fs.Plain (Fs.Blob "server")) ]>
               (<[ ["etc"] := Fs.Dir ]> (w_fs w));
     w_db := w_db w; w_unrar := w_unrar w; w_uuid := w_uuid w;
     w_drawn := w_drawn w; w_trace := w_trace w |}.

(** The world after a successful extraction into [/tmp/extract_3f9a1c]. *)
Definition extracted (archive : Fs.fdata) : world :=
  ((do mkdir ["tmp"; "extract_3f9a1c"] then
    extract_archive ["tmp"; "upload.zip"] ["tmp"; "extract_3f9a1c"] ".zip")
     (with_hostname (upload_world (empty_db true) archive))).1.

(** An upload whose members reach for the parent directory and for an
    absolute path. *)
Definition evil_zip : Fs.fdata :=
  Fs.ZipFile [("../evil.txt", Some (Fs.Blob "x"));
              ("/etc/cron.d/evil", Some (Fs.Blob "y"))].

(** A two-song pack whose first descriptor names a song "100% Pure". *)
Definition pack_with_percent : Fs.fdata :=
  Fs.ZipFile [("Pack/Percent/song.ini", Some (song_ini "100% Pure" "Band" "Demo"));
              ("Pack/Plain/song.ini", Some (song_ini "Test" "Band" "Demo"))].

(** The same pack with an artist name that is the path of a regular
    file on the server. *)
Definition pack_with_blocked_artist : Fs.fdata :=
  Fs.ZipFile [("Pack/Percent/song.ini", Some (song_ini "Blocked" "/etc/hostname" "Demo"));
              ("Pack/Plain/song.ini", Some (song_ini "Test" "Band" "Demo"))].

Definition pack_plain_only : Fs.fdata :=
  Fs.ZipFile [("Pack/Plain/song.ini", Some (song_ini "Test" "Band" "Demo"))].

Definition descriptor_with_extra_key : option configparser.ini_text :=
  Some [("song", [("name", "Test"); ("artist", "Band"); ("album", "Demo");
                  ("genre", " Rock "); ("custom_tag", "kept?")])].

Definition call_test (file_path : string) : Concurrent.call :=
  {| Concurrent.c_title := "Test"; Concurrent.c_artist := "Band";
     Concurrent.c_album := "Demo"; Concurrent.c_file_path := file_path;
     Concurrent.c_metadata := ∅ |}.

(** The three beats of the specification's example: 0.000, 0.500 and
    0.5005 seconds. *)
Definition beats_example : list Chart.float64 :=
  [Chart.decimal 0 1000; Chart.decimal 500 1000; Chart.decimal 5005 10000].

(** ** Vocabulary and inputs of the further properties *)

(** Descriptor text in which no value holds a percent sign. *)
Definition plain_text (text : configparser.ini_text) : Prop :=
  Forall (fun block => Forall (fun opt => Str.contains "%" opt.2 = false) block.2) text.

(** The option names of a section body as the reader keys them. *)
Definition option_names (lines : list (string * string)) : list string :=
  (fun opt => configparser.optionxform (Str.rstrip opt.1)) <$> lines.

(** Two descriptor texts that differ in the letter case of their option
    names only. *)
Definition same_up_to_key_case (text text' : configparser.ini_text) : Prop :=
  Forall2 (fun b b' =>
             b.1 = b'.1
             ∧ Forall2 (fun o o' => Str.lower o.1 = Str.lower o'.1 ∧ o.2 = o'.2)
                       b.2 b'.2)
          text text'.

Definition values_in (P : string → Prop) (cfg : configparser.ConfigParser) : Prop :=
  (∀ k v, configparser._defaults cfg !! k = Some v → P v)
  ∧ (∀ s sect k v, configparser._sections cfg !! s = Some sect → sect !! k = Some v → P v).

Definition descriptor_blank_album : configparser.ini_text :=
  [("song", [("name", "Test"); ("artist", "Band"); ("album", "   ")])].



(** The row of the table that a returned song stands for. *)
Definition row_of (s : stored) (r : Db.song_row) : Prop :=
  Db.id r = s_id s ∧ Db.title r = s_title s ∧ Db.artist r = s_artist s
  ∧ Db.album r = s_album s.

Definition stored_test_band_demo : stored :=
  {| s_id := 1; s_title := "Test"; s_artist := "Band"; s_album := "Demo";
     s_folder_path := "/app/data/clonehero_content/songs/Band/Test_3f9a1c0d";
     s_metadata := ∅ |}.

Definition grown (rows : list Db.song_row) (w : world) : Prop :=
  rows `prefix_of` Db.songs (w_db w).

(** An upload whose only descriptor names no album. *)
Definition pack_without_album : Fs.fdata :=
  Fs.ZipFile [("Song A/song.ini",
               Some (Fs.IniFile [("song", [("name", "Test"); ("artist", "Band")])]))].

(** The rows of an outcome, none when the query raised. *)
Definition page_of (r : outcome (list Db.song_row)) : list Db.song_row :=
  match r with
  | Return page => page
  | Throw _ => []
  end.

Definition db_three_songs : Db.database :=
  {| Db.pool_up := true;
     Db.songs := [{| Db.id := 1; Db.title := "A"; Db.artist := "Band"; Db.album := "Demo";
                     Db.file_path := "/songs/Band/A_00000001"; Db.metadata := ∅ |};
                  {| Db.id := 3; Db.title := "C"; Db.artist := "Band"; Db.album := "Demo";
                     Db.file_path := "/songs/Band/C_00000003"; Db.metadata := ∅ |};
                  {| Db.id := 2; Db.title := "B"; Db.artist := "Band"; Db.album := "Demo";
                     Db.file_path := "/songs/Band/B_00000002"; Db.metadata := ∅ |}];
     Db.songs_id_seq := 4 |}.

(** A server whose temporary directory exists and whose content folder
    is still empty. *)
Definition server_world (db : Db.database) : world :=
  {| w_fs := {[ ["tmp"] := Fs.Dir ]};
     w_db := db; w_unrar := true; w_uuid := hex_digits; w_drawn := 0; w_trace := [] |}.

Definition pack_upload : UploadFile :=
  {| filename := "pack.zip"; file_size := 2048; file_data := pack_plain_only |}.

(** The path at which [upload_content] saves the upload. *)
Definition temp_file_of (file : UploadFile) (w : world) : Path.t :=
  Fs.resolve (Path.of_string
    (os_path.join (Path.to_string gettempdir)
       (w_uuid w (w_drawn w) +:+ "_" +:+ filename file))).

(** An audio analysis that finds two beats at 120 beats per minute in
    any regular file, and fails on anything else. *)
Definition two_beats (node : option Fs.node) : result beat_analysis :=
  match node with
  | Some (Fs.File _) => Ok (Chart.of_int 120, [Chart.decimal 0 1; Chart.decimal 500 1000])
  | _ => Raise (FileNotFoundError [])
  end.

Definition generator_world : world :=
  {| w_fs := {[ ["app"; "data"; "clonehero_content"; "generator"] := Fs.Dir;
                ["app"; "data"; "clonehero_content"] := Fs.Dir;
                ["app"; "data"] := Fs.Dir; ["app"] := Fs.Dir; ["tmp"] := Fs.Dir ]};
     w_db := empty_db true; w_unrar := true; w_uuid := hex_digits; w_drawn := 0;
     w_trace := [] |}.

Definition song_upload : UploadFile :=
  {| filename := "riff.ogg"; file_size := 4096; file_data := Fs.Plain (Fs.Blob "OggS") |}.
(** A process whose database accepts connections from the third attempt
    on, with a schema script on disk that the database rejects. *)
Definition server_at_boot : startup.server :=
  {| startup.db_pool := false;
     startup.pool_opens := fun n => (2 <=? n)%nat;
     startup.attempts := 0;
     startup.sql_files := {[ "/app/src/sql/schema.sql" := "CREATE TABLE songs (" ]};
     startup.sql_result := fun _ => Some (DatabaseError "syntax error at end of input");
     startup.executed := [];
     startup.uniform := fun _ => Chart.decimal 1 2;
     startup.drawn := 0;
     startup.slept := [] |}.

Definition server_with_pool : startup.server := startup.set_db_pool true server_at_boot.

(* ===================================================================== *)
(** * Properties of the dedup store *)
(* ===================================================================== *)

Section DedupStore.

Import Db.

Variables (title_ artist_ album_ : string).

Abbreviation first_match db :=
  (head (filter (fun r => matches title_ artist_ album_ r = true) (songs db))).

Lemma add_content_to_db_found db file_path_ metadata_ r :
  pool_up db = true →
  first_match db = Some r →
  add_content_to_db title_ artist_ album_ file_path_ metadata_ db = (db, Ok (id r)).
Proof.
  intros Hup Hr.
  unfold add_content_to_db, try_except, bind, get_connection, select_id, gets.
  rewrite Hup, Hr. reflexivity.
Qed.

Lemma add_content_to_db_fresh db file_path_ metadata_ :
  pool_up db = true →
  first_match db = None →
  add_content_to_db title_ artist_ album_ file_path_ metadata_ db
  = insert_returning_id title_ artist_ album_ file_path_ metadata_ db.
Proof.
  intros Hup Hr.
  unfold add_content_to_db, try_except, bind, get_connection, select_id, gets.
  rewrite Hup, Hr. reflexivity.
Qed.

Lemma add_content_to_db_down db file_path_ metadata_ :
  pool_up db = false →
  add_content_to_db title_ artist_ album_ file_path_ metadata_ db = (db, Ok (-1)).
Proof.
  intros Hup.
  unfold add_content_to_db, try_except, bind, get_connection.
  rewrite Hup. reflexivity.
Qed.

(** The row that an insert appends is the first match afterwards when
    there was none before. *)
Lemma first_match_after_insert db file_path_ metadata_ :
  first_match db = None →
  first_match (insert_returning_id title_ artist_ album_ file_path_ metadata_ db).1
  = Some {| id := songs_id_seq db; title := title_; artist := artist_;
            album := album_; file_path := file_path_; metadata := metadata_ |}.
Proof.
  intros Hnone. cbn [insert_returning_id fst songs].
  rewrite filter_app, head_app, Hnone.
  rewrite filter_singleton_True; [reflexivity | exact [] |].
  unfold matches. cbn. rewrite !bool_decide_eq_true_2 by reflexivity. reflexivity.
Qed.

Lemma insert_keeps_pool db file_path_ metadata_ :
  pool_up (insert_returning_id title_ artist_ album_ file_path_ metadata_ db).1
  = pool_up db.
Proof. reflexivity. Qed.

Lemma first_match_elem db r :
  first_match db = Some r →
  r ∈ songs db ∧ title r = title_ ∧ artist r = artist_ ∧ album r = album_.
Proof.
  intros Hr. apply head_Some_elem_of, list_elem_of_filter in Hr as [Hm Hin].
  split; [exact Hin |].
  unfold matches in Hm.
  apply andb_true_iff in Hm as [Hm Hal]. apply andb_true_iff in Hm as [Ht Har].
  apply bool_decide_eq_true_1 in Ht, Har, Hal. auto.
Qed.

Lemma first_match_exists db r :
  r ∈ songs db → matches title_ artist_ album_ r = true →
  ∃ r', first_match db = Some r'.
Proof.
  intros Hin Hm.
  destruct (first_match db) as [r'|] eqn:Hhead; [eauto |].
  exfalso.
  assert (Hnil : filter (fun r => matches title_ artist_ album_ r = true) (songs db) = []).
  { destruct (filter _ (songs db)); [reflexivity | discriminate]. }
  exact (filter_nil_not_elem_of _ _ _ Hnil Hm Hin).
Qed.

End DedupStore.

(** C5.  While the storage layer answers, a store call whose (title,
    artist, album) triple equals, as strings, that of a record already
    in the table returns the identifier of such a record and leaves the
    table as it is; and of two store calls with one triple in a row, the
    second returns what the first returned and inserts nothing. *)
Theorem add_content_to_db_dedup_idempotent :
  ∀ (db : Db.database) (title artist album : string)
    (file_path file_path' : string) (metadata metadata' : gmap string string),
    Db.pool_up db = true →
    ((∃ r, r ∈ Db.songs db ∧ Db.matches title artist album r = true) →
     ∃ r, r ∈ Db.songs db
          ∧ Db.title r = title ∧ Db.artist r = artist ∧ Db.album r = album
          ∧ Db.add_content_to_db title artist album file_path metadata db
            = (db, Ok (Db.id r)))
    ∧ (∀ db1 id1, Db.add_content_to_db title artist album file_path metadata db
                  = (db1, Ok id1) →
                  Db.add_content_to_db title artist album file_path' metadata' db1
                  = (db1, Ok id1)).
Proof.
  intros db t a al fp fp' md md' Hup. split.
  - intros (r & Hin & Hm).
    destruct (first_match_exists t a al db r Hin Hm) as [r' Hr'].
    exists r'. destruct (first_match_elem t a al db r' Hr') as (? & ? & ? & ?).
    repeat split; try assumption.
    by apply add_content_to_db_found.
  - intros db1 id1 Hfirst.
    destruct (head (filter (fun r => Db.matches t a al r = true) (Db.songs db)))
      as [r|] eqn:Hhead.
    + rewrite (add_content_to_db_found t a al db fp md r Hup Hhead) in Hfirst.
      injection Hfirst as <- <-.
      by apply add_content_to_db_found.
    + rewrite (add_content_to_db_fresh t a al db fp md Hup Hhead) in Hfirst.
      pose proof (first_match_after_insert t a al db fp md Hhead) as Hnew.
      pose proof (insert_keeps_pool t a al db fp md) as Hpool.
      rewrite Hfirst in Hnew, Hpool. cbn [fst] in Hnew, Hpool.
      rewrite Hup in Hpool.
      rewrite (add_content_to_db_found t a al db1 fp' md' _ Hpool Hnew).
      cbn in Hfirst. injection Hfirst as _ <-. reflexivity.
Qed.

Lemma add_content_to_db_dedup_idempotent_witness :
  Db.add_content_to_db "Test" "Band" "Demo" "/songs/Band/Test_99999999" ∅ db_one_song
  = (db_one_song, Ok 7).
Proof.
  destruct (add_content_to_db_dedup_idempotent db_one_song "Test" "Band" "Demo"
              "/songs/Band/Test_99999999" "/songs/Band/Test_99999999" ∅ ∅ eq_refl)
    as [_ Hsecond].
  apply Hsecond. vm_compute. reflexivity.
Defined.

(* ===================================================================== *)
(** * What each statement leaves untouched *)
(* ===================================================================== *)

Lemma preserves_ret {A} P (a : A) : preserves P (ret a).
Proof. intros w w' r HP [= <- _]. exact HP. Qed.

Lemma preserves_raise {A} P e : preserves P (@raise world A e).
Proof. intros w w' r HP [= <- _]. exact HP. Qed.

Lemma preserves_gets {A} P (f : world → A) : preserves P (gets f).
Proof. intros w w' r HP [= <- _]. exact HP. Qed.

Lemma preserves_lift_result {A} P (x : result A) : preserves P (lift_result x).
Proof. intros w w' r HP [= <- _]. exact HP. Qed.

Lemma preserves_bind {A B} P (m : State world A) (f : A → State world B) :
  preserves P m → (∀ a, preserves P (f a)) → preserves P (bind m f).
Proof.
  intros Hm Hf w w' r HP. unfold bind.
  destruct (m w) as [w1 [a|e]] eqn:Hrun.
  - intros Hk. exact (Hf a w1 w' r (Hm _ _ _ HP Hrun) Hk).
  - intros [= <- _]. exact (Hm _ _ _ HP Hrun).
Qed.

Lemma preserves_try_except {A} P (body : State world A) handler :
  preserves P body → (∀ e, preserves P (handler e)) →
  preserves P (try_except body handler).
Proof.
  intros Hm Hh w w' r HP. unfold try_except.
  destruct (body w) as [w1 [a|e]] eqn:Hrun.
  - intros [= <- _]. exact (Hm _ _ _ HP Hrun).
  - intros Hk. exact (Hh e w1 w' r (Hm _ _ _ HP Hrun) Hk).
Qed.

Lemma preserves_try_finally {A} P (body : State world A) cleanup :
  preserves P body → preserves P cleanup →
  preserves P (try_finally body cleanup).
Proof.
  intros Hm Hc w w' r HP. unfold try_finally.
  destruct (body w) as [w1 r1] eqn:Hrun.
  destruct (cleanup w1) as [w2 [u|e]] eqn:Hclean;
    intros [= <- _]; exact (Hc _ _ _ (Hm _ _ _ HP Hrun) Hclean).
Qed.

Lemma fs_call_db db ev f : preserves (db_is db) (fs_call ev f).
Proof.
  intros w w' r HP. unfold fs_call.
  destruct (f (w_fs w)); intros [= <- _]; exact HP.
Qed.

Lemma uuid4_hex_db db : preserves (db_is db) uuid4_hex.
Proof. intros w w' r HP [= <- _]. exact HP. Qed.

Lemma log_db db ev : preserves (db_is db) (log ev).
Proof. intros w w' r HP [= <- _]. exact HP. Qed.

Lemma get_final_directory_db db content_type :
  preserves (db_is db) (get_final_directory content_type).
Proof.
  apply preserves_bind; [apply fs_call_db | intros; apply preserves_ret].
Qed.

Lemma parse_song_ini_db db ini_path : preserves (db_is db) (parse_song_ini ini_path).
Proof.
  apply preserves_bind; [apply preserves_gets | intros; apply preserves_lift_result].
Qed.

(** With the pool down, the store call of the loop comes back with the
    sentinel and the table as it was. *)
Lemma add_content_to_db_world_down db title artist album file_path metadata w :
  Db.pool_up db = false → w_db w = db →
  ∃ w', add_content_to_db title artist album file_path metadata w = (w', Ok (-1))
        ∧ w_db w' = db.
Proof.
  intros Hdown <-.
  unfold add_content_to_db, bind, lift_db.
  rewrite (add_content_to_db_down _ _ _ (w_db w) _ _ Hdown).
  cbn. eexists. split; reflexivity.
Qed.

Lemma process_descriptors_down db ini_paths :
  Db.pool_up db = false →
  ∀ stored_content w w' l,
    w_db w = db →
    process_descriptors ini_paths stored_content w = (w', Ok l) →
    l = stored_content ∧ w_db w' = db.
Proof.
  intros Hdown. induction ini_paths as [|ini_path rest IH]; intros acc w w' l Hdb.
  - intros [= <- <-]. auto.
  - cbn [process_descriptors]. unfold bind at 1.
    destruct (parse_song_ini ini_path w) as [w1 [p|e]] eqn:Hparse; [| discriminate].
    pose proof (parse_song_ini_db db ini_path _ _ _ Hdb Hparse) as Hdb1.
    destruct p as [|title artist album metadata]; [by apply IH |].
    unfold bind at 1.
    destruct (get_final_directory "songs" w1) as [w2 [songs_dir|e]] eqn:Hfinal;
      [| discriminate].
    pose proof (get_final_directory_db db _ _ _ _ Hdb1 Hfinal) as Hdb2.
    unfold bind at 1.
    destruct (mkdir _ w2) as [w3 [[]|e]] eqn:Hmk; [| discriminate].
    pose proof (fs_call_db db _ _ _ _ _ Hdb2 Hmk) as Hdb3.
    unfold bind at 1. cbn [uuid4_hex].
    set (w4 := {| w_fs := w_fs w3; w_db := w_db w3; w_unrar := w_unrar w3;
                  w_uuid := w_uuid w3; w_drawn := S (w_drawn w3);
                  w_trace := w_trace w3 |}).
    assert (Hdb4 : w_db w4 = db) by exact Hdb3.
    unfold bind at 1, try_except at 1, bind at 1.
    destruct (shutil_move _ _ w4) as [w5 [[]|e]] eqn:Hmove.
    + pose proof (fs_call_db db _ _ _ _ _ Hdb4 Hmove) as Hdb5.
      destruct (add_content_to_db_world_down db title artist album
                  (Path.to_string (Path.joinpath (Path.joinpath songs_dir artist)
                     (title +:+ "_" +:+ substring 0 8 (w_uuid w3 (w_drawn w3)))))
                  metadata w5 Hdown Hdb5) as (w6 & Hadd & Hdb6).
      unfold bind at 1. rewrite Hadd.
      destruct (decide (-1 ≠ -1)) as [Hne|_]; [by destruct Hne |].
      cbn [ret]. by apply IH.
    + pose proof (fs_call_db db _ _ _ _ _ Hdb4 Hmove) as Hdb5.
      cbn [ret]. by apply IH.
Qed.

(* ===================================================================== *)
(** * Storage failures *)
(* ===================================================================== *)

(** C9, as the code has it.  For every store call that fails at the
    storage layer, [add_content_to_db] logs the exception and returns
    the bare sentinel [-1], with the table unchanged; and the ingestion
    loop, whenever it returns a list, has left those songs out of it:
    the caller gets no error kind or message for them. *)
Theorem storage_failure_returns_sentinel :
  ∀ (db : Db.database) (title artist album file_path : string)
    (metadata : gmap string string),
    Db.pool_up db = false →
    Db.add_content_to_db title artist album file_path metadata db = (db, Ok (-1))
    ∧ (∀ w temp_extract_dir content_type w' l,
         w_db w = db →
         process_and_store_content temp_extract_dir content_type w = (w', Ok l) →
         l = [] ∧ w_db w' = db).
Proof.
  intros db t a al fp md Hdown. split.
  - by apply add_content_to_db_down.
  - intros w d ct w' l Hdb Hrun.
    unfold process_and_store_content, bind, gets in Hrun.
    exact (process_descriptors_down db _ Hdown [] w w' l Hdb Hrun).
Qed.

Lemma storage_failure_returns_sentinel_witness :
  Db.add_content_to_db "Test" "Band" "Demo" "/songs/Band/Test_3f9a1c0d" ∅ (empty_db false)
  = (empty_db false, Ok (-1)).
Proof.
  exact (proj1 (storage_failure_returns_sentinel (empty_db false) "Test" "Band" "Demo"
                  "/songs/Band/Test_3f9a1c0d" ∅ eq_refl)).
Defined.

(** C9 fails as stated: with the connection pool down, an upload with
    one valid song comes back as the empty list of stored songs, not as
    an error; the store call itself returned [-1]. *)
Lemma storage_failure_not_surfaced :
  let '(w', r) :=
    extract_content "/tmp/upload.zip" "songs"
      (upload_world (empty_db false)
         (Fs.ZipFile [("Song A/song.ini", Some (song_ini "Test" "Band" "Demo"))])) in
  r = Ok (RStored [])
  ∧ EvStore "Test" "Band" "Demo" (-1) ∈ w_trace w'
  ∧ Db.songs (w_db w') = [].
Proof.
  vm_compute. split; [reflexivity | split; [| reflexivity]].
  repeat first [apply list_elem_of_here | apply list_elem_of_further].
Qed.

(* ===================================================================== *)
(** * Overlapping store calls *)
(* ===================================================================== *)

Section OverlappingCalls.

Import Concurrent.

(** The two statements of one call, run back to back, are
    [add_content_to_db]. *)
Lemma step_twice_is_add_content_to_db unique_triple c db :
  let '(db1, st1) := step unique_triple c Start db in
  let '(db2, st2) := step unique_triple c st1 db1 in
  ∃ content_id,
    st2 = Done content_id
    ∧ Db.add_content_to_db (c_title c) (c_artist c) (c_album c)
        (c_file_path c) (c_metadata c) db = (db2, Ok content_id).
Proof.
  unfold step, has_match, Db.add_content_to_db, try_except, bind, Db.get_connection,
    Db.select_id, gets.
  destruct (Db.pool_up db) eqn:Hup.
  - destruct (head (filter _ (Db.songs db))) as [r|] eqn:Hhead;
      cbn [fmap option_fmap option_map].
    + eauto.
    + rewrite Hhead.
      rewrite bool_decide_eq_false_2 by (intros [? ?]; discriminate).
      rewrite andb_false_r. cbn. eauto.
  - eauto.
Qed.

Lemma run_app unique_triple s1 s2 calls db :
  run unique_triple (s1 ++ s2) calls db
  = let '(db1, calls1) := run unique_triple s1 calls db in
    run unique_triple s2 calls1 db1.
Proof.
  revert calls db. induction s1 as [|i s1 IH]; intros calls db; [reflexivity |].
  cbn [app run]. destruct (calls !! i) as [[c st]|]; [| apply IH].
  destruct (step unique_triple c st db). apply IH.
Qed.

Lemma one_by_one_S n : one_by_one (S n) = one_by_one n ++ [n; n].
Proof.
  unfold one_by_one. rewrite seq_S, flat_map_app. cbn. reflexivity.
Qed.

Lemma insert_middle {A} (l1 l2 : list A) (x y : A) :
  <[length l1 := y]> (l1 ++ x :: l2) = l1 ++ y :: l2.
Proof. rewrite <- (Nat.add_0_r (length l1)). by rewrite insert_app_r. Qed.

(** A call that starts when a row of its triple is there returns the
    identifier of the first such row, whatever the schedule did before. *)
Lemma late_call_returns_existing unique_triple c db r done_ todo :
  Db.pool_up db = true →
  head (filter (fun r => Db.matches (c_title c) (c_artist c) (c_album c) r = true)
          (Db.songs db)) = Some r →
  run unique_triple [length done_; length done_] (done_ ++ (c, Start) :: todo) db
  = (db, done_ ++ (c, Done (Db.id r)) :: todo).
Proof.
  intros Hup Hhead. cbn [run].
  rewrite list_lookup_middle by reflexivity.
  unfold step at 1, bind, Db.get_connection, Db.select_id, gets.
  rewrite Hup, Hhead. cbn [fmap option_fmap option_map].
  rewrite insert_middle.
  rewrite list_lookup_middle by reflexivity. cbn [step].
  rewrite insert_middle. reflexivity.
Qed.

Lemma one_by_one_after_first unique_triple c cs db :
  Db.pool_up db = true →
  head (filter (fun r => Db.matches (c_title c) (c_artist c) (c_album c) r = true)
          (Db.songs db)) = None →
  Forall (same_triple c) cs →
  ∀ k, (k ≤ length cs)%nat →
    run unique_triple (one_by_one (S k)) (init (c :: cs)) db
    = ((Db.insert_returning_id (c_title c) (c_artist c) (c_album c)
          (c_file_path c) (c_metadata c) db).1,
       finished (Db.songs_id_seq db) (c :: take k cs) ++ init (drop k cs)).
Proof.
  intros Hup Hnone Hsame. induction k as [|k IH]; intros Hk.
  - rewrite take_0, drop_0. cbn [one_by_one seq flat_map app run init fmap list_fmap
      lookup list_lookup].
    unfold step at 1, bind, Db.get_connection, Db.select_id, gets.
    rewrite Hup, Hnone. cbn [fmap option_fmap option_map insert list_insert lookup
      list_lookup step].
    unfold has_match. rewrite Hnone.
    rewrite bool_decide_eq_false_2 by (intros [? ?]; discriminate).
    rewrite andb_false_r. reflexivity.
  - rewrite one_by_one_S, run_app, IH by lia.
    destruct (lookup_lt_is_Some_2 cs k ltac:(lia)) as [c' Hc'].
    rewrite (drop_S _ _ _ Hc'), (take_S_r _ _ _ Hc').
    assert (Hlen : S k = length (finished (Db.songs_id_seq db) (c :: take k cs))).
    { unfold finished. rewrite length_fmap. cbn. rewrite length_take. lia. }
    cbn [init fmap list_fmap]. rewrite Hlen at 1 2.
    destruct (proj1 (Forall_lookup _ _) Hsame k c' Hc') as (Ht & Ha & Hal).
    rewrite (late_call_returns_existing unique_triple c' _
               {| Db.id := Db.songs_id_seq db; Db.title := c_title c;
                  Db.artist := c_artist c; Db.album := c_album c;
                  Db.file_path := c_file_path c; Db.metadata := c_metadata c |}).
    + f_equal. unfold finished. rewrite !fmap_cons, fmap_app. cbn.
      rewrite <- app_assoc. reflexivity.
    + exact Hup.
    + rewrite Ht, Ha, Hal. by apply first_match_after_insert.
Qed.

End OverlappingCalls.

(** C6, as the code has it.  While the storage layer answers and the
    table holds no record with the triple, N store calls with one
    (title, artist, album) triple that run one after the other, each
    call's SELECT and INSERT before the next call's SELECT, insert
    exactly one record and all return its identifier.  The code takes
    no lock and handles no conflict, so nothing is promised for calls
    whose statements interleave. *)
Theorem store_calls_one_by_one :
  ∀ (unique_triple : bool) (db : Db.database) (c : Concurrent.call)
    (cs : list Concurrent.call),
    Db.pool_up db = true →
    (∀ r, r ∈ Db.songs db →
          Db.matches (Concurrent.c_title c) (Concurrent.c_artist c)
                     (Concurrent.c_album c) r = false) →
    Forall (same_triple c) cs →
    let '(db', calls') :=
      Concurrent.run unique_triple (Concurrent.one_by_one (S (length cs)))
        (init (c :: cs)) db in
    length (Db.songs db') = S (length (Db.songs db))
    ∧ Concurrent.returned calls'
      = replicate (S (length cs)) (Some (Db.songs_id_seq db)).
Proof.
  intros u db c cs Hup Hfresh Hsame.
  assert (Hnone : head (filter (fun r => Db.matches (Concurrent.c_title c)
            (Concurrent.c_artist c) (Concurrent.c_album c) r = true) (Db.songs db)) = None).
  { destruct (head _) as [r|] eqn:Hhead; [| reflexivity].
    apply head_Some_elem_of, list_elem_of_filter in Hhead as [Hm Hin].
    rewrite (Hfresh r Hin) in Hm. discriminate. }
  rewrite (one_by_one_after_first u c cs db Hup Hnone Hsame (length cs)) by lia.
  rewrite firstn_all, drop_all. cbn [init fmap list_fmap]. rewrite app_nil_r.
  split.
  - cbn. rewrite length_app. cbn. lia.
  - unfold Concurrent.returned, finished. rewrite <- list_fmap_compose.
    change (S (length cs)) with (length (c :: cs)).
    generalize (c :: cs). intros l. induction l as [|x l IH]; [reflexivity |].
    cbn. f_equal. exact IH.
Qed.

Lemma store_calls_one_by_one_witness :
  let '(db', calls') :=
    Concurrent.run true (Concurrent.one_by_one 3)
      (init [call_test "/a"; call_test "/b"; call_test "/c"]) (empty_db true) in
  length (Db.songs db') = 1%nat
  ∧ Concurrent.returned calls' = [Some 1; Some 1; Some 1].
Proof.
  apply (store_calls_one_by_one true (empty_db true) (call_test "/a")
           [call_test "/b"; call_test "/c"]).
  - reflexivity.
  - intros r Hr. cbn in Hr. by apply elem_of_nil in Hr.
  - repeat constructor.
Defined.

(** C6 fails as stated: let two calls with one triple both run their
    SELECT before either runs its INSERT.  Without a uniqueness
    constraint two records are inserted and the calls return different
    identifiers; with one, the second INSERT is refused and that call
    returns [-1]. *)
Lemma store_calls_interleaved_diverge :
  (let '(db', calls') :=
     Concurrent.run false [0; 1; 0; 1]%nat
       (init [call_test "/a"; call_test "/b"]) (empty_db true) in
   length (Db.songs db') = 2%nat ∧ Concurrent.returned calls' = [Some 1; Some 2])
  ∧ (let '(db', calls') :=
       Concurrent.run true [0; 1; 0; 1]%nat
         (init [call_test "/a"; call_test "/b"]) (empty_db true) in
     length (Db.songs db') = 1%nat ∧ Concurrent.returned calls' = [Some 1; Some (-1)]).
Proof. vm_compute. repeat split. Qed.

(* ===================================================================== *)
(** * The chart writer *)
(* ===================================================================== *)

Section ChartWriter.

Import Chart.

Lemma append_assoc (s1 s2 s3 : string) : (s1 +:+ s2) +:+ s3 = s1 +:+ (s2 +:+ s3).
Proof.
  induction s1 as [|c s1 IH]; [reflexivity |].
  change (String c ((s1 +:+ s2) +:+ s3) = String c (s1 +:+ (s2 +:+ s3))).
  by rewrite IH.
Qed.

Lemma append_empty_r (s : string) : s +:+ "" = s.
Proof.
  induction s as [|c s IH]; [reflexivity |].
  change (String c (s +:+ "") = String c s). by rewrite IH.
Qed.

Lemma sync_events_length beat_times events :
  sync_events beat_times = Ok events → length events = length beat_times.
Proof.
  revert events. induction beat_times as [|time rest IH]; intros events.
  - intros [= <-]. reflexivity.
  - cbn [sync_events]. unfold mbind, result_bind.
    destruct (int (mul time (of_int 1000))) as [ms|e]; [| discriminate].
    destruct (sync_events rest) as [evs|e]; [| discriminate].
    intros [= <-]. cbn. f_equal. by apply IH.
Qed.

Lemma sync_events_lookup beat_times events :
  sync_events beat_times = Ok events →
  ∀ i time, beat_times !! i = Some time →
    ∃ ms, events !! i = Some ms ∧ int (mul time (of_int 1000)) = Ok ms.
Proof.
  revert events. induction beat_times as [|t rest IH]; intros events Hev i time Hi.
  - destruct i; discriminate.
  - cbn [sync_events] in Hev. unfold mbind, result_bind in Hev.
    destruct (int (mul t (of_int 1000))) as [ms|e] eqn:Hms; [| discriminate].
    destruct (sync_events rest) as [evs|e]; [| discriminate].
    injection Hev as <-.
    destruct i as [|i].
    + injection Hi as <-. exists ms. auto.
    + cbn in Hi |- *. by apply IH.
Qed.

Lemma write_beats_text beat_times events written :
  sync_events beat_times = Ok events →
  write_beats beat_times written = (written +:+ sync_lines events, Ok tt).
Proof.
  revert events written.
  induction beat_times as [|time rest IH]; intros events written.
  - intros [= <-]. cbn. by rewrite append_empty_r.
  - cbn [sync_events write_beats]. unfold mbind, result_bind, bind at 1, lift_result.
    destruct (int (mul time (of_int 1000))) as [ms|e]; [| discriminate].
    destruct (sync_events rest) as [evs|e] eqn:Hrest; [| discriminate].
    intros [= <-]. unfold bind, f_write, modify.
    rewrite (IH evs _ eq_refl). cbn [sync_lines foldr].
    by rewrite append_assoc.
Qed.

(** Truncation: for a positive finite number [m * 2^e] with [e < 0], the
    integer written is the floor, not the nearest integer. *)
Lemma int_truncates (m : positive) (e ms : Z) :
  e < 0 →
  int (S754_finite false m e) = Ok ms →
  ms * 2 ^ (- e) ≤ Z.pos m < (ms + 1) * 2 ^ (- e).
Proof.
  intros He. unfold int.
  destruct (0 <=? e) eqn:Hle; [apply Z.leb_le in Hle; lia |].
  intros [= <-].
  assert (Hpow : 0 < 2 ^ (- e)) by (apply Z.pow_pos_nonneg; lia).
  pose proof (Z.mul_div_le (Z.pos m) _ Hpow).
  pose proof (Z.mul_succ_div_gt (Z.pos m) _ Hpow).
  lia.
Qed.

End ChartWriter.

(** C2, as the code has it.  For every sequence of beat times whose
    products with 1000 are finite, the sync track has exactly one event
    per beat, in the order of the beats, at [int(time * 1000)]: the
    binary64 product truncated toward zero.  Nothing is rounded to the
    nearest millisecond and nothing is collapsed, so equal timestamps
    are written again; the beats 0.000, 0.500, 0.5005 give the three
    events 0, 500, 500. *)
Theorem sync_track_one_event_per_beat :
  ∀ (song_name : string) (beat_times : list Chart.float64) (events : list Z),
    Chart.sync_events beat_times = Ok events →
    length events = length beat_times
    ∧ (∀ i time, beat_times !! i = Some time →
         ∃ ms, events !! i = Some ms
               ∧ Chart.int (Chart.mul time (Chart.of_int 1000)) = Ok ms)
    ∧ Chart.generate_notes_chart song_name beat_times ""
      = (Chart.header song_name
           +:+ Chart.nl +:+ "[SyncTrack]" +:+ Chart.nl +:+ "{" +:+ Chart.nl
           +:+ sync_lines events +:+ "}" +:+ Chart.nl, Ok tt)
    ∧ Chart.sync_events beats_example = Ok [0; 500; 500].
Proof.
  intros song_name beat_times events Hev. split; [| split; [| split]].
  - by apply sync_events_length.
  - by apply sync_events_lookup.
  - unfold Chart.generate_notes_chart, try_except, bind at 1, Chart.f_write at 1, modify.
    unfold bind at 1, Chart.f_write at 1, modify.
    unfold bind at 1. rewrite (write_beats_text _ _ _ Hev).
    unfold Chart.f_write, modify. cbn [append].
    rewrite !append_assoc. reflexivity.
  - vm_compute. reflexivity.
Qed.

Lemma sync_track_one_event_per_beat_witness :
  Chart.generate_notes_chart "Demo" beats_example ""
  = (Chart.header "Demo"
       +:+ Chart.nl +:+ "[SyncTrack]" +:+ Chart.nl +:+ "{" +:+ Chart.nl
       +:+ sync_lines [0; 500; 500] +:+ "}" +:+ Chart.nl, Ok tt).
Proof.
  refine (proj1 (proj2 (proj2 (sync_track_one_event_per_beat "Demo" beats_example
                                 [0; 500; 500] _)))).
  vm_compute. reflexivity.
Defined.

(** C2 fails as stated, on the specification's own example: the beats
    0.000, 0.500, 0.5005 yield three events, the last two with the same
    timestamp, and not the two events 0 and 500.  And a beat at 0.0006
    seconds is written at 0, not at the nearest millisecond 1. *)
Lemma sync_track_keeps_duplicates :
  Chart.sync_events beats_example = Ok [0; 500; 500]
  ∧ Chart.sync_events beats_example ≠ Ok [0; 500]
  ∧ Chart.sync_events [Chart.decimal 6 10000] = Ok [0]
  ∧ (Chart.generate_notes_chart "Demo" beats_example "").1
    = Chart.header "Demo"
      +:+ Chart.nl +:+ "[SyncTrack]" +:+ Chart.nl +:+ "{" +:+ Chart.nl
      +:+ "  0 = TS 0" +:+ Chart.nl
      +:+ "  500 = TS 500" +:+ Chart.nl
      +:+ "  500 = TS 500" +:+ Chart.nl
      +:+ "}" +:+ Chart.nl.
Proof.
  split; [vm_compute; reflexivity |].
  split; [vm_compute; discriminate |].
  split; vm_compute; reflexivity.
Qed.

(* ===================================================================== *)
(** * The descriptor parser *)
(* ===================================================================== *)

Section DescriptorParser.

Import configparser.

(** An option that [has_option] does not see is absent for [get]. *)
Lemma get_without_option config field :
  has_option config "song" field = false → get config "song" field = Ok None.
Proof.
  unfold has_option, get, unify_values.
  destruct (decide ("song" = "" ∨ "song" = default_section)) as [[?|?]|_];
    [discriminate.. |].
  destruct (_sections config !! "song") as [sect|]; [| reflexivity].
  intros Hno. apply orb_false_iff in Hno as [Hsect Hdef].
  apply bool_decide_eq_false_1 in Hsect, Hdef.
  rewrite <- eq_None_not_Some in Hsect, Hdef.
  assert (Hnone : (sect ∪ _defaults config) !! optionxform field = None).
  { apply lookup_union_None. auto. }
  by rewrite Hnone.
Qed.

(** The dict comprehension holds, for each listed field, what [get]
    returned for it, and nothing else. *)
Lemma collect_metadata_spec config fields metadata :
  collect_metadata config fields = Ok metadata →
  (∀ field, field ∈ fields →
     ∃ v, get config "song" field = Ok v ∧ metadata !! field = v)
  ∧ (∀ key, key ∉ fields → metadata !! key = None).
Proof.
  revert metadata. induction fields as [|f rest IH]; intros metadata.
  - intros [= <-]. split; [intros ? Hin; by apply elem_of_nil in Hin | reflexivity].
  - cbn [collect_metadata].
    assert (Hrest : ∀ md v, collect_metadata config rest = Ok md →
              get config "song" f = Ok v →
              (∀ field, field ∈ f :: rest →
                 ∃ v', get config "song" field = Ok v'
                       ∧ match v with Some x => <[f := x]> md | None => md end !! field = v')
              ∧ (∀ key, key ∉ f :: rest →
                   match v with Some x => <[f := x]> md | None => md end !! key = None)).
    { intros md v Hmd Hget. destruct (IH md Hmd) as [Hin Hout]. split.
      - intros field Hfield. destruct (decide (field = f)) as [->|Hne].
        + exists v. split; [exact Hget |]. destruct v as [x|].
          * apply lookup_insert_eq.
          * destruct (decide (f ∈ rest)) as [Hf|Hf].
            -- destruct (Hin f Hf) as (v' & Hget' & Hv'). congruence.
            -- by apply Hout.
        + apply elem_of_cons in Hfield as [?|Hfield]; [done |].
          destruct (Hin field Hfield) as (v' & Hget' & Hv'). exists v'.
          split; [exact Hget' |]. destruct v; [by rewrite lookup_insert_ne | done].
      - intros key Hkey. apply not_elem_of_cons in Hkey as [Hne Hkey].
        destruct v; [rewrite lookup_insert_ne by done |]; by apply Hout. }
    destruct (has_option config "song" f) eqn:Hopt.
    + unfold mbind, result_bind.
      destruct (get config "song" f) as [v|e] eqn:Hget; [| discriminate].
      destruct (collect_metadata config rest) as [md|e] eqn:Hmd; [| discriminate].
      intros [= <-]. by apply Hrest.
    + intros Hmd. exact (Hrest metadata None Hmd (get_without_option _ _ Hopt)).
Qed.

(** A parse that succeeds went through [read_file] and the comprehension. *)
Lemma parse_song_ini_text_song f title_ artist_ album_ metadata :
  parse_song_ini_text f = Ok (Song title_ artist_ album_ metadata) →
  ∃ config collected,
    f ≫= read_file = Some config
    ∧ collect_metadata config OPTIONAL_FIELDS = Ok collected
    ∧ metadata = Str.strip <$> collected.
Proof.
  unfold parse_song_ini_text.
  destruct (f ≫= read_file) as [config|] eqn:Hread; [| discriminate].
  destruct (negb (has_section config "song")); [discriminate |].
  unfold mbind at 1 2 3, result_bind.
  destruct (get config "song" "name") as [[name|]|]; try discriminate;
    destruct (get config "song" "artist") as [[artist|]|]; try discriminate;
    destruct (get config "song" "album") as [[album|]|]; try discriminate.
  destruct (_ || _); [discriminate |].
  unfold mbind, result_bind.
  destruct (collect_metadata config OPTIONAL_FIELDS) as [collected|] eqn:Hcollect;
    [| discriminate].
  intros [= _ _ _ <-]. eauto.
Qed.

End DescriptorParser.

Example parse_test_band_demo :
  parse_song_ini_text
    (Some [("song", [("name", "Test"); ("artist", "Band"); ("album", "Demo");
                     ("genre", "Rock")])])
  = Ok (Song "Test" "Band" "Demo" {["genre" := "Rock"]}).
Proof. vm_compute. reflexivity. Qed.

(** C4, as the code has it.  For every successfully parsed descriptor,
    the metadata map has, for each field of [OPTIONAL_FIELDS] that the
    [song] section offers, the value the reader returns for it,
    trimmed; it has no other key: a key outside [OPTIONAL_FIELDS] is
    dropped.  A descriptor with name=Test, artist=Band, album=Demo and
    genre=Rock yields exactly the map with genre "Rock". *)
Theorem metadata_holds_listed_fields_only :
  ∀ (f : option configparser.ini_text) (title artist album : string)
    (metadata : gmap string string),
    parse_song_ini_text f = Ok (Song title artist album metadata) →
    (∃ config,
       f ≫= configparser.read_file = Some config
       ∧ (∀ field, field ∈ OPTIONAL_FIELDS →
            ∃ v, configparser.get config "song" field = Ok v
                 ∧ metadata !! field = Str.strip <$> v)
       ∧ (∀ key, key ∉ OPTIONAL_FIELDS → metadata !! key = None))
    ∧ parse_song_ini_text
        (Some [("song", [("name", "Test"); ("artist", "Band"); ("album", "Demo");
                         ("genre", "Rock")])])
      = Ok (Song "Test" "Band" "Demo" {["genre" := "Rock"]}).
Proof.
  intros f title artist album metadata Hparse. split.
  - destruct (parse_song_ini_text_song _ _ _ _ _ Hparse)
      as (config & collected & Hread & Hcollect & ->).
    destruct (collect_metadata_spec _ _ _ Hcollect) as [Hin Hout].
    exists config. split; [exact Hread | split].
    + intros field Hfield. destruct (Hin field Hfield) as (v & Hget & Hv).
      exists v. split; [exact Hget |]. by rewrite lookup_fmap, Hv.
    + intros key Hkey. by rewrite lookup_fmap, (Hout key Hkey).
  - vm_compute. reflexivity.
Qed.

Lemma metadata_holds_listed_fields_only_witness :
  ∃ config,
    descriptor_with_extra_key ≫= configparser.read_file = Some config
    ∧ (∀ field, field ∈ OPTIONAL_FIELDS →
         ∃ v, configparser.get config "song" field = Ok v
              ∧ ({["genre" := "Rock"]} : gmap string string) !! field = Str.strip <$> v)
    ∧ (∀ key, key ∉ OPTIONAL_FIELDS →
         ({["genre" := "Rock"]} : gmap string string) !! key = None).
Proof.
  refine (proj1 (metadata_holds_listed_fields_only descriptor_with_extra_key
                   "Test" "Band" "Demo" {["genre" := "Rock"]} _)).
  vm_compute. reflexivity.
Defined.

(** C4 fails as stated: a key of the [song] section that is not in
    [OPTIONAL_FIELDS] does not reach the metadata map. *)
Lemma unrecognized_key_dropped :
  ∃ metadata,
    parse_song_ini_text descriptor_with_extra_key
    = Ok (Song "Test" "Band" "Demo" metadata)
    ∧ metadata !! "custom_tag" = None
    ∧ metadata = {["genre" := "Rock"]}.
Proof.
  eexists. split; [vm_compute; reflexivity |].
  split; vm_compute; reflexivity.
Qed.

(** ** Descriptors without percent signs *)

Section PlainValues.

Import configparser.

(** A value without a percent sign is returned as it is stored. *)
Lemma scan_plain nested option_ map rest :
  Str.contains "%" rest = false →
  ∀ n, (String.length rest ≤ n)%nat → scan nested option_ map n rest = Ok rest.
Proof.
  induction rest as [|c rest IH]; intros Hplain n Hn.
  - destruct n; reflexivity.
  - destruct n as [|n]; [cbn in Hn; lia |].
    cbn [Str.contains] in Hplain. cbn [scan].
    rewrite Ascii.eqb_sym.
    destruct (Ascii.eqb "%" c); [discriminate |].
    rewrite (IH Hplain n) by (cbn in Hn; lia). reflexivity.
Qed.

Lemma before_get_plain option_ map value :
  Str.contains "%" value = false → before_get option_ map value = Ok value.
Proof.
  intros Hplain. unfold before_get, MAX_INTERPOLATION_DEPTH.
  cbn [interpolate_some]. by apply scan_plain.
Qed.

Variables (config : ConfigParser) (sect : gmap string string).
Hypothesis Hsect : _sections config !! "song" = Some sect.
Hypothesis Hplain :
  ∀ k v, (sect ∪ _defaults config) !! k = Some v → Str.contains "%" v = false.

Lemma get_plain field :
  get config "song" field = Ok ((sect ∪ _defaults config) !! optionxform field).
Proof using Hsect Hplain.
  unfold get, unify_values. rewrite Hsect.
  destruct ((sect ∪ _defaults config) !! optionxform field) as [v|] eqn:Hv;
    [| reflexivity].
  rewrite (before_get_plain _ _ _ (Hplain _ _ Hv)). reflexivity.
Qed.

Lemma collect_metadata_plain fields :
  ∃ metadata, collect_metadata config fields = Ok metadata.
Proof using Hsect Hplain.
  induction fields as [|f rest [md IH]]; [by eexists |].
  cbn [collect_metadata]. rewrite get_plain, IH.
  destruct (has_option config "song" f); cbn; eauto.
Qed.

(** Without percent signs the parser never raises, and it skips exactly
    when one of the three required values is absent or empty. *)
Lemma parse_song_ini_plain f :
  f ≫= read_file = Some config →
  (parse_song_ini_text f = Ok Skip
   ∨ ∃ title artist album metadata,
       parse_song_ini_text f = Ok (Song title artist album metadata))
  ∧ (parse_song_ini_text f = Ok Skip ↔
     ∃ key, key ∈ ["name"; "artist"; "album"]
            ∧ ((sect ∪ _defaults config) !! key = None
               ∨ (sect ∪ _defaults config) !! key = Some "")).
Proof using Hsect Hplain.
  intros Hread. unfold parse_song_ini_text. rewrite Hread.
  unfold has_section. rewrite Hsect.
  rewrite bool_decide_eq_true_2 by eauto. cbn [negb].
  set (d := sect ∪ _defaults config).
  assert (Hn : get config "song" "name" = Ok (d !! "name")) by apply get_plain.
  assert (Har : get config "song" "artist" = Ok (d !! "artist")) by apply get_plain.
  assert (Hal : get config "song" "album" = Ok (d !! "album")) by apply get_plain.
  rewrite Hn, Har, Hal.
  destruct (collect_metadata_plain OPTIONAL_FIELDS) as [md Hmd]. rewrite Hmd.
  unfold mbind, result_bind.
  assert (Hkeys : ∀ key, key ∈ ["name"; "artist"; "album"] →
                         key = "name" ∨ key = "artist" ∨ key = "album").
  { intros key Hkey. repeat (apply elem_of_cons in Hkey as [->|Hkey]; [tauto |]).
    by apply elem_of_nil in Hkey. }
  assert (Hin1 : "name" ∈ ["name"; "artist"; "album"]) by apply list_elem_of_here.
  assert (Hin2 : "artist" ∈ ["name"; "artist"; "album"])
    by apply list_elem_of_further, list_elem_of_here.
  assert (Hin3 : "album" ∈ ["name"; "artist"; "album"])
    by apply list_elem_of_further, list_elem_of_further, list_elem_of_here.
  destruct (d !! "name") as [[|c1 name]|] eqn:Hname;
    destruct (d !! "artist") as [[|c2 artist]|] eqn:Hartist;
    destruct (d !! "album") as [[|c3 album]|] eqn:Halbum;
    cbn [Str.truthy negb orb].
  all: split; [eauto 10 |].
  all: split; [intros Hskip | intros (key & Hkey & Hblank)].
  all: try reflexivity.
  all: try (exists "name"; split; [exact Hin1 | tauto]).
  all: try (exists "artist"; split; [exact Hin2 | tauto]).
  all: try (exists "album"; split; [exact Hin3 | tauto]).
  - discriminate Hskip.
  - exfalso. destruct (Hkeys key Hkey) as [-> | [-> | ->]]; destruct Hblank; congruence.
Qed.

End PlainValues.

(** What [read_file] stores for an option is the stripped text of one of
    its lines, so a value written as blanks only is stored empty. *)
Lemma read_options_stripped added cursect lines added' cursect' :
  configparser.read_options added cursect lines = Some (added', cursect') →
  ∀ k v, cursect' !! k = Some v →
    cursect !! k = Some v
    ∨ ∃ optname optval, (optname, optval) ∈ lines
        ∧ k = configparser.optionxform (Str.rstrip optname) ∧ v = Str.strip optval.
Proof.
  revert added cursect. induction lines as [|[optname optval] rest IH];
    intros added cursect; cbn [configparser.read_options].
  - intros [= <- <-]. auto.
  - destruct (decide (_ ∈ added)); [discriminate |].
    intros Hrest k v Hk. destruct (IH _ _ Hrest k v Hk) as [Hold|Hnew].
    + apply lookup_insert_Some in Hold as [[<- <-]|[_ Hold]]; [| by left].
      right. exists optname, optval. split; [apply list_elem_of_here | auto].
    + right. destruct Hnew as (o & x & Hin & Heq). exists o, x.
      split; [by apply list_elem_of_further | exact Heq].
Qed.

Lemma strip_blanks s : Str.lstrip s = "" → Str.strip s = "".
Proof. unfold Str.strip. by intros ->. Qed.

(** C3: the code at the inputs where it leaves the claim.  A descriptor
    whose name is blank and whose artist holds a lone percent sign is
    not skipped: [config.get] raises out of [parse_song_ini].  A
    descriptor whose name the reader expands to a single blank is not
    skipped either: it is accepted, with the empty title.  A name
    written as blanks only is skipped. *)
Theorem parse_song_ini_blank_name_cases :
  parse_song_ini_text
    (Some [("song", [("name", ""); ("artist", "50%"); ("album", "Demo")])])
  = Raise (InterpolationSyntaxError "artist")
  ∧ parse_song_ini_text
      (Some [("song", [("name", "%(pad)s %(pad)s"); ("pad", "");
                       ("artist", "Band"); ("album", "Demo")])])
    = Ok (Song "" "Band" "Demo" ∅)
  ∧ parse_song_ini_text
      (Some [("song", [("name", "   "); ("artist", "Band"); ("album", "Demo")])])
    = Ok Skip.
Proof. repeat split; vm_compute; reflexivity. Qed.

(* ===================================================================== *)
(** * File-system calls: what they touch *)
(* ===================================================================== *)

Section FileSystem.

Import Fs.

Lemma make_dirs_lookup (fs : Fs.t) dirs q :
  make_dirs fs dirs !! q = if decide (q ∈ dirs) then Some Dir else fs !! q.
Proof.
  induction dirs as [|a dirs IH]; cbn [make_dirs foldr].
  - destruct (decide (q ∈ [])) as [Hin|_]; [by apply elem_of_nil in Hin | reflexivity].
  - fold (make_dirs fs dirs). rewrite lookup_insert.
    destruct (decide (a = q)) as [->|Hne].
    + rewrite decide_True by apply list_elem_of_here. reflexivity.
    + rewrite IH. destruct (decide (q ∈ dirs)) as [Hin|Hout].
      * rewrite decide_True by by apply list_elem_of_further. reflexivity.
      * rewrite decide_False; [reflexivity |].
        intros [?|?]%elem_of_cons; congruence.
Qed.

Lemma ancestors_spec p a :
  a ∈ ancestors p → a `prefix_of` p ∧ a ≠ p ∧ a ≠ [].
Proof.
  unfold ancestors. intros (n & -> & Hn)%list_elem_of_fmap.
  apply elem_of_seq in Hn. split; [apply prefix_take | split].
  - intros Heq. apply (f_equal length) in Heq. rewrite length_take in Heq. lia.
  - intros Heq. apply (f_equal length) in Heq. rewrite length_take in Heq.
    cbn in Heq. lia.
Qed.

Lemma prefixes_spec p a :
  a ∈ prefixes p → a `prefix_of` p ∧ a ≠ [] ∧ (a = p ∨ a ∈ ancestors p).
Proof.
  unfold prefixes, ancestors. intros (n & -> & Hn)%list_elem_of_fmap.
  apply elem_of_seq in Hn. split; [apply prefix_take | split].
  - intros Heq. apply (f_equal length) in Heq. rewrite length_take in Heq.
    cbn in Heq. lia.
  - destruct (decide (n = length p)) as [->|Hne].
    + left. apply firstn_all.
    + right. apply list_elem_of_fmap. exists n. split; [reflexivity |].
      apply elem_of_seq. lia.
Qed.

Lemma blocked_None (fs : Fs.t) p :
  blocked fs p = None → ∀ a, a ∈ ancestors p → is_file fs a = false.
Proof.
  unfold blocked. intros Hhead a Ha.
  destruct (is_file fs a) eqn:Hfile; [| reflexivity].
  assert (Hin : a ∈ filter (fun a => is_file fs a = true) (ancestors p))
    by (apply list_elem_of_filter; auto).
  destruct (filter _ (ancestors p)); [by apply elem_of_nil in Hin | discriminate].
Qed.

Lemma is_file_false_lookup (fs : Fs.t) q n :
  q ≠ [] → is_file fs q = false → fs !! q = Some n → n = Dir.
Proof.
  unfold is_file, lookup. destruct q; [done |]. intros _ Hfile Hq.
  rewrite Hq in Hfile. destruct n; [reflexivity | discriminate].
Qed.

Lemma outside_kept_refl d fs : outside_kept d fs fs.
Proof. split; auto. Qed.

Lemma outside_kept_trans d fs1 fs2 fs3 :
  outside_kept d fs1 fs2 → outside_kept d fs2 fs3 → outside_kept d fs1 fs3.
Proof. intros [Ha1 Hb1] [Ha2 Hb2]. split; eauto. Qed.

(** Making directories never touches an existing node and never makes a
    regular file. *)
Lemma mkdir_parents_kept d p fs fs' :
  mkdir_parents p fs = Ok fs' → outside_kept d fs fs'.
Proof.
  unfold mkdir_parents.
  destruct (blocked fs (resolve p)) eqn:Hblocked; [discriminate |].
  destruct (is_file fs (resolve p)) eqn:Hfile; [discriminate |].
  intros [= <-]. split.
  - intros q n Hq _. rewrite make_dirs_lookup.
    destruct (decide (q ∈ prefixes (resolve p))) as [Hin|_]; [| exact Hq].
    destruct (prefixes_spec _ _ Hin) as (_ & Hne & [->|Hanc]).
    + by rewrite (is_file_false_lookup fs _ n Hne Hfile Hq).
    + by rewrite (is_file_false_lookup fs _ n Hne (blocked_None _ _ Hblocked _ Hanc) Hq).
  - intros q x. rewrite make_dirs_lookup.
    destruct (decide (q ∈ prefixes (resolve p))); [discriminate | auto].
Qed.

(** Writing a file below [d] changes nothing outside [d]. *)
Lemma write_file_kept d p x fs fs' :
  write_file p x fs = Ok fs' → d `prefix_of` resolve p → outside_kept d fs fs'.
Proof.
  unfold write_file.
  destruct (blocked fs (resolve p)) eqn:Hblocked; [discriminate |].
  destruct (is_dir fs (resolve p)); [discriminate |].
  intros [= <-] Hunder. split.
  - intros q n Hq Hout.
    rewrite lookup_insert_ne by (intros <-; exact (Hout Hunder)).
    rewrite make_dirs_lookup.
    destruct (decide (q ∈ ancestors (resolve p))) as [Hin|_]; [| exact Hq].
    destruct (ancestors_spec _ _ Hin) as (_ & _ & Hne).
    by rewrite (is_file_false_lookup fs _ n Hne (blocked_None _ _ Hblocked _ Hin) Hq).
  - intros q y Hq Hout.
    rewrite lookup_insert_ne in Hq by (intros <-; exact (Hout Hunder)).
    rewrite make_dirs_lookup in Hq.
    destruct (decide (q ∈ ancestors (resolve p))); [discriminate | exact Hq].
Qed.

(** [..]-free components are appended as they are. *)
Lemma resolve_go_plain seen q :
  Forall (fun c => c ≠ "..") q → resolve_go seen q = rev seen ++ q.
Proof.
  revert seen. induction q as [|c q IH]; intros seen Hq; cbn [resolve_go].
  - by rewrite app_nil_r.
  - apply Forall_cons in Hq as [Hc Hq].
    rewrite decide_False by exact Hc. rewrite IH by exact Hq.
    cbn [rev]. by rewrite <- app_assoc.
Qed.

Lemma resolve_go_app seen p q :
  resolve_go seen (p ++ q) = resolve_go (rev (resolve_go seen p)) q.
Proof.
  revert seen. induction p as [|c p IH]; intros seen; cbn [app resolve_go].
  - by rewrite rev_involutive.
  - destruct (decide (c = "..")); apply IH.
Qed.

Lemma resolve_app_plain p q :
  Forall (fun c => c ≠ "..") q → resolve (p ++ q) = resolve p ++ q.
Proof.
  intros Hq. unfold resolve.
  rewrite resolve_go_app, resolve_go_plain by exact Hq.
  by rewrite rev_involutive.
Qed.

End FileSystem.

(** The member path that [zipfile] computes has no [..] step. *)
Lemma arcname_plain filename : Forall (fun c => c ≠ "..") (zipfile.arcname filename).
Proof.
  unfold zipfile.arcname. apply list.Forall_forall. intros c Hc.
  apply list_elem_of_filter in Hc as [(_ & _ & Hc) _]. exact Hc.
Qed.

Section FsSteps.

Context (R : gmap (list string) Fs.node → gmap (list string) Fs.node → Prop).
Hypothesis R_refl : ∀ fs, R fs fs.
Hypothesis R_trans : ∀ fs1 fs2 fs3, R fs1 fs2 → R fs2 fs3 → R fs1 fs3.

Lemma fs_step_ret {A} (a : A) : fs_step R (ret a).
Proof using R_refl. intros w w' r [= <- _]. apply R_refl. Qed.

Lemma fs_step_raise {A} e : fs_step R (@raise world A e).
Proof using R_refl. intros w w' r [= <- _]. apply R_refl. Qed.

Lemma fs_step_gets {A} (f : world → A) : fs_step R (gets f).
Proof using R_refl. intros w w' r [= <- _]. apply R_refl. Qed.

Lemma fs_step_lift_result {A} (x : result A) : fs_step R (lift_result x).
Proof using R_refl. intros w w' r [= <- _]. apply R_refl. Qed.

Lemma fs_step_uuid4_hex : fs_step R uuid4_hex.
Proof using R_refl. intros w w' r [= <- _]. apply R_refl. Qed.

Lemma fs_step_log ev : fs_step R (log ev).
Proof using R_refl. intros w w' r [= <- _]. apply R_refl. Qed.

Lemma fs_step_lift_db {A} (m : State Db.database A) : fs_step R (lift_db m).
Proof using R_refl.
  intros w w' r. unfold lift_db. destruct (m (w_db w)). intros [= <- _]. apply R_refl.
Qed.

Lemma fs_step_bind {A B} (m : State world A) (f : A → State world B) :
  fs_step R m → (∀ a, fs_step R (f a)) → fs_step R (bind m f).
Proof using R_trans.
  intros Hm Hf w w' r. unfold bind.
  destruct (m w) as [w1 [a|e]] eqn:Hrun.
  - intros Hk. exact (R_trans _ _ _ (Hm _ _ _ Hrun) (Hf a _ _ _ Hk)).
  - intros [= <- _]. exact (Hm _ _ _ Hrun).
Qed.

Lemma fs_step_try_except {A} (body : State world A) handler :
  fs_step R body → (∀ e, fs_step R (handler e)) → fs_step R (try_except body handler).
Proof using R_trans.
  intros Hm Hh w w' r. unfold try_except.
  destruct (body w) as [w1 [a|e]] eqn:Hrun.
  - intros [= <- _]. exact (Hm _ _ _ Hrun).
  - intros Hk. exact (R_trans _ _ _ (Hm _ _ _ Hrun) (Hh e _ _ _ Hk)).
Qed.

Lemma fs_step_fs_call ev f :
  (∀ fs fs', f fs = Ok fs' → R fs fs') → fs_step R (fs_call ev f).
Proof using R_refl.
  intros Hf w w' r. unfold fs_call.
  destruct (f (w_fs w)) as [fs'|e] eqn:Hrun; intros [= <- _].
  - by apply Hf.
  - apply R_refl.
Qed.

End FsSteps.

(* ===================================================================== *)
(** * Archive extraction *)
(* ===================================================================== *)

Section ZipExtraction.

Variable extract_dir : Path.t.

Local Abbreviation kept := (outside_kept (Fs.resolve extract_dir)).

Lemma kept_refl fs : kept fs fs.
Proof. apply outside_kept_refl. Qed.

Lemma kept_trans fs1 fs2 fs3 : kept fs1 fs2 → kept fs2 fs3 → kept fs1 fs3.
Proof. apply outside_kept_trans. Qed.

Lemma mkdir_step p : fs_step kept (mkdir p).
Proof.
  apply fs_step_fs_call; [apply kept_refl |].
  intros fs fs'. apply mkdir_parents_kept.
Qed.

Lemma write_file_step p x :
  Fs.resolve extract_dir `prefix_of` Fs.resolve p → fs_step kept (write_file p x).
Proof.
  intros Hunder. apply fs_step_fs_call; [apply kept_refl |].
  intros fs fs' Hwrite. by apply (write_file_kept _ p x).
Qed.

Lemma arc_under filename :
  Fs.resolve extract_dir `prefix_of` Fs.resolve (extract_dir ++ zipfile.arcname filename).
Proof.
  rewrite resolve_app_plain by apply arcname_plain. by apply prefix_app_r.
Qed.

Lemma extract_member_step member :
  fs_step kept (zipfile.extract_member extract_dir member).
Proof.
  unfold zipfile.extract_member.
  destruct (zipfile.is_dir member.1); [apply mkdir_step |].
  destruct (zipfile.arcname member.1) eqn:Harc.
  - apply fs_step_raise, kept_refl.
  - rewrite <- Harc. destruct member.2.
    + apply write_file_step, arc_under.
    + apply fs_step_bind; [apply kept_trans | apply write_file_step, arc_under |].
      intros _. apply fs_step_raise, kept_refl.
Qed.

Lemma extract_members_step members :
  fs_step kept (zipfile.extract_members extract_dir members).
Proof.
  induction members as [|member rest IH]; cbn [zipfile.extract_members].
  - apply fs_step_ret, kept_refl.
  - apply fs_step_bind; [apply kept_trans | apply extract_member_step | auto].
Qed.

Lemma zip_extractall_step file_path :
  fs_step kept (zipfile.extractall file_path extract_dir).
Proof.
  unfold zipfile.extractall.
  apply fs_step_bind; [apply kept_trans | apply fs_step_gets, kept_refl |].
  intros [[|[c|members|nfv members]]|];
    first [apply extract_members_step | apply fs_step_raise, kept_refl].
Qed.

Lemma extract_archive_zip_step file_path :
  fs_step kept (extract_archive file_path extract_dir ".zip").
Proof.
  unfold extract_archive. rewrite decide_True by reflexivity.
  apply fs_step_try_except; [apply kept_trans | |].
  - apply fs_step_bind; [apply kept_trans | apply zip_extractall_step |].
    intros _. apply fs_step_ret, kept_refl.
  - intros e. apply fs_step_ret, kept_refl.
Qed.

End ZipExtraction.

(** [extract_archive] never raises: it answers with a success or an
    error dict. *)
Lemma extract_archive_answers file_path extract_dir file_ext w :
  (extract_archive file_path extract_dir file_ext w).2 = Ok RSuccess
  ∨ ∃ msg, (extract_archive file_path extract_dir file_ext w).2 = Ok (RError msg).
Proof.
  unfold extract_archive, try_except, bind.
  destruct (decide (file_ext = ".zip")) as [Hzip|Hzip].
  - destruct (zipfile.extractall _ _ w) as [w1 [[]|e]]; cbn; eauto.
  - destruct (decide (file_ext = ".rar")) as [Hrar|Hrar]; [| cbn; eauto].
    destruct (rarfile.extractall _ _ w) as [w1 [[]|e]]; cbn; [eauto |].
    destruct e; cbn; eauto.
Qed.

(** C1, as the code has it.  For every .zip archive passed to
    extraction, nothing outside the scratch directory is written: every
    node that was outside it is left as it was and no regular file
    appears outside it, because each member goes to its name without the
    empty, [.] and [..] segments, below the scratch directory.  The
    archive is not rejected for such names: the answer is a success or
    an error message, and an archive with a parent-directory member and
    an absolute member is extracted with success. *)
Theorem zip_extraction_stays_in_scratch_dir :
  ∀ (file_path extract_dir : Path.t) (w w' : world) (r : result response),
    extract_archive file_path extract_dir ".zip" w = (w', r) →
    (∀ p n, w_fs w !! p = Some n → ¬ Fs.resolve extract_dir `prefix_of` p →
            w_fs w' !! p = Some n)
    ∧ (∀ p x, w_fs w' !! p = Some (Fs.File x) → ¬ Fs.resolve extract_dir `prefix_of` p →
              w_fs w !! p = Some (Fs.File x))
    ∧ (r = Ok RSuccess ∨ ∃ msg, r = Ok (RError msg))
    ∧ (extract_archive ["tmp"; "upload.zip"] ["tmp"; "extract_3f9a1c"] ".zip"
         (upload_world (empty_db true) evil_zip)).2 = Ok RSuccess.
Proof.
  intros file_path extract_dir w w' r Hrun.
  destruct (extract_archive_zip_step extract_dir file_path w w' r Hrun) as [Ha Hb].
  split; [exact Ha | split; [exact Hb | split]].
  - pose proof (extract_archive_answers file_path extract_dir ".zip" w) as Hans.
    rewrite Hrun in Hans. exact Hans.
  - vm_compute. reflexivity.
Qed.

Lemma zip_extraction_stays_in_scratch_dir_witness :
  w_fs (extract_archive ["tmp"; "upload.zip"] ["tmp"; "extract_3f9a1c"] ".zip"
          (upload_world (empty_db true) evil_zip)).1 !! ["tmp"; "upload.zip"]
  = Some (Fs.File evil_zip).
Proof.
  destruct (extract_archive ["tmp"; "upload.zip"] ["tmp"; "extract_3f9a1c"] ".zip"
              (upload_world (empty_db true) evil_zip)) as [w1 r] eqn:Hrun.
  apply (proj1 (zip_extraction_stays_in_scratch_dir
                  ["tmp"; "upload.zip"] ["tmp"; "extract_3f9a1c"] _ w1 r Hrun)).
  - vm_compute. reflexivity.
  - intros [k Hk]. discriminate Hk.
Defined.

(** C1 fails as stated: the archive with a [../] member and an absolute
    member is not rejected.  Extraction answers with success and both
    members are on disk, below the scratch directory. *)
Lemma unsafe_archive_not_rejected :
  let '(w', r) :=
    extract_archive ["tmp"; "upload.zip"] ["tmp"; "extract_3f9a1c"] ".zip"
      (upload_world (empty_db true) evil_zip) in
  r = Ok RSuccess
  ∧ w_fs w' !! ["tmp"; "extract_3f9a1c"; "evil.txt"] = Some (Fs.File (Fs.Plain (Fs.Blob "x")))
  ∧ w_fs w' !! ["tmp"; "extract_3f9a1c"; "etc"; "cron.d"; "evil"]
    = Some (Fs.File (Fs.Plain (Fs.Blob "y"))).
Proof. vm_compute. repeat split. Qed.

(* ===================================================================== *)
(** * The order of effects *)
(* ===================================================================== *)

Section Appends.

Context (P : event → Prop).

Lemma appends_silent {A} (m : State world A) :
  (∀ w w' r, m w = (w', r) → w_trace w' = w_trace w) → appends P m.
Proof.
  intros Hm w w' r Hrun. exists []. rewrite app_nil_r. split; [eauto | constructor].
Qed.

Lemma appends_ret {A} (a : A) : appends P (ret a).
Proof. apply appends_silent. by intros w w' r [= <- _]. Qed.

Lemma appends_raise {A} e : appends P (@raise world A e).
Proof. apply appends_silent. by intros w w' r [= <- _]. Qed.

Lemma appends_gets {A} (f : world → A) : appends P (gets f).
Proof. apply appends_silent. by intros w w' r [= <- _]. Qed.

Lemma appends_lift_result {A} (x : result A) : appends P (lift_result x).
Proof. apply appends_silent. by intros w w' r [= <- _]. Qed.

Lemma appends_uuid4_hex : appends P uuid4_hex.
Proof. apply appends_silent. by intros w w' r [= <- _]. Qed.

Lemma appends_lift_db {A} (m : State Db.database A) : appends P (lift_db m).
Proof.
  apply appends_silent. intros w w' r. unfold lift_db.
  destruct (m (w_db w)). by intros [= <- _].
Qed.

Lemma appends_log ev : P ev → appends P (log ev).
Proof.
  intros Hev w w' r [= <- _]. exists [ev]. split; [reflexivity | by constructor].
Qed.

Lemma appends_fs_call ev f : P ev → appends P (fs_call ev f).
Proof.
  intros Hev w w' r. unfold fs_call. destruct (f (w_fs w)); intros [= <- _].
  - exists [ev]. split; [reflexivity | by constructor].
  - exists []. rewrite app_nil_r. split; [reflexivity | constructor].
Qed.

Lemma appends_bind {A B} (m : State world A) (f : A → State world B) :
  appends P m → (∀ a, appends P (f a)) → appends P (bind m f).
Proof.
  intros Hm Hf w w' r. unfold bind.
  destruct (m w) as [w1 [a|e]] eqn:Hrun.
  - intros Hk. destruct (Hm _ _ _ Hrun) as (evs1 & Ht1 & HP1).
    destruct (Hf a _ _ _ Hk) as (evs2 & Ht2 & HP2).
    exists (evs1 ++ evs2). rewrite Ht2, Ht1, app_assoc.
    split; [reflexivity | by apply Forall_app].
  - intros [= <- _]. exact (Hm _ _ _ Hrun).
Qed.

Lemma appends_try_except {A} (body : State world A) handler :
  appends P body → (∀ e, appends P (handler e)) → appends P (try_except body handler).
Proof.
  intros Hm Hh w w' r. unfold try_except.
  destruct (body w) as [w1 [a|e]] eqn:Hrun.
  - intros [= <- _]. exact (Hm _ _ _ Hrun).
  - intros Hk. destruct (Hm _ _ _ Hrun) as (evs1 & Ht1 & HP1).
    destruct (Hh e _ _ _ Hk) as (evs2 & Ht2 & HP2).
    exists (evs1 ++ evs2). rewrite Ht2, Ht1, app_assoc.
    split; [reflexivity | by apply Forall_app].
Qed.

End Appends.

Lemma extract_archive_appends file_path extract_dir file_ext :
  appends (fun ev => ¬ is_store ev) (extract_archive file_path extract_dir file_ext).
Proof.
  assert (Hwrite : ∀ p x, appends (fun ev => ¬ is_store ev) (write_file p x))
    by (intros; apply appends_fs_call; cbn; tauto).
  assert (Hzip : ∀ members,
            appends (fun ev => ¬ is_store ev) (zipfile.extract_members extract_dir members)).
  { induction members as [|member rest IH]; [apply appends_ret |].
    cbn [zipfile.extract_members]. apply appends_bind; [| auto].
    unfold zipfile.extract_member.
    destruct (zipfile.is_dir member.1); [apply appends_fs_call; cbn; tauto |].
    destruct (zipfile.arcname member.1); [apply appends_raise |].
    destruct member.2; [apply Hwrite |].
    apply appends_bind; [apply Hwrite | intros; apply appends_raise]. }
  assert (Hrar : ∀ members,
            appends (fun ev => ¬ is_store ev) (rarfile.extract_members extract_dir members)).
  { induction members as [|member rest IH]; [apply appends_ret |].
    cbn [rarfile.extract_members]. apply appends_bind; [apply Hwrite | auto]. }
  unfold extract_archive. apply appends_try_except; [| intros; apply appends_ret].
  destruct (decide (file_ext = ".zip")) as [Hz|Hz].
  - apply appends_bind; [| intros; apply appends_ret].
    unfold zipfile.extractall. apply appends_bind; [apply appends_gets |].
    intros [[|[c|members|nfv members]]|]; first [apply Hzip | apply appends_raise].
  - destruct (decide (file_ext = ".rar")) as [Hr|Hr]; [| apply appends_ret].
    apply appends_try_except.
    + apply appends_bind; [| intros; apply appends_ret].
      unfold rarfile.extractall. apply appends_bind; [apply appends_gets |].
      intros [[|[c|members|nfv members]]|]; try apply appends_raise.
      destruct nfv; [apply appends_raise |].
      apply appends_bind; [apply appends_gets |].
      intros []; [apply Hrar | apply appends_raise].
    + intros []; first [apply appends_ret | apply appends_raise].
Qed.

Lemma process_and_store_content_appends temp_extract_dir content_type :
  appends any_event (process_and_store_content temp_extract_dir content_type).
Proof.
  assert (Hany : ∀ ev, any_event ev) by done.
  unfold process_and_store_content. apply appends_bind; [apply appends_gets |].
  intros ini_paths. generalize (@nil stored).
  induction ini_paths as [|ini_path rest IH]; intros acc; [apply appends_ret |].
  cbn [process_descriptors].
  apply appends_bind.
  { unfold parse_song_ini. apply appends_bind;
      [apply appends_gets | intros; apply appends_lift_result]. }
  intros [|title artist album metadata]; [apply IH |].
  apply appends_bind.
  { unfold get_final_directory. apply appends_bind;
      [by apply appends_fs_call | intros; apply appends_ret]. }
  intros songs_dir. apply appends_bind; [by apply appends_fs_call |].
  intros _. apply appends_bind; [apply appends_uuid4_hex |].
  intros hex. apply appends_bind; [| intros; apply IH].
  apply appends_try_except; [| intros; apply appends_ret].
  apply appends_bind; [by apply appends_fs_call |].
  intros _. apply appends_bind.
  { unfold add_content_to_db. apply appends_bind; [apply appends_lift_db |].
    intros content_id. apply appends_bind; [by apply appends_log |].
    intros; apply appends_ret. }
  intros content_id. destruct (decide (content_id ≠ -1)); apply appends_ret.
Qed.

Lemma os_remove_deletes p w w' :
  os_remove p w = (w', Ok tt) →
  w_fs w' !! Fs.resolve p = None
  ∧ w_trace w' = w_trace w ++ [EvRemove (Fs.resolve p)].
Proof.
  unfold os_remove, fs_call, Fs.remove.
  destruct (Fs.lookup (w_fs w) (Fs.resolve p)) as [[|x]|]; try discriminate.
  intros [= <-]. cbn. split; [apply lookup_delete_eq | reflexivity].
Qed.

Lemma os_remove_raises p w w' e :
  os_remove p w = (w', Raise e) → w' = w.
Proof.
  unfold os_remove, fs_call.
  destruct (Fs.remove p (w_fs w)); [discriminate | by intros [= <- _]].
Qed.

Lemma removed_first_quiet archive evs :
  Forall (fun ev => ¬ is_store ev) evs → removed_first archive evs.
Proof.
  intros Hquiet i ev Hi Hstore.
  destruct (proj1 (Forall_lookup _ _) Hquiet i ev Hi Hstore).
Qed.

Lemma removed_first_after archive pre post :
  Forall (fun ev => ¬ is_store ev) pre →
  removed_first archive (pre ++ EvRemove archive :: post).
Proof.
  intros Hquiet i ev Hi Hstore.
  destruct (decide (i < length pre)%nat) as [Hlt|Hge].
  - rewrite lookup_app_l in Hi by exact Hlt.
    destruct (proj1 (Forall_lookup _ _) Hquiet i ev Hi Hstore).
  - destruct (decide (i = length pre)) as [->|Hne].
    + rewrite list_lookup_middle in Hi by reflexivity.
      injection Hi as <-. destruct Hstore.
    + exists (length pre). split; [lia |]. by apply list_lookup_middle.
Qed.

Lemma mkdir_appends d : appends (fun ev => ¬ is_store ev) (mkdir d).
Proof. apply appends_fs_call. cbn. tauto. Qed.

Lemma archive_branch_trace file_path d file_ext content_type w w' r :
  archive_branch file_path d file_ext content_type w = (w', r) →
  ∃ evs, w_trace w' = w_trace w ++ evs
         ∧ removed_first (Fs.resolve file_path) evs
         ∧ (∀ l, r = Ok (RStored l) → EvRemove (Fs.resolve file_path) ∈ evs).
Proof.
  unfold archive_branch, bind at 1.
  destruct (mkdir d w) as [w1 [[]|e]] eqn:Hmk.
  2:{ intros [= <- <-].
      destruct (mkdir_appends _ _ _ _ Hmk) as (evs & Ht & Hq).
      exists evs. split; [exact Ht | split; [by apply removed_first_quiet | discriminate]]. }
  destruct (mkdir_appends _ _ _ _ Hmk) as (evs1 & Ht1 & Hq1).
  unfold bind at 1.
  destruct (extract_archive file_path d file_ext w1) as [w2 [er|e]] eqn:Hex.
  2:{ intros [= <- <-].
      destruct (extract_archive_appends _ _ _ _ _ _ Hex) as (evs2 & Ht2 & Hq2).
      exists (evs1 ++ evs2). rewrite Ht2, Ht1, app_assoc.
      split; [reflexivity | split; [| discriminate]].
      by apply removed_first_quiet, Forall_app. }
  destruct (extract_archive_appends _ _ _ _ _ _ Hex) as (evs2 & Ht2 & Hq2).
  destruct (has_error er) eqn:Herr.
  { intros [= <- <-]. exists (evs1 ++ evs2). rewrite Ht2, Ht1, app_assoc.
    split; [reflexivity | split].
    - by apply removed_first_quiet, Forall_app.
    - intros l [= ->]. discriminate. }
  unfold bind at 1.
  destruct (os_remove file_path w2) as [w3 [[]|e]] eqn:Hrm.
  2:{ intros [= <- <-]. rewrite (os_remove_raises _ _ _ _ Hrm).
      exists (evs1 ++ evs2). rewrite Ht2, Ht1, app_assoc.
      split; [reflexivity | split; [| discriminate]].
      by apply removed_first_quiet, Forall_app. }
  destruct (os_remove_deletes _ _ _ Hrm) as [_ Ht3].
  unfold store_extracted_content. intros Hstore.
  assert (Happ : appends any_event
            (let* l := process_and_store_content d content_type in ret (RStored l))).
  { apply appends_bind; [apply process_and_store_content_appends |].
    intros; apply appends_ret. }
  destruct (Happ _ _ _ Hstore) as (evs4 & Ht4 & _).
  exists ((evs1 ++ evs2) ++ EvRemove (Fs.resolve file_path) :: evs4).
  rewrite Ht4, Ht3, Ht2, Ht1. split; [| split].
  - rewrite <- !app_assoc. reflexivity.
  - by apply removed_first_after, Forall_app.
  - intros _ _. apply elem_of_app. right. apply list_elem_of_here.
Qed.

(** C10.  For every .zip or .rar input, whatever the run does to store
    content (a move into the library, a store call) comes after the
    removal of the uploaded archive from disk; and a run that comes
    back with the list of stored songs has removed the archive. *)
Theorem archive_removed_before_store :
  ∀ (file_path content_type : string) (w : world),
    archive_ext file_path ∈ [".zip"; ".rar"] →
    let '(w', r) := extract_content file_path content_type w in
    let archive := Fs.resolve (Path.of_string file_path) in
    ∃ evs, w_trace w' = w_trace w ++ evs
           ∧ removed_first archive evs
           ∧ (∀ l, r = Ok (RStored l) → EvRemove archive ∈ evs).
Proof.
  intros file_path content_type w Hext.
  unfold extract_content, bind at 1. cbn [uuid4_hex].
  set (w0 := {| w_fs := w_fs w; w_db := w_db w; w_unrar := w_unrar w;
                w_uuid := w_uuid w; w_drawn := S (w_drawn w);
                w_trace := w_trace w |}).
  set (d := scratch_dir (w_uuid w (w_drawn w))).
  fold (archive_ext file_path). rewrite decide_True by exact Hext.
  fold (archive_branch (Path.of_string file_path) d (archive_ext file_path) content_type).
  unfold try_finally, try_except.
  destruct (archive_branch _ d _ content_type w0) as [w1 r1] eqn:Hbranch.
  destruct (archive_branch_trace _ _ _ _ _ _ _ Hbranch) as (evs & Ht & Hfirst & Hstored).
  change (w_trace w0) with (w_trace w) in Ht.
  assert (Hshape : ∀ (r2 : result response) w2,
            w_trace w2 = w_trace w1 →
            (∀ l, r2 = Ok (RStored l) → r1 = Ok (RStored l)) →
            let '(w', r) :=
              match shutil_rmtree d w2 with
              | (w3, Ok _) => (w3, r2)
              | (w3, Raise e) => (w3, Raise e)
              end in
            ∃ evs, w_trace w' = w_trace w ++ evs
                   ∧ removed_first (Fs.resolve (Path.of_string file_path)) evs
                   ∧ (∀ l, r = Ok (RStored l) →
                           EvRemove (Fs.resolve (Path.of_string file_path)) ∈ evs)).
  { intros r2 w2 Ht2 Hr2. unfold shutil_rmtree, fs_call. cbn.
    exists (evs ++ [EvRmtree (Fs.resolve d)]). rewrite Ht2, Ht, app_assoc.
    split; [reflexivity | split].
    - intros i ev Hi Hstore.
      apply lookup_app_Some in Hi as [Hi|[Hlen Hi]].
      + destruct (Hfirst i ev Hi Hstore) as (j & Hj & Hrm).
        exists j. split; [exact Hj |]. by apply lookup_app_l_Some.
      + destruct (i - length evs)%nat; [| by destruct n].
        injection Hi as <-. destruct Hstore.
    - intros l Hl. apply elem_of_app. left. eauto. }
  destruct r1 as [a|e].
  - exact (Hshape (Ok a) w1 eq_refl (fun l H => H)).
  - cbn [ret]. apply (Hshape (Ok (RError (str e))) w1 eq_refl). discriminate.
Qed.

Lemma archive_removed_before_store_witness :
  let '(w', r) :=
    extract_content "/tmp/upload.zip" "songs"
      (upload_world (empty_db true)
         (Fs.ZipFile [("Song A/song.ini", Some (song_ini "Test" "Band" "Demo"))])) in
  ∃ evs, w_trace w' = [] ++ evs
         ∧ removed_first ["tmp"; "upload.zip"] evs
         ∧ (∀ l, r = Ok (RStored l) → EvRemove ["tmp"; "upload.zip"] ∈ evs).
Proof.
  apply (archive_removed_before_store "/tmp/upload.zip" "songs"
           (upload_world (empty_db true)
              (Fs.ZipFile [("Song A/song.ini", Some (song_ini "Test" "Band" "Demo"))]))).
  vm_compute. apply list_elem_of_here.
Defined.

(* ===================================================================== *)
(** * The scratch directory *)
(* ===================================================================== *)

Lemma resolve_scratch_dir hex : Fs.resolve (scratch_dir hex) = scratch_dir hex.
Proof.
  unfold scratch_dir, gettempdir, Fs.resolve. cbn [app Fs.resolve_go].
  rewrite decide_False by discriminate.
  rewrite decide_False by discriminate. reflexivity.
Qed.

(** After [rmtree], nothing is left at or below a path that was not a
    regular file. *)
Lemma rmtree_spec (d : list string) (fs : gmap (list string) Fs.node) :
  (Fs.is_file fs (Fs.resolve d) = true ∧ Fs.rmtree d fs = fs)
  ∨ (Fs.is_file fs (Fs.resolve d) = false
     ∧ ∀ p, Fs.resolve d `prefix_of` p → Fs.rmtree d fs !! p = None).
Proof.
  unfold Fs.rmtree. destruct (Fs.is_file fs (Fs.resolve d)); [by left | right].
  split; [reflexivity |]. intros p Hp.
  apply map_lookup_filter_None. right. intros n _. cbn. unfold Fs.under.
  by rewrite bool_decide_eq_true_2.
Qed.

(** C8.  On every exit path of [extract_content], with whatever outcome,
    the cleanup has run: the call answers (it never raises), no
    directory is left at the scratch path, and nothing at all is left at
    or below it, files written into it included, unless the scratch
    path is occupied by a regular file, which [rmtree] does not touch. *)
Theorem scratch_dir_removed_on_every_exit :
  ∀ (file_path content_type : string) (w : world),
    let '(w', r) := extract_content file_path content_type w in
    let d := scratch_dir (w_uuid w (w_drawn w)) in
    (∃ answer, r = Ok answer)
    ∧ Fs.is_dir (w_fs w') d = false
    ∧ ((∀ p, d `prefix_of` p → w_fs w' !! p = None)
       ∨ Fs.is_file (w_fs w') d = true).
Proof.
  intros file_path content_type w.
  unfold extract_content, bind at 1. cbn [uuid4_hex].
  set (d := scratch_dir (w_uuid w (w_drawn w))).
  assert (Hres : Fs.resolve d = d) by apply resolve_scratch_dir.
  assert (Hne : d ≠ []) by discriminate.
  unfold try_finally.
  match goal with
  | |- context [try_except ?body ?handler ?w0] =>
      destruct (try_except body handler w0) as [w1 r1] eqn:Hbody
  end.
  unfold shutil_rmtree, fs_call. cbn [with_fs w_fs].
  split; [| split].
  - unfold try_except in Hbody.
    match type of Hbody with
    | context [match ?run with _ => _ end] => destruct run as [w2 [a|e]]
    end; injection Hbody as _ <-; eauto.
  - destruct (rmtree_spec d (w_fs w1)) as [[Hfile ->]|[_ Hgone]].
    + rewrite Hres in Hfile. unfold Fs.is_dir, Fs.is_file in *.
      destruct (Fs.lookup (w_fs w1) d) as [[|x]|]; done.
    + rewrite Hres in Hgone. unfold Fs.is_dir, Fs.lookup.
      destruct d; [done |]. by rewrite Hgone.
  - destruct (rmtree_spec d (w_fs w1)) as [[Hfile ->]|[_ Hgone]].
    + right. by rewrite Hres in Hfile.
    + left. by rewrite Hres in Hgone.
Qed.

(** Two exit paths on concrete uploads: a member whose data cannot be
    decompressed stops the extraction after the first member was
    written, and a good archive is stored; neither leaves anything at or
    below the scratch path. *)
Example scratch_dir_removed_runs :
  (let '(w', r) :=
     extract_content "/tmp/upload.zip" "songs"
       (upload_world (empty_db true)
          (Fs.ZipFile [("Song A/song.ini", Some (song_ini "Test" "Band" "Demo"));
                       ("Song A/song.ogg", None)])) in
   r = Ok (RError "File is not a zip file")
   ∧ filter (fun kv => Fs.under ["tmp"; "extract_3f9a1c"] kv.1 = true) (w_fs w') = ∅)
  ∧ (let '(w', r) :=
       extract_content "/tmp/upload.zip" "songs"
         (upload_world (empty_db true)
            (Fs.ZipFile [("Song A/song.ini", Some (song_ini "Test" "Band" "Demo"))])) in
     (∃ l, r = Ok (RStored l) ∧ length l = 1%nat)
     ∧ filter (fun kv => Fs.under ["tmp"; "extract_3f9a1c"] kv.1 = true) (w_fs w') = ∅).
Proof.
  split; vm_compute; (split; [| reflexivity]); [reflexivity | eauto].
Qed.

(* ===================================================================== *)
(** * Descriptors of one archive *)
(* ===================================================================== *)

(** X10.  When the parser skips every descriptor that the search finds
    below the scratch directory, or the search finds none,
    [process_and_store_content] returns the empty list and changes
    nothing: no folder is made or moved and the table is not touched. *)
Lemma no_usable_descriptor_empty_list temp_extract_dir content_type w :
  (∀ ini_path, ini_path ∈ Fs.rglob temp_extract_dir "song.ini" (w_fs w) →
     parse_song_ini_text (Fs.read_ini ini_path (w_fs w)) = Ok Skip) →
  process_and_store_content temp_extract_dir content_type w = (w, Ok []).
Proof.
  unfold process_and_store_content, bind at 1, gets.
  generalize (Fs.rglob temp_extract_dir "song.ini" (w_fs w)). intros ini_paths.
  induction ini_paths as [|ini_path rest IH]; intros Hskip; [reflexivity |].
  cbn [process_descriptors]. unfold bind at 1, parse_song_ini, bind, gets, lift_result.
  rewrite (Hskip ini_path) by apply list_elem_of_here.
  apply IH. intros p Hp. by apply Hskip, list_elem_of_further.
Qed.

Lemma no_usable_descriptor_empty_list_witness :
  process_and_store_content ["tmp"; "extract_3f9a1c"] "songs" (extracted pack_without_album)
  = (extracted pack_without_album, Ok []).
Proof.
  apply no_usable_descriptor_empty_list.
  intros ini_path Hin. vm_compute in Hin.
  apply list_elem_of_singleton in Hin as ->. vm_compute. reflexivity.
Defined.

(** C7: the code at the inputs where it leaves the claim.  A descriptor
    with a lone percent sign makes [config.get] raise out of
    [parse_song_ini], and a descriptor whose artist directory cannot be
    made makes [mkdir] raise; both calls stand outside the [try] of the
    loop, so the exception ends [process_and_store_content]: the valid
    sibling is not stored, and the request answers with an error.
    Without the bad descriptor the sibling is stored. *)
Theorem bad_descriptor_aborts_siblings :
  (let '(w', r) :=
     process_and_store_content ["tmp"; "extract_3f9a1c"] "songs"
       (extracted pack_with_percent) in
   r = Raise (InterpolationSyntaxError "name") ∧ Db.songs (w_db w') = [])
  ∧ (let '(w', r) :=
       process_and_store_content ["tmp"; "extract_3f9a1c"] "songs"
         (extracted pack_with_blocked_artist) in
     r = Raise (FileExistsError ["etc"; "hostname"]) ∧ Db.songs (w_db w') = [])
  ∧ (let '(w', r) :=
       extract_content "/tmp/upload.zip" "songs"
         (upload_world (empty_db true) pack_with_percent) in
     r = Ok (RError "'%' must be followed by '%' or '(' in option name")
     ∧ Db.songs (w_db w') = [])
  ∧ (let '(w', r) :=
       process_and_store_content ["tmp"; "extract_3f9a1c"] "songs"
         (extracted pack_plain_only) in
     (∃ s, r = Ok [s] ∧ s_title s = "Test") ∧ length (Db.songs (w_db w')) = 1%nat).
Proof.
  split; [vm_compute; split; reflexivity |].
  split; [vm_compute; split; reflexivity |].
  split; [vm_compute; split; reflexivity |].
  vm_compute. split; [eexists; split; reflexivity | reflexivity].
Qed.

Section Strip.

Lemma contains_lstrip c s : Str.contains c (Str.lstrip s) = true → Str.contains c s = true.
Proof.
  induction s as [|d s IH]; [done |]. cbn [Str.lstrip].
  destruct (Str.is_space d); [| done].
  intros H. cbn [Str.contains]. rewrite (IH H). by destruct (Ascii.eqb c d).
Qed.

Lemma contains_rstrip c s : Str.contains c (Str.rstrip s) = true → Str.contains c s = true.
Proof.
  induction s as [|d s IH]; [done |]. cbn [Str.rstrip].
  destruct (Str.rstrip s) as [|e r] eqn:Hr.
  - destruct (Str.is_space d); [done |]. cbn [Str.contains].
    destruct (Ascii.eqb c d); done.
  - cbn [Str.contains] in *. destruct (Ascii.eqb c d); [done |]. exact IH.
Qed.

Lemma contains_strip c s : Str.contains c s = false → Str.contains c (Str.strip s) = false.
Proof.
  intros Hs. destruct (Str.contains c (Str.strip s)) eqn:H; [| done].
  apply contains_rstrip, contains_lstrip in H. congruence.
Qed.

End Strip.

Section ReadBlocks.

Import configparser.

Variable P : string → Prop.

Lemma read_options_values added cursect lines added' cursect' :
  read_options added cursect lines = Some (added', cursect') →
  (∀ k v, cursect !! k = Some v → P v) →
  (∀ optname optval, (optname, optval) ∈ lines → P (Str.strip optval)) →
  ∀ k v, cursect' !! k = Some v → P v.
Proof.
  intros Hread Hold Hnew k v Hk.
  destruct (read_options_stripped _ _ _ _ _ Hread k v Hk) as [Hin|(o & x & Hin & _ & ->)].
  - by eapply Hold.
  - by eapply Hnew.
Qed.


Lemma read_blocks_values added cfg blocks cfg' :
  read_blocks added cfg blocks = Some cfg' →
  values_in P cfg →
  (∀ sectname lines optname optval,
     (sectname, lines) ∈ blocks → (optname, optval) ∈ lines → P (Str.strip optval)) →
  values_in P cfg'.
Proof.
  revert added cfg. induction blocks as [|[sectname lines] rest IH]; intros added cfg.
  - cbn. by intros [= <-].
  - cbn [read_blocks]. intros Hread [Hdef Hsec] Hnew.
    assert (Hlines : ∀ optname optval, (optname, optval) ∈ lines → P (Str.strip optval)).
    { intros o x Hin. eapply Hnew; [apply list_elem_of_here | exact Hin]. }
    assert (Hrest : ∀ s l o x, (s, l) ∈ rest → (o, x) ∈ l → P (Str.strip x)).
    { intros s l o x Hin. eapply Hnew. by apply list_elem_of_further. }
    destruct (decide (sectname = default_section)).
    + destruct (read_options added (_defaults cfg) lines) as [[added' d]|] eqn:Hopt;
        [| discriminate].
      eapply IH; [exact Hread | | exact Hrest]. split; cbn.
      * eapply read_options_values; eauto.
      * exact Hsec.
    + destruct (_sections cfg !! sectname); [discriminate |].
      destruct (read_options ∅ ∅ lines) as [[added' sect]|] eqn:Hopt; [| discriminate].
      eapply IH; [exact Hread | | exact Hrest]. split; cbn.
      * exact Hdef.
      * intros s sect' k v Hs Hk.
        apply lookup_insert_Some in Hs as [[<- <-]|[_ Hs]].
        -- eapply read_options_values; eauto. intros ? ?. by rewrite lookup_empty.
        -- eapply Hsec; eauto.
Qed.

End ReadBlocks.

Lemma read_file_plain text config :
  plain_text text → configparser.read_file text = Some config →
  ∀ sect k v, configparser._sections config !! "song" = Some sect →
    (sect ∪ configparser._defaults config) !! k = Some v → Str.contains "%" v = false.
Proof.
  intros Hplain Hread sect k v Hsect Hk.
  destruct (read_blocks_values (fun v => Str.contains "%" v = false) _ _ _ _ Hread)
    as [Hdef Hsec].
  - split; cbn; intros *; by rewrite lookup_empty.
  - intros s l o x Hs Ho. apply contains_strip.
    unfold plain_text in Hplain. rewrite list.Forall_forall in Hplain.
    specialize (Hplain _ Hs). rewrite list.Forall_forall in Hplain.
    exact (Hplain _ Ho).
  - apply lookup_union_Some_raw in Hk as [Hk|[_ Hk]]; [by eapply Hsec | by eapply Hdef].
Qed.

(** X1.  A descriptor without percent signs in its values never makes
    [parse_song_ini] raise, and it is skipped exactly when the file
    cannot be read (a repeated section or option name), has no [song]
    section, or has no value, or an empty one, for [name], [artist] or
    [album] in the [song] section and the defaults. *)
Theorem parse_song_ini_without_percent :
  ∀ text : configparser.ini_text,
    plain_text text →
    (∃ p, parse_song_ini_text (Some text) = Ok p)
    ∧ (parse_song_ini_text (Some text) = Ok Skip ↔
       match configparser.read_file text with
       | None => True
       | Some config =>
           match configparser._sections config !! "song" with
           | None => True
           | Some sect =>
               ∃ key, key ∈ ["name"; "artist"; "album"]
                      ∧ ((sect ∪ configparser._defaults config) !! key = None
                         ∨ (sect ∪ configparser._defaults config) !! key = Some "")
           end
       end).
Proof.
  intros text Hplain.
  destruct (configparser.read_file text) as [config|] eqn:Hread.
  - destruct (configparser._sections config !! "song") as [sect|] eqn:Hsect.
    + destruct (parse_song_ini_plain config sect Hsect
                  (fun k v => read_file_plain text config Hplain Hread sect k v Hsect)
                  (Some text) Hread)
        as [Hanswers Hskip].
      split; [| exact Hskip].
      destruct Hanswers as [->|(t & a & al & md & ->)]; eauto.
    + assert (Hp : parse_song_ini_text (Some text) = Ok Skip).
      { unfold parse_song_ini_text. cbn [mbind option_bind]. rewrite Hread.
        unfold configparser.has_section. rewrite Hsect.
        rewrite bool_decide_eq_false_2 by (by intros [? ?]). reflexivity. }
      rewrite Hp. split; [eauto | done].
  - assert (Hp : parse_song_ini_text (Some text) = Ok Skip).
    { unfold parse_song_ini_text. cbn [mbind option_bind]. by rewrite Hread. }
    rewrite Hp. split; [eauto | done].
Qed.


Lemma parse_song_ini_without_percent_witness :
  (∃ p, parse_song_ini_text (Some descriptor_blank_album) = Ok p)
  ∧ (parse_song_ini_text (Some descriptor_blank_album) = Ok Skip ↔
     match configparser.read_file descriptor_blank_album with
     | None => True
     | Some config =>
         match configparser._sections config !! "song" with
         | None => True
         | Some sect =>
             ∃ key, key ∈ ["name"; "artist"; "album"]
                    ∧ ((sect ∪ configparser._defaults config) !! key = None
                       ∨ (sect ∪ configparser._defaults config) !! key = Some "")
         end
     end).
Proof.
  apply (parse_song_ini_without_percent descriptor_blank_album).
  repeat constructor.
Defined.

(* ------------------------------------------------------------------ *)

Section Sections.

Import configparser.

Lemma read_blocks_sections added cfg blocks cfg' s :
  read_blocks added cfg blocks = Some cfg' →
  is_Some (_sections cfg' !! s) →
  is_Some (_sections cfg !! s) ∨ s ∈ blocks.*1.
Proof.
  revert added cfg. induction blocks as [|[sectname lines] rest IH]; intros added cfg.
  - cbn. intros [= <-]. auto.
  - cbn [read_blocks]. intros Hread Hs.
    destruct (decide (sectname = default_section)).
    + destruct (read_options added (_defaults cfg) lines) as [[added' d]|]; [| discriminate].
      destruct (IH _ _ Hread Hs) as [Hold|Hin]; [by left |].
      right. cbn. by apply list_elem_of_further.
    + destruct (_sections cfg !! sectname) eqn:Hnone; [discriminate |].
      destruct (read_options ∅ ∅ lines) as [[added' sect]|]; [| discriminate].
      destruct (IH _ _ Hread Hs) as [Hold|Hin].
      * cbn in Hold. rewrite lookup_insert in Hold.
        destruct (decide (sectname = s)) as [->|Hne].
        -- right. cbn. apply list_elem_of_here.
        -- by left.
      * right. cbn. by apply list_elem_of_further.
Qed.

Lemma read_options_names added cursect lines added' cursect' :
  read_options added cursect lines = Some (added', cursect') →
  NoDup (option_names lines) ∧ (∀ k, k ∈ option_names lines → k ∉ added).
Proof.
  revert added cursect. induction lines as [|[optname optval] rest IH];
    intros added cursect; cbn [read_options].
  - intros _. split; [constructor | intros k Hk; by apply elem_of_nil in Hk].
  - destruct (decide (_ ∈ added)) as [|Hfresh]; [discriminate |].
    intros Hrest. destruct (IH _ _ Hrest) as [Hnodup Hdisj].
    unfold option_names. cbn [fmap list_fmap]. split.
    + constructor; [| exact Hnodup].
      intros Hin. apply (Hdisj _ Hin). apply elem_of_union_l, elem_of_singleton.
      reflexivity.
    + intros k Hk. apply elem_of_cons in Hk as [->|Hk]; [exact Hfresh |].
      intros Hin. apply (Hdisj k Hk). by apply elem_of_union_r.
Qed.

Lemma read_blocks_names added cfg blocks cfg' :
  read_blocks added cfg blocks = Some cfg' →
  (∀ sectname lines, (sectname, lines) ∈ blocks → NoDup (option_names lines))
  ∧ NoDup (filter (fun s => s ≠ default_section) blocks.*1)
  ∧ (∀ s, s ∈ filter (fun s => s ≠ default_section) blocks.*1 → _sections cfg !! s = None).
Proof.
  revert added cfg. induction blocks as [|[sectname lines] rest IH]; intros added cfg.
  - intros _. split; [| split].
    + intros ? ? Hin. by apply elem_of_nil in Hin.
    + constructor.
    + intros s Hs. by apply elem_of_nil in Hs.
  - cbn [read_blocks]. intros Hread.
    destruct (decide (sectname = default_section)) as [Hdef|Hdef].
    + destruct (read_options added (_defaults cfg) lines) as [[added' d]|] eqn:Hopt;
        [| discriminate].
      destruct (IH _ _ Hread) as (Hlines & Hnodup & Hfresh).
      split; [| split].
      * intros s l Hin. apply elem_of_cons in Hin as [[= -> ->]|Hin].
        -- exact (proj1 (read_options_names _ _ _ _ _ Hopt)).
        -- by eapply Hlines.
      * cbn [fmap list_fmap fst]. rewrite filter_cons_False by (cbn; tauto). exact Hnodup.
      * cbn [fmap list_fmap fst]. rewrite filter_cons_False by (cbn; tauto). exact Hfresh.
    + destruct (_sections cfg !! sectname) eqn:Hnone; [discriminate |].
      destruct (read_options ∅ ∅ lines) as [[added' sect]|] eqn:Hopt; [| discriminate].
      destruct (IH _ _ Hread) as (Hlines & Hnodup & Hfresh).
      split; [| split].
      * intros s l Hin. apply elem_of_cons in Hin as [[= -> ->]|Hin].
        -- exact (proj1 (read_options_names _ _ _ _ _ Hopt)).
        -- by eapply Hlines.
      * cbn [fmap list_fmap fst]. rewrite filter_cons_True by (cbn; exact Hdef).
        constructor; [| exact Hnodup].
        intros Hin. specialize (Hfresh _ Hin). cbn in Hfresh.
        by rewrite lookup_insert_eq in Hfresh.
      * cbn [fmap list_fmap fst]. rewrite filter_cons_True by (cbn; exact Hdef).
        intros s Hs. apply elem_of_cons in Hs as [->|Hs]; [exact Hnone |].
        specialize (Hfresh _ Hs). cbn in Hfresh.
        apply lookup_insert_None in Hfresh. tauto.
Qed.

End Sections.

(** X2.  Section names are matched as written: a descriptor without a
    section named exactly [song], for instance one headed [Song], is
    skipped. *)
Theorem descriptor_without_song_section_skipped :
  ∀ text : configparser.ini_text,
    "song" ∉ text.*1 → parse_song_ini_text (Some text) = Ok Skip.
Proof.
  intros text Hno. unfold parse_song_ini_text. cbn [mbind option_bind].
  destruct (configparser.read_file text) as [config|] eqn:Hread; [| reflexivity].
  unfold configparser.has_section.
  rewrite bool_decide_eq_false_2; [reflexivity |].
  intros Hsome.
  destruct (read_blocks_sections _ _ _ _ "song" Hread Hsome) as [Hold|Hin]; [| done].
  cbn in Hold. rewrite lookup_empty in Hold. by destruct Hold.
Qed.

Lemma descriptor_without_song_section_skipped_witness :
  parse_song_ini_text
    (Some [("Song", [("name", "Test"); ("artist", "Band"); ("album", "Demo")])])
  = Ok Skip.
Proof.
  apply descriptor_without_song_section_skipped.
  cbn. intros Hin. apply list_elem_of_singleton in Hin. discriminate.
Defined.

(** X3.  A descriptor in which a section repeats an option name, in any
    letter case, or in which a section other than [DEFAULT] appears
    twice, is skipped: strict parsing refuses the file and
    [parse_song_ini] returns the empty dict. *)
Theorem descriptor_with_repeated_name_skipped :
  ∀ text : configparser.ini_text,
    (∃ sectname lines, (sectname, lines) ∈ text ∧ ¬ NoDup (option_names lines))
    ∨ ¬ NoDup (filter (fun s => s ≠ configparser.default_section) text.*1) →
    parse_song_ini_text (Some text) = Ok Skip.
Proof.
  intros text Hdup. unfold parse_song_ini_text. cbn [mbind option_bind].
  destruct (configparser.read_file text) as [config|] eqn:Hread; [| reflexivity].
  exfalso. destruct (read_blocks_names _ _ _ _ Hread) as (Hlines & Hnodup & _).
  destruct Hdup as [(s & l & Hin & Hl)|Hs]; [| done].
  apply Hl. by eapply Hlines.
Qed.

Lemma descriptor_with_repeated_name_skipped_witness :
  parse_song_ini_text
    (Some [("song", [("name", "Test"); ("artist", "Band"); ("album", "Demo");
                     ("Name", "Other")])])
  = Ok Skip.
Proof.
  apply descriptor_with_repeated_name_skipped. left.
  eexists _, _. split; [apply list_elem_of_here |].
  intros Hnodup. apply NoDup_cons in Hnodup as [Hnotin _].
  apply Hnotin. vm_compute. repeat constructor.
Defined.

(* ------------------------------------------------------------------ *)

Section KeyCase.

Import configparser.

Lemma is_space_lower c : Str.is_space (Str.lower_ascii c) = Str.is_space c.
Proof. destruct c as [[] [] [] [] [] [] [] []]; reflexivity. Qed.

Lemma lower_rstrip s : Str.lower (Str.rstrip s) = Str.rstrip (Str.lower s).
Proof.
  induction s as [|c s IH]; [reflexivity |].
  cbn [Str.rstrip Str.lower]. rewrite <- IH.
  destruct (Str.rstrip s) as [|d r]; cbn [Str.lower].
  - rewrite is_space_lower. by destruct (Str.is_space c).
  - reflexivity.
Qed.

Lemma optionxform_rstrip_case o o' :
  Str.lower o = Str.lower o' → optionxform (Str.rstrip o) = optionxform (Str.rstrip o').
Proof. intros H. unfold optionxform. by rewrite !lower_rstrip, H. Qed.

Lemma read_options_key_case added cursect lines lines' :
  Forall2 (fun o o' => Str.lower o.1 = Str.lower o'.1 ∧ o.2 = o'.2) lines lines' →
  read_options added cursect lines = read_options added cursect lines'.
Proof.
  intros H. revert added cursect.
  induction H as [|[o x] [o' x'] l l' [Hk Hv] _ IH]; intros added cursect; [reflexivity |].
  cbn in Hk, Hv. subst x'. cbn [read_options].
  rewrite (optionxform_rstrip_case _ _ Hk).
  destruct (decide (_ ∈ added)); [reflexivity | apply IH].
Qed.

Lemma read_blocks_key_case added cfg text text' :
  same_up_to_key_case text text' →
  read_blocks added cfg text = read_blocks added cfg text'.
Proof.
  intros H. revert added cfg.
  induction H as [|[s l] [s' l'] t t' [Hs Hl] _ IH]; intros added cfg; [reflexivity |].
  cbn in Hs, Hl. subst s'. cbn [read_blocks].
  rewrite !(read_options_key_case _ _ _ _ Hl).
  destruct (decide (s = default_section)).
  - destruct (read_options added (_defaults cfg) l') as [[? ?]|]; [apply IH | reflexivity].
  - destruct (_sections cfg !! s); [reflexivity |].
    destruct (read_options ∅ ∅ l') as [[? ?]|]; [apply IH | reflexivity].
Qed.

End KeyCase.

(** X4.  Option names are matched without regard to letter case: two
    descriptors that differ in the case of their option names only are
    parsed to the same result. *)
Theorem option_names_case_insensitive :
  ∀ text text' : configparser.ini_text,
    same_up_to_key_case text text' →
    parse_song_ini_text (Some text) = parse_song_ini_text (Some text').
Proof.
  intros text text' Hsame. unfold parse_song_ini_text. cbn [mbind option_bind].
  unfold configparser.read_file. by rewrite (read_blocks_key_case _ _ _ _ Hsame).
Qed.

Lemma option_names_case_insensitive_witness :
  parse_song_ini_text
    (Some [("song", [("Name", "Test"); ("ARTIST", "Band"); ("album", "Demo")])])
  = parse_song_ini_text
      (Some [("song", [("name", "Test"); ("artist", "Band"); ("album", "Demo")])]).
Proof.
  apply option_names_case_insensitive.
  repeat constructor.
Defined.

(* ------------------------------------------------------------------ *)

Section StripTwice.

Lemma lstrip_head s :
  Str.lstrip s = "" ∨ ∃ c r, Str.lstrip s = String c r ∧ Str.is_space c = false.
Proof.
  induction s as [|c s IH]; [by left |]. cbn [Str.lstrip].
  destruct (Str.is_space c) eqn:Hc; [exact IH | right; eauto].
Qed.

Lemma rstrip_head c r :
  Str.is_space c = false → ∃ r', Str.rstrip (String c r) = String c r'.
Proof.
  intros Hc. cbn [Str.rstrip]. rewrite Hc.
  destruct (Str.rstrip r); eauto.
Qed.

Lemma rstrip_cons c s :
  Str.rstrip (String c s)
  = match Str.rstrip s with
    | EmptyString => if Str.is_space c then EmptyString else String c EmptyString
    | r => String c r
    end.
Proof. reflexivity. Qed.

Lemma rstrip_rstrip s : Str.rstrip (Str.rstrip s) = Str.rstrip s.
Proof.
  induction s as [|c s IH]; [reflexivity |]. rewrite rstrip_cons.
  destruct (Str.rstrip s) as [|d r] eqn:Hr.
  - destruct (Str.is_space c) eqn:Hc; [reflexivity |].
    rewrite rstrip_cons. cbn [Str.rstrip]. by rewrite Hc.
  - rewrite rstrip_cons, IH. reflexivity.
Qed.

Lemma strip_strip s : Str.strip (Str.strip s) = Str.strip s.
Proof.
  unfold Str.strip.
  destruct (lstrip_head s) as [->|(c & r & -> & Hc)]; [reflexivity |].
  destruct (rstrip_head c r Hc) as [r' Hr'].
  assert (Hl : Str.lstrip (Str.rstrip (String c r)) = Str.rstrip (String c r)).
  { rewrite Hr'. cbn [Str.lstrip]. by rewrite Hc. }
  rewrite Hl. apply rstrip_rstrip.
Qed.

End StripTwice.

(** X5.  The title, artist, album and metadata values of a parsed song
    have no white space at either end: stripping them again changes
    nothing. *)
Theorem parsed_fields_are_trimmed :
  ∀ (f : option configparser.ini_text) (title artist album : string)
    (metadata : gmap string string),
    parse_song_ini_text f = Ok (Song title artist album metadata) →
    Str.strip title = title ∧ Str.strip artist = artist ∧ Str.strip album = album
    ∧ (∀ key value, metadata !! key = Some value → Str.strip value = value).
Proof.
  intros f title artist album metadata. unfold parse_song_ini_text.
  destruct (f ≫= configparser.read_file) as [config|]; [| discriminate].
  destruct (negb (configparser.has_section config "song")); [discriminate |].
  unfold mbind at 1 2 3, result_bind.
  destruct (configparser.get config "song" "name") as [[name|]|]; try discriminate;
    destruct (configparser.get config "song" "artist") as [[artist'|]|]; try discriminate;
    destruct (configparser.get config "song" "album") as [[album'|]|]; try discriminate.
  destruct (_ || _); [discriminate |].
  unfold mbind, result_bind.
  destruct (collect_metadata config OPTIONAL_FIELDS) as [collected|]; [| discriminate].
  intros [= <- <- <- <-]. rewrite !strip_strip. repeat split.
  intros key value. rewrite lookup_fmap. intros Hv.
  apply fmap_Some in Hv as (v & _ & ->). apply strip_strip.
Qed.

Lemma parsed_fields_are_trimmed_witness :
  Str.strip "Test" = "Test" ∧ Str.strip "Band" = "Band" ∧ Str.strip "Demo" = "Demo"
  ∧ (∀ key value, ({["genre" := "Rock"]} : gmap string string) !! key = Some value →
       Str.strip value = value).
Proof.
  apply (parsed_fields_are_trimmed
           (Some [("song", [("name", "  Test "); ("artist", "Band"); ("album", "Demo");
                            ("genre", " Rock ")])])).
  vm_compute. reflexivity.
Defined.




(* ------------------------------------------------------------------ *)

Section ParserRaises.

Import configparser.






End ParserRaises.







(* ------------------------------------------------------------------ *)

(** X7.  [add_content_to_db] never raises and never changes or removes
    a row: it leaves the table as it is, or appends one row made of its
    arguments with the identifier of the sequence, which it returns. *)
Theorem add_content_to_db_append_only :
  ∀ (db : Db.database) (title artist album file_path : string)
    (metadata : gmap string string),
    let '(db', r) := Db.add_content_to_db title artist album file_path metadata db in
    (∃ content_id, r = Ok content_id)
    ∧ Db.pool_up db' = Db.pool_up db
    ∧ (db' = db
       ∨ Db.songs db' = Db.songs db ++
           [{| Db.id := Db.songs_id_seq db; Db.title := title; Db.artist := artist;
               Db.album := album; Db.file_path := file_path;
               Db.metadata := metadata |}]
         ∧ r = Ok (Db.songs_id_seq db)
         ∧ Db.songs_id_seq db' = Db.songs_id_seq db + 1).
Proof.
  intros db title artist album file_path metadata.
  destruct (Db.pool_up db) eqn:Hup.
  - destruct (head (filter (fun r => Db.matches title artist album r = true) (Db.songs db)))
      as [row|] eqn:Hhead.
    + rewrite (add_content_to_db_found _ _ _ db file_path metadata row Hup Hhead).
      split; [eauto | split; [exact Hup | by left]].
    + rewrite (add_content_to_db_fresh _ _ _ db file_path metadata Hup Hhead).
      cbn. split; [eauto | split; [exact Hup | right; auto]].
  - rewrite (add_content_to_db_down _ _ _ db file_path metadata Hup).
    split; [eauto | split; [exact Hup | by left]].
Qed.

(** What the store call of the loop does to the world. *)
Lemma add_content_to_db_world title artist album file_path metadata w :
  ∃ content_id w',
    add_content_to_db title artist album file_path metadata w = (w', Ok content_id)
    ∧ Db.songs (w_db w) `prefix_of` Db.songs (w_db w')
    ∧ (content_id ≠ -1 →
       ∃ row, row ∈ Db.songs (w_db w') ∧ Db.id row = content_id
              ∧ Db.title row = title ∧ Db.artist row = artist ∧ Db.album row = album).
Proof.
  unfold add_content_to_db, bind, lift_db, log.
  destruct (Db.pool_up (w_db w)) eqn:Hup.
  - destruct (head (filter (fun r => Db.matches title artist album r = true)
                           (Db.songs (w_db w)))) as [row|] eqn:Hhead.
    + rewrite (add_content_to_db_found _ _ _ (w_db w) file_path metadata row Hup Hhead).
      cbn. eexists _, _. split; [reflexivity |]. split; [done |].
      intros _. exists row.
      destruct (first_match_elem _ _ _ _ _ Hhead) as (Hin & Ht & Ha & Hal). auto.
    + rewrite (add_content_to_db_fresh _ _ _ (w_db w) file_path metadata Hup Hhead).
      cbn. eexists _, _. split; [reflexivity |]. split; [by apply prefix_app_r |].
      intros _. eexists. split; [apply elem_of_app; right; apply list_elem_of_here |].
      cbn. auto.
  - rewrite (add_content_to_db_down _ _ _ (w_db w) file_path metadata Hup).
    cbn. eexists _, _. split; [reflexivity |]. split; [done |].
    intros Hne. by destruct Hne.
Qed.

Lemma rows_stay (l : list stored) (rows rows' : list Db.song_row) :
  rows `prefix_of` rows' →
  (∀ s, s ∈ l → s_id s ≠ -1 ∧ ∃ row, row ∈ rows ∧ row_of s row) →
  ∀ s, s ∈ l → s_id s ≠ -1 ∧ ∃ row, row ∈ rows' ∧ row_of s row.
Proof.
  intros [k ->] H s Hs. destruct (H s Hs) as (Hne & row & Hin & Hrow).
  split; [exact Hne |]. exists row. split; [| exact Hrow]. apply elem_of_app. by left.
Qed.

Lemma process_descriptors_rows ini_paths :
  ∀ stored_content w w' l,
    (∀ s, s ∈ stored_content →
       s_id s ≠ -1 ∧ ∃ row, row ∈ Db.songs (w_db w) ∧ row_of s row) →
    process_descriptors ini_paths stored_content w = (w', Ok l) →
    Db.songs (w_db w) `prefix_of` Db.songs (w_db w')
    ∧ ∀ s, s ∈ l → s_id s ≠ -1 ∧ ∃ row, row ∈ Db.songs (w_db w') ∧ row_of s row.
Proof.
  induction ini_paths as [|ini_path rest IH]; intros acc w w' l Hacc.
  - intros [= <- <-]. auto.
  - cbn [process_descriptors]. unfold bind at 1.
    destruct (parse_song_ini ini_path w) as [w1 [p|e]] eqn:Hparse; [| discriminate].
    pose proof (parse_song_ini_db _ ini_path _ _ _ eq_refl Hparse) as Hdb1.
    unfold db_is in Hdb1.
    destruct p as [|title artist album metadata].
    { rewrite <- Hdb1. apply IH. by rewrite Hdb1. }
    unfold bind at 1.
    destruct (get_final_directory "songs" w1) as [w2 [songs_dir|e]] eqn:Hfinal;
      [| discriminate].
    pose proof (get_final_directory_db _ _ _ _ _ eq_refl Hfinal) as Hdb2.
    unfold db_is in Hdb2.
    unfold bind at 1.
    destruct (mkdir _ w2) as [w3 [[]|e]] eqn:Hmk; [| discriminate].
    pose proof (fs_call_db _ _ _ _ _ _ eq_refl Hmk) as Hdb3. unfold db_is in Hdb3.
    unfold bind at 1. cbn [uuid4_hex].
    set (w4 := {| w_fs := w_fs w3; w_db := w_db w3; w_unrar := w_unrar w3;
                  w_uuid := w_uuid w3; w_drawn := S (w_drawn w3);
                  w_trace := w_trace w3 |}).
    assert (Hdb4 : w_db w4 = w_db w) by (cbn; congruence).
    unfold bind at 1, try_except at 1, bind at 1.
    destruct (shutil_move _ _ w4) as [w5 [[]|e]] eqn:Hmove.
    + pose proof (fs_call_db _ _ _ _ _ _ eq_refl Hmove) as Hdb5. unfold db_is in Hdb5.
      match goal with
      | |- context [add_content_to_db ?t ?a ?al ?fp ?md] =>
          destruct (add_content_to_db_world t a al fp md w5)
            as (content_id & w6 & Hadd & Hgrow & Hrow)
      end.
      unfold bind at 1. rewrite Hadd.
      assert (Hgrow' : Db.songs (w_db w) `prefix_of` Db.songs (w_db w6)).
      { by rewrite <- Hdb4, <- Hdb5. }
      destruct (decide (content_id ≠ -1)) as [Hne|_]; cbn [ret]; intros Hrest.
      * apply IH in Hrest.
        -- destruct Hrest as [Hp Hl]. split; [by etrans | exact Hl].
        -- intros s Hs. apply elem_of_app in Hs as [Hs|Hs].
           ++ by apply (rows_stay acc _ _ Hgrow' Hacc).
           ++ apply list_elem_of_singleton in Hs as ->. cbn. split; [exact Hne |].
              destruct (Hrow Hne) as (row & Hin & Hid & Ht & Ha & Hal).
              exists row. split; [exact Hin |]. by unfold row_of.
      * apply IH in Hrest.
        -- destruct Hrest as [Hp Hl]. split; [by etrans | exact Hl].
        -- by apply (rows_stay acc _ _ Hgrow' Hacc).
    + pose proof (fs_call_db _ _ _ _ _ _ eq_refl Hmove) as Hdb5. unfold db_is in Hdb5.
      cbn [ret]. intros Hrest. apply IH in Hrest.
      * destruct Hrest as [Hp Hl]. split; [| exact Hl]. by rewrite <- Hdb4, <- Hdb5.
      * intros s Hs. rewrite Hdb5, Hdb4. by apply Hacc.
Qed.

(** X8.  Every song in the list that [process_and_store_content]
    returns has an identifier other than [-1] and a row in the table
    with that identifier and the song's title, artist and album. *)
Theorem returned_songs_are_in_the_table :
  ∀ (temp_extract_dir : Path.t) (content_type : string) (w w' : world)
    (l : list stored),
    process_and_store_content temp_extract_dir content_type w = (w', Ok l) →
    ∀ s, s ∈ l → s_id s ≠ -1 ∧ ∃ row, row ∈ Db.songs (w_db w') ∧ row_of s row.
Proof.
  intros d ct w w' l. unfold process_and_store_content, bind at 1, gets.
  intros Hrun. eapply process_descriptors_rows; [| exact Hrun].
  intros s Hs. by apply elem_of_nil in Hs.
Qed.


Lemma returned_songs_are_in_the_table_witness :
  s_id stored_test_band_demo ≠ -1
  ∧ ∃ row,
      row ∈ Db.songs (w_db (process_and_store_content ["tmp"; "extract_3f9a1c"] "songs"
                              (extracted pack_plain_only)).1)
      ∧ row_of stored_test_band_demo row.
Proof.
  refine (returned_songs_are_in_the_table ["tmp"; "extract_3f9a1c"] "songs"
            (extracted pack_plain_only) _ [stored_test_band_demo] _
            stored_test_band_demo _).
  - vm_compute. reflexivity.
  - apply list_elem_of_here.
Defined.

(* ------------------------------------------------------------------ *)

Section TableGrows.

Variable rows : list Db.song_row.


Lemma grown_db_kept {A} (m : State world A) :
  (∀ db, preserves (db_is db) m) → preserves (grown rows) m.
Proof.
  intros Hm w w' r Hw Hrun. unfold grown.
  by rewrite (Hm (w_db w) w w' r eq_refl Hrun).
Qed.

Lemma grown_fs_call ev f : preserves (grown rows) (fs_call ev f).
Proof. apply grown_db_kept. intros db. apply fs_call_db. Qed.

Lemma grown_add_content_to_db title artist album file_path metadata :
  preserves (grown rows) (add_content_to_db title artist album file_path metadata).
Proof.
  intros w w' r Hw Hrun.
  destruct (add_content_to_db_world title artist album file_path metadata w)
    as (cid & w1 & Hadd & Hgrow & _).
  rewrite Hadd in Hrun. injection Hrun as <- _. unfold grown in *. by etrans.
Qed.

Lemma grown_process_descriptors ini_paths stored_content :
  preserves (grown rows) (process_descriptors ini_paths stored_content).
Proof.
  revert stored_content. induction ini_paths as [|ini_path rest IH]; intros acc.
  - apply preserves_ret.
  - cbn [process_descriptors]. apply preserves_bind.
    { apply grown_db_kept. intros db. apply parse_song_ini_db. }
    intros [|title artist album metadata]; [apply IH |].
    apply preserves_bind.
    { apply grown_db_kept. intros db. apply get_final_directory_db. }
    intros songs_dir. apply preserves_bind; [apply grown_fs_call |]. intros _.
    apply preserves_bind.
    { apply grown_db_kept. intros db. apply uuid4_hex_db. }
    intros hex. apply preserves_bind; [| intros; apply IH].
    apply preserves_try_except; [| intros; apply preserves_ret].
    apply preserves_bind; [apply grown_fs_call |]. intros _.
    apply preserves_bind; [apply grown_add_content_to_db |]. intros cid.
    destruct (decide (cid ≠ -1)) as [Hcid|Hcid]; apply preserves_ret.
Qed.

Lemma grown_zip_extract_members path members :
  preserves (grown rows) (zipfile.extract_members path members).
Proof.
  induction members as [|member rest IH]; [apply preserves_ret |].
  cbn [zipfile.extract_members]. apply preserves_bind; [| intros; exact IH].
  unfold zipfile.extract_member.
  destruct (zipfile.is_dir member.1); [apply grown_fs_call |].
  destruct (zipfile.arcname member.1); [apply preserves_raise |].
  destruct member.2.
  - apply grown_fs_call.
  - apply preserves_bind; [apply grown_fs_call | intros; apply preserves_raise].
Qed.

Lemma grown_rar_extract_members path members :
  preserves (grown rows) (rarfile.extract_members path members).
Proof.
  induction members as [|member rest IH]; [apply preserves_ret |].
  cbn [rarfile.extract_members]. apply preserves_bind; [| intros; exact IH].
  apply grown_fs_call.
Qed.

Lemma grown_extract_archive file_path extract_dir file_ext :
  preserves (grown rows) (extract_archive file_path extract_dir file_ext).
Proof.
  unfold extract_archive.
  apply preserves_try_except; [| intros; apply preserves_ret].
  destruct (decide (file_ext = ".zip")) as [Hzip|Hzip].
  { apply preserves_bind; [| intros; apply preserves_ret].
    unfold zipfile.extractall. apply preserves_bind; [apply preserves_gets |].
    intros [[|[c|members|nfv members]]|]; try apply preserves_raise.
    apply grown_zip_extract_members. }
  destruct (decide (file_ext = ".rar")) as [Hrar|Hrar]; [| apply preserves_ret].
  apply preserves_try_except.
  - apply preserves_bind; [| intros; apply preserves_ret].
    unfold rarfile.extractall. apply preserves_bind; [apply preserves_gets |].
    intros [[|[c|members|nfv members]]|]; try apply preserves_raise.
    destruct nfv; [apply preserves_raise |].
    apply preserves_bind; [apply preserves_gets |].
    intros []; [apply grown_rar_extract_members | apply preserves_raise].
  - intros err. destruct err; first [apply preserves_ret | apply preserves_raise].
Qed.

Lemma grown_extract_content file_path content_type :
  preserves (grown rows) (extract_content file_path content_type).
Proof.
  unfold extract_content.
  apply preserves_bind.
  { apply grown_db_kept. intros db. apply uuid4_hex_db. }
  intros hex. apply preserves_try_finally; [| apply grown_fs_call].
  apply preserves_try_except; [| intros; apply preserves_ret].
  destruct (decide (_ ∈ [".zip"; ".rar"])) as [Harchive|Harchive].
  - apply preserves_bind; [apply grown_fs_call |]. intros _.
    apply preserves_bind; [apply grown_extract_archive |]. intros extract_result.
    destruct (has_error extract_result); [apply preserves_ret |].
    apply preserves_bind; [apply grown_fs_call |]. intros _.
    unfold store_extracted_content, process_and_store_content.
    apply preserves_bind; [| intros; apply preserves_ret].
    apply preserves_bind; [apply preserves_gets |]. intros ini_paths.
    apply grown_process_descriptors.
  - apply preserves_bind.
    { apply grown_db_kept. intros db. apply get_final_directory_db. }
    intros final_dir.
    destruct (decide (content_type = "songs")) as [Hsongs|Hsongs]; [apply preserves_ret |].
    apply preserves_bind; [apply grown_fs_call | intros; apply preserves_ret].
Qed.

End TableGrows.

(** X9.  An ingestion request only ever appends to the table: the rows
    present before [extract_content] are the first rows after it, in
    the same order and unchanged, however the request ends. *)
Theorem ingestion_never_drops_rows :
  ∀ (file_path content_type : string) (w : world),
    Db.songs (w_db w)
      `prefix_of` Db.songs (w_db (extract_content file_path content_type w).1).
Proof.
  intros file_path content_type w.
  destruct (extract_content file_path content_type w) as [w' r] eqn:Hrun.
  refine (grown_extract_content (Db.songs (w_db w)) file_path content_type w w' r _ Hrun).
  unfold grown. reflexivity.
Qed.



(** X11.  For a .zip or .rar upload the content type plays no part:
    [extract_content] does the same for every content type, so an
    archive sent as backgrounds, colors or highways is searched for
    song descriptors like one sent as songs. *)
Theorem archive_upload_ignores_content_type :
  ∀ (file_path content_type content_type' : string) (w : world),
    archive_ext file_path ∈ [".zip"; ".rar"] →
    extract_content file_path content_type w = extract_content file_path content_type' w.
Proof.
  intros file_path ct ct' w Harchive. unfold archive_ext in Harchive.
  unfold extract_content.
  destruct (decide (Str.lower (Path.suffix (Path.of_string file_path)) ∈ [".zip"; ".rar"]))
    as [_|Hno]; [reflexivity | contradiction].
Qed.

Lemma archive_upload_ignores_content_type_witness :
  extract_content "/tmp/upload.zip" "backgrounds" (upload_world (empty_db true) pack_plain_only)
  = extract_content "/tmp/upload.zip" "songs" (upload_world (empty_db true) pack_plain_only).
Proof.
  apply archive_upload_ignores_content_type.
  vm_compute. apply list_elem_of_here.
Defined.

(* ------------------------------------------------------------------ *)

Lemma mkdir_parents_spec (p : list string) (fs fs' : gmap (list string) Fs.node) :
  Fs.mkdir_parents p fs = Ok fs' →
  Fs.is_dir fs' (Fs.resolve p) = true
  ∧ (∀ q n, fs !! q = Some n → fs' !! q = Some n)
  ∧ (∀ q, fs' !! q = fs !! q ∨ fs' !! q = Some Fs.Dir ∧ q `prefix_of` Fs.resolve p).
Proof.
  unfold Fs.mkdir_parents.
  destruct (Fs.blocked fs (Fs.resolve p)) eqn:Hblocked; [discriminate |].
  destruct (Fs.is_file fs (Fs.resolve p)) eqn:Hfile; [discriminate |].
  intros [= <-]. split; [| split].
  - unfold Fs.is_dir, Fs.lookup. destruct (Fs.resolve p) as [|c r] eqn:Hp; [reflexivity |].
    rewrite make_dirs_lookup. rewrite decide_True; [reflexivity |].
    unfold Fs.prefixes. apply list_elem_of_fmap. exists (length (c :: r)).
    split; [by rewrite firstn_all |]. apply elem_of_seq. cbn. lia.
  - intros q n Hq. rewrite make_dirs_lookup.
    destruct (decide (q ∈ Fs.prefixes (Fs.resolve p))) as [Hin|_]; [| exact Hq].
    destruct (prefixes_spec _ _ Hin) as (_ & Hne & [->|Hanc]).
    + by rewrite (is_file_false_lookup fs _ n Hne Hfile Hq).
    + by rewrite (is_file_false_lookup fs _ n Hne (blocked_None _ _ Hblocked _ Hanc) Hq).
  - intros q. rewrite make_dirs_lookup.
    destruct (decide (q ∈ Fs.prefixes (Fs.resolve p))) as [Hin|_]; [| by left].
    right. split; [reflexivity |]. by destruct (prefixes_spec _ _ Hin).
Qed.

(** X12.  When [get_final_directory] returns, the path it returns is
    the content type's folder under the base directory (the type's own
    name when it is not a known type), that path is a directory, every
    node that existed before is still there unchanged, and the only
    new nodes are directories on the way to it; the table is not
    touched. *)
Theorem get_final_directory_makes_the_folder :
  ∀ (content_type : string) (w w' : world) (final_dir : Path.t),
    get_final_directory content_type w = (w', Ok final_dir) →
    final_dir = Path.joinpath CONTENT_BASE_DIR
                  (default content_type (CONTENT_FOLDERS !! content_type))
    ∧ Fs.is_dir (w_fs w') (Fs.resolve final_dir) = true
    ∧ (∀ q n, w_fs w !! q = Some n → w_fs w' !! q = Some n)
    ∧ (∀ q, w_fs w' !! q = w_fs w !! q
            ∨ w_fs w' !! q = Some Fs.Dir ∧ q `prefix_of` Fs.resolve final_dir)
    ∧ w_db w' = w_db w.
Proof.
  intros content_type w w' final_dir.
  unfold get_final_directory, bind, mkdir, fs_call.
  destruct (Fs.mkdir_parents _ (w_fs w)) as [fs1|e] eqn:Hmk; [| discriminate].
  cbn [ret]. intros [= <- <-]. cbn [with_fs w_fs w_db].
  destruct (mkdir_parents_spec _ _ _ Hmk) as (Hdir & Hkept & Hnew).
  auto.
Qed.

Lemma get_final_directory_makes_the_folder_witness :
  ["app"; "data"; "clonehero_content"; "highways"]
  = Path.joinpath CONTENT_BASE_DIR (default "highways" (CONTENT_FOLDERS !! "highways"))
  ∧ Fs.is_dir (w_fs (get_final_directory "highways"
                       (upload_world (empty_db true) pack_plain_only)).1)
              (Fs.resolve ["app"; "data"; "clonehero_content"; "highways"]) = true
  ∧ (∀ q n, w_fs (upload_world (empty_db true) pack_plain_only) !! q = Some n →
            w_fs (get_final_directory "highways"
                    (upload_world (empty_db true) pack_plain_only)).1 !! q = Some n)
  ∧ (∀ q, w_fs (get_final_directory "highways"
                  (upload_world (empty_db true) pack_plain_only)).1 !! q
          = w_fs (upload_world (empty_db true) pack_plain_only) !! q
          ∨ w_fs (get_final_directory "highways"
                    (upload_world (empty_db true) pack_plain_only)).1 !! q = Some Fs.Dir
            ∧ q `prefix_of` Fs.resolve ["app"; "data"; "clonehero_content"; "highways"])
  ∧ w_db (get_final_directory "highways"
            (upload_world (empty_db true) pack_plain_only)).1
    = w_db (upload_world (empty_db true) pack_plain_only).
Proof.
  apply (get_final_directory_makes_the_folder "highways"
           (upload_world (empty_db true) pack_plain_only)).
  vm_compute. reflexivity.
Defined.

(* ------------------------------------------------------------------ *)

Section ChartFailure.

Import Chart.

Lemma write_beats_stops before bad after events e written :
  sync_events before = Ok events →
  int (mul bad (of_int 1000)) = Raise e →
  write_beats (before ++ bad :: after) written
  = (written +:+ sync_lines events, Raise e).
Proof.
  revert events written.
  induction before as [|time rest IH]; intros events written.
  - intros [= <-] Hbad. cbn [app write_beats]. unfold bind, lift_result.
    rewrite Hbad. cbn. by rewrite append_empty_r.
  - cbn [sync_events app write_beats]. unfold mbind, result_bind, bind at 1, lift_result.
    destruct (int (mul time (of_int 1000))) as [ms|e']; [| discriminate].
    destruct (sync_events rest) as [evs|e'] eqn:Hrest; [| discriminate].
    intros [= <-] Hbad. unfold bind at 1, f_write at 1, modify.
    rewrite (IH evs _ eq_refl Hbad). cbn [sync_lines foldr].
    by rewrite append_assoc.
Qed.

End ChartFailure.

(** X13.  When a beat time is infinite or not a number,
    [generate_notes_chart] raises at that beat and leaves the chart
    unfinished: the file holds the header and the sync lines of the
    beats before it, without the closing brace. *)
Theorem chart_left_unfinished_on_bad_beat :
  ∀ (song_name : string) (before after : list Chart.float64) (bad : Chart.float64)
    (events : list Z) (e : exn),
    Chart.sync_events before = Ok events →
    Chart.int (Chart.mul bad (Chart.of_int 1000)) = Raise e →
    Chart.generate_notes_chart song_name (before ++ bad :: after) ""
    = (Chart.header song_name
         +:+ Chart.nl +:+ "[SyncTrack]" +:+ Chart.nl +:+ "{" +:+ Chart.nl
         +:+ sync_lines events, Raise e).
Proof.
  intros song_name before after bad events e Hev Hbad.
  unfold Chart.generate_notes_chart, try_except, bind at 1, Chart.f_write at 1, modify.
  unfold bind at 1, Chart.f_write at 1, modify.
  unfold bind at 1. rewrite (write_beats_stops _ _ _ _ _ _ Hev Hbad).
  unfold raise. cbn [append]. rewrite !append_assoc. reflexivity.
Qed.

Lemma chart_left_unfinished_on_bad_beat_witness :
  Chart.generate_notes_chart "Demo"
    ([Chart.decimal 500 1000] ++ S754_infinity false :: [Chart.decimal 1 1]) ""
  = (Chart.header "Demo"
       +:+ Chart.nl +:+ "[SyncTrack]" +:+ Chart.nl +:+ "{" +:+ Chart.nl
       +:+ sync_lines [500], Raise OverflowError).
Proof.
  apply chart_left_unfinished_on_bad_beat; vm_compute; reflexivity.
Defined.


(* ===================================================================== *)
(* theorems *)


Section Queries.

Import Query.

#[local] Instance id_desc_trans : Transitive id_desc.
Proof. intros x y z. unfold id_desc. lia. Qed.

#[local] Instance id_desc_total : Total id_desc.
Proof. intros x y. unfold id_desc. lia. Qed.

Lemma order_by_id_desc_sorted rows : StronglySorted id_desc (order_by_id_desc rows).
Proof. apply StronglySorted_merge_sort; apply _. Qed.

Lemma order_by_id_desc_elem rows row : row ∈ order_by_id_desc rows ↔ row ∈ rows.
Proof. unfold order_by_id_desc. by rewrite merge_sort_Permutation. Qed.

Lemma StronglySorted_take_drop {A} (R : relation A) (l : list A) n m :
  StronglySorted R l → StronglySorted R (take n (drop m l)).
Proof.
  intros Hl. rewrite <- (take_drop m l) in Hl. apply StronglySorted_app_1_r in Hl.
  rewrite <- (take_drop n (drop m l)) in Hl. by apply StronglySorted_app_1_l in Hl.
Qed.

Lemma fetch_content_from_db_run skip limit db :
  fetch_content_from_db skip limit db
  = (db, Return (if Db.pool_up db && (0 <=? skip) && (0 <=? limit)
                 then row_dict <$> take (Z.to_nat limit)
                                     (drop (Z.to_nat skip) (order_by_id_desc (Db.songs db)))
                 else [])).
Proof.
  unfold fetch_content_from_db, py_try, py_bind, call, Db.get_connection, gets, limit_offset.
  destruct (Db.pool_up db); [| reflexivity]. cbn [andb].
  destruct (Z.ltb_spec skip 0) as [Hs|Hs].
  { rewrite (proj2 (Z.leb_gt _ _)) by lia. reflexivity. }
  rewrite (proj2 (Z.leb_le _ _)) by lia.
  destruct (Z.ltb_spec limit 0) as [Hl|Hl].
  { rewrite (proj2 (Z.leb_gt _ _)) by lia. reflexivity. }
  rewrite (proj2 (Z.leb_le _ _)) by lia. reflexivity.
Qed.

End Queries.

(** X14.  [fetch_content_from_db] never raises and leaves the table as
    it is; the page it returns has at most [limit] rows, all of them
    rows of the table, in descending order of identifier; with the
    pool down or a negative [skip] or [limit] the page is empty. *)
Theorem fetch_content_from_db_page :
  ∀ (skip limit : Z) (db : Db.database),
    let '(db', r) := Query.fetch_content_from_db skip limit db in
    db' = db
    ∧ ∃ page, r = Return page
        ∧ (length page ≤ Z.to_nat limit)%nat
        ∧ (∀ d, d ∈ page → ∃ row, row ∈ Db.songs db ∧ d = Query.row_dict row)
        ∧ StronglySorted Query.id_desc page
        ∧ (Db.pool_up db = false ∨ skip < 0 ∨ limit < 0 → page = []).
Proof.
  intros skip limit db. rewrite fetch_content_from_db_run.
  split; [reflexivity |]. eexists. split; [reflexivity |].
  destruct (Db.pool_up db && (0 <=? skip) && (0 <=? limit)) eqn:Hok.
  - split; [| split; [| split]].
    + rewrite length_fmap, length_take. lia.
    + intros d Hd. apply list_elem_of_fmap in Hd as (row & -> & Hrow).
      exists row. split; [| reflexivity].
      apply order_by_id_desc_elem.
      eapply elem_of_sublist; [exact Hrow |].
      etrans; [apply sublist_take | apply sublist_drop].
    + apply (StronglySorted_fmap _ Query.id_desc); [intros x y H; exact H |].
      apply StronglySorted_take_drop, order_by_id_desc_sorted.
    + apply andb_true_iff in Hok as [Hok Hl]. apply andb_true_iff in Hok as [Hup Hs].
      apply Z.leb_le in Hs, Hl. intros [Hdown|[?|?]]; [congruence | lia | lia].
  - split; [cbn; lia |]. split; [intros d Hd; by apply elem_of_nil in Hd |].
    split; [constructor | reflexivity].
Qed.

(** X15.  Pages of [fetch_content_from_db] join up: for non-negative
    [skip], [a] and [b], the page of [a] rows at [skip] followed by
    the page of [b] rows at [skip + a] is the page of [a + b] rows at
    [skip]. *)
Theorem fetch_content_from_db_pages_join :
  ∀ (skip a b : Z) (db : Db.database),
    0 ≤ skip → 0 ≤ a → 0 ≤ b →
    page_of (Query.fetch_content_from_db skip a db).2
      ++ page_of (Query.fetch_content_from_db (skip + a) b db).2
    = page_of (Query.fetch_content_from_db skip (a + b) db).2.
Proof.
  intros skip a b db Hs Ha Hb. rewrite !fetch_content_from_db_run. cbn [snd page_of].
  destruct (Db.pool_up db); [| reflexivity]. cbn [andb].
  rewrite !(proj2 (Z.leb_le _ _)) by lia. cbn [andb].
  rewrite <- fmap_app. f_equal.
  rewrite Z2Nat.inj_add by lia. rewrite <- drop_drop.
  rewrite Z2Nat.inj_add by lia. apply take_take_drop.
Qed.


Lemma fetch_content_from_db_pages_join_witness :
  page_of (Query.fetch_content_from_db 0 1 db_three_songs).2
    ++ page_of (Query.fetch_content_from_db (0 + 1) 2 db_three_songs).2
  = page_of (Query.fetch_content_from_db 0 (1 + 2) db_three_songs).2.
Proof. apply fetch_content_from_db_pages_join; lia. Defined.

Lemma delete_song_by_id_run song_id db :
  Query.delete_song_by_id song_id db
  = match (if Db.pool_up db
           then head (filter (fun r => Db.id r = song_id) (Db.songs db))
           else None) with
    | Some _ =>
        ({| Db.pool_up := Db.pool_up db;
            Db.songs := filter (fun r => Db.id r ≠ song_id) (Db.songs db);
            Db.songs_id_seq := Db.songs_id_seq db |}, Ok true)
    | None => (db, Ok false)
    end.
Proof.
  unfold Query.delete_song_by_id, try_except, bind, Db.get_connection, gets, modify, ret.
  destruct (Db.pool_up db) eqn:Hup; [| reflexivity].
  destruct (head _); cbn; rewrite ?Hup; reflexivity.
Qed.

Lemma head_filter_id song_id (rows : list Db.song_row) :
  match head (filter (fun r => Db.id r = song_id) rows) with
  | Some _ => ∃ row, row ∈ rows ∧ Db.id row = song_id
  | None => ∀ row, row ∈ rows → Db.id row ≠ song_id
  end.
Proof.
  destruct (head _) as [row|] eqn:Hhead.
  - apply head_Some_elem_of, list_elem_of_filter in Hhead as [Hid Hin]. eauto.
  - intros row Hin Hid.
    assert (Hnil : filter (fun r => Db.id r = song_id) rows = []).
    { destruct (filter _ rows); [reflexivity | discriminate]. }
    exact (filter_nil_not_elem_of _ _ _ Hnil Hid Hin).
Qed.

(** X16.  [delete_song_by_id] never raises.  It returns [True] exactly
    when the storage layer answers and the table has a row with the
    identifier; then that row is gone, the other rows stay in their
    order and the sequence is not reset.  When it returns [False]
    nothing has changed. *)
Theorem delete_song_by_id_removes_the_row :
  ∀ (song_id : Z) (db : Db.database),
    let '(db', r) := Query.delete_song_by_id song_id db in
    ∃ deleted, r = Ok deleted
      ∧ (deleted = true ↔
         Db.pool_up db = true ∧ ∃ row, row ∈ Db.songs db ∧ Db.id row = song_id)
      ∧ (if deleted
         then Db.songs db' = filter (fun row => Db.id row ≠ song_id) (Db.songs db)
              ∧ Db.pool_up db' = Db.pool_up db
              ∧ Db.songs_id_seq db' = Db.songs_id_seq db
         else db' = db).
Proof.
  intros song_id db. rewrite delete_song_by_id_run.
  pose proof (head_filter_id song_id (Db.songs db)) as Hrows.
  destruct (Db.pool_up db) eqn:Hup.
  - destruct (head _) as [row|].
    + exists true. split; [reflexivity |]. split; [| cbn; auto].
      split; [auto | reflexivity].
    + exists false. split; [reflexivity |]. split; [| reflexivity].
      split; [discriminate |]. intros (_ & row & Hin & Hid). by destruct (Hrows row Hin).
  - exists false. split; [reflexivity |]. split; [| reflexivity].
    split; [discriminate | intros [? _]; discriminate].
Qed.

(** X17.  [DELETE /songs/{song_id}] answers with the success message
    when the song was there and has been deleted, and with status 500
    otherwise: the [HTTPException] with status 404 is raised inside
    the [try] and replaced by the handler, so no client sees it. *)
Theorem delete_song_never_answers_not_found :
  ∀ (song_id : Z) (db : Db.database),
    let '(db', r) := delete_song song_id db in
    (r = Return ("✅ Song ID " +:+ pretty song_id +:+ " deleted successfully.")
     ∧ Db.pool_up db = true
     ∧ (∃ row, row ∈ Db.songs db ∧ Db.id row = song_id)
     ∧ Db.songs db' = filter (fun row => Db.id row ≠ song_id) (Db.songs db))
    ∨ (r = Throw (HTTPException 500 (Message "Error deleting song"))
       ∧ db' = db
       ∧ (Db.pool_up db = false ∨ ∀ row, row ∈ Db.songs db → Db.id row ≠ song_id)).
Proof.
  intros song_id db.
  unfold delete_song, py_try, py_bind, call. rewrite delete_song_by_id_run.
  pose proof (head_filter_id song_id (Db.songs db)) as Hrows.
  destruct (Db.pool_up db) eqn:Hup.
  - destruct (head _) as [row|]; cbn.
    + left. auto.
    + right. auto.
  - right. cbn. auto.
Qed.

(** X18.  [GET /health] answers with status ok and database ok when the
    database is reachable; when it is not, the [HTTPException] with
    status 503 and the degraded health dict is replaced by status 500,
    so the degraded report is never sent.  The table is not touched. *)
Theorem health_check_never_reports_degraded :
  ∀ (uptime : Chart.float64) (version : string) (db : Db.database),
    health_check uptime version db
    = (db, if Db.pool_up db
           then Return {| h_status := "ok"; h_database := "ok";
                          h_uptime_seconds := uptime; h_version := version |}
           else Throw (HTTPException 500 (Message "Health check failed"))).
Proof.
  intros uptime version db.
  unfold health_check, py_try, py_bind, call, Query.check_database, try_except, bind,
    Db.get_connection.
  destruct (Db.pool_up db); reflexivity.
Qed.

Lemma slice_nil {A} (start stop : Z) : slice (@nil A) start stop = [].
Proof. unfold slice. by rewrite drop_nil, take_nil. Qed.

(** X19.  [list_all_content] returns the empty list whatever the table
    holds: the [async with] on the context manager of [get_connection]
    raises [TypeError], which the function turns into the empty list.
    So [GET /content/] reports a total of 0 for every [skip] and
    [limit]. *)
Theorem list_content_is_always_empty :
  ∀ (skip limit : Z) (db : Db.database),
    Query.list_all_content db = (db, Return [])
    ∧ list_content skip limit db
      = (db, Return {| page_total := 0; page_returned := 0; page_content := [] |}).
Proof.
  intros skip limit db.
  assert (Hall : Query.list_all_content db = (db, Return [])) by reflexivity.
  split; [exact Hall |].
  unfold list_content, py_try, py_bind. rewrite Hall.
  unfold py_ret. by rewrite slice_nil.
Qed.




(* ------------------------------------------------------------------ *)

Section UploadSize.

Lemma count_chunks_total {S} (chunks : list Z) (acc : Z) (s : S) :
  Forall (fun chunk => 0 ≤ chunk) chunks → acc ≤ MAX_FILE_SIZE_BYTES →
  count_chunks chunks acc s
  = (s, if MAX_FILE_SIZE_BYTES <? acc + foldr Z.add 0 chunks
        then Throw (HTTPException 413
                      (Message ("File too large (max " +:+ pretty MAX_FILE_SIZE_GB +:+ "GB)")))
        else Return tt).
Proof.
  intros Hpos. revert acc. induction Hpos as [|chunk rest Hc Hrest IH]; intros acc Hacc.
  - cbn. rewrite Z.add_0_r. by rewrite (proj2 (Z.ltb_ge _ _)) by lia.
  - cbn [count_chunks foldr].
    assert (Hsum : 0 ≤ foldr Z.add 0 rest).
    { clear -Hrest. induction Hrest; cbn; lia. }
    destruct (Z.ltb_spec MAX_FILE_SIZE_BYTES (acc + chunk)) as [Hbig|Hsmall].
    + by rewrite (proj2 (Z.ltb_lt _ _)) by lia.
    + rewrite (IH _ Hsmall). by rewrite Z.add_assoc.
Qed.

Lemma chunk_lengths_sum chunk_size file :
  0 < chunk_size → 0 ≤ file_size file →
  Forall (fun chunk => 0 ≤ chunk) (chunk_lengths chunk_size file)
  ∧ foldr Z.add 0 (chunk_lengths chunk_size file) = file_size file.
Proof.
  intros Hc Hs. unfold chunk_lengths.
  pose proof (Z.div_mod (file_size file) chunk_size ltac:(lia)) as Hdm.
  pose proof (Z.mod_pos_bound (file_size file) chunk_size Hc) as Hm.
  pose proof (Z.div_pos (file_size file) chunk_size Hs Hc) as Hd.
  assert (Hrep : ∀ n tail, foldr Z.add 0 (replicate n chunk_size ++ tail)
                           = Z.of_nat n * chunk_size + foldr Z.add 0 tail).
  { intros n tail. induction n as [|n IH]; [cbn; lia |].
    cbn [replicate app foldr]. rewrite IH. lia. }
  split.
  - apply Forall_app. split.
    + apply Forall_replicate. lia.
    + destruct (_ =? 0); repeat constructor. lia.
  - rewrite Hrep, Z2Nat.id by lia.
    destruct (Z.eqb_spec (file_size file mod chunk_size) 0) as [H0|H0]; cbn; lia.
Qed.

End UploadSize.

(** X20.  [validate_file_size] raises the [HTTPException] with status
    413 exactly when the upload has more bytes than
    [MAX_FILE_SIZE_BYTES], ten gibibytes; it has no other effect. *)
Theorem validate_file_size_limit :
  ∀ (S : Type) (file : UploadFile) (s : S),
    0 ≤ file_size file →
    validate_file_size file s
    = (s, if MAX_FILE_SIZE_BYTES <? file_size file
          then Throw (HTTPException 413 (Message "File too large (max 10GB)"))
          else Return tt).
Proof.
  intros S file s Hsize. unfold validate_file_size.
  destruct (chunk_lengths_sum (1024 * 1024) file ltac:(lia) Hsize) as [Hpos Hsum].
  rewrite (count_chunks_total _ 0 s Hpos) by (vm_compute; discriminate).
  rewrite Hsum, Z.add_0_l. reflexivity.
Qed.

Lemma validate_file_size_limit_witness :
  validate_file_size
    {| filename := "pack.zip"; file_size := 10 * 1024 * 1024 * 1024 + 1; file_data := pack_plain_only |}
    tt
  = (tt, if MAX_FILE_SIZE_BYTES <? 10 * 1024 * 1024 * 1024 + 1
         then Throw (HTTPException 413 (Message "File too large (max 10GB)"))
         else Return tt).
Proof.
  apply (validate_file_size_limit unit
           {| filename := "pack.zip"; file_size := 10 * 1024 * 1024 * 1024 + 1;
              file_data := pack_plain_only |} tt).
  cbn. lia.
Defined.

(* ------------------------------------------------------------------ *)

Lemma remove_temp_file_gone temp_file_path w w' :
  remove_temp_file temp_file_path w = (w', Return tt) →
  Fs.lookup (w_fs w') (Fs.resolve (Path.of_string temp_file_path)) = None
  ∧ w_db w' = w_db w.
Proof.
  unfold remove_temp_file, py_try, call, os_remove, fs_call, Fs.remove.
  destruct (Fs.lookup (w_fs w) (Fs.resolve (Path.of_string temp_file_path)))
    as [[|d]|] eqn:Hlook.
  - discriminate.
  - intros [= <-]. cbn [with_fs w_fs w_db]. split; [| reflexivity].
    destruct (Fs.resolve (Path.of_string temp_file_path)) as [|c p] eqn:Hp;
      [discriminate |].
    cbn [Fs.lookup]. apply lookup_delete_eq.
  - intros [= <-]. auto.
Qed.

(** The body of the [try] of [upload_content] never raises, and what it
    returns is the error reply or a dict of the processing functions. *)
Lemma upload_body_reply file content_type temp_file_path w w1 out :
  py_try
    (perform call (save_file (Path.of_string temp_file_path) (file_data file)) then
     let+ result := call (extract_content temp_file_path content_type) in
     let+ result :=
       if decide (content_type = "songs") then
         let+ stored_content :=
           call (process_and_store_content (Path.of_string temp_file_path)
                   content_type) in
         py_ret (RStored stored_content)
       else py_ret result in
     if negb (is_dict result) then throw (Service ValueError)
     else py_ret (Processed result))
    (fun e => py_ret InternalServerError) w = (w1, out) →
  out = Return InternalServerError
  ∨ content_type ≠ "songs"
    ∧ ∃ result, out = Return (Processed result) ∧ is_dict result = true.
Proof.
  unfold py_try, py_bind at 1, call at 1.
  destruct (save_file _ _ w) as [w2 [[]|e]]; [| intros [= _ <-]; by left].
  unfold py_bind at 1, call at 1.
  destruct (extract_content _ _ w2) as [w3 [result|e]]; [| intros [= _ <-]; by left].
  unfold py_bind at 1.
  destruct (decide (content_type = "songs")) as [Hsongs|Hsongs].
  - unfold py_bind at 1, call at 1.
    destruct (process_and_store_content _ _ w3) as [w4 [l|e]];
      intros [= _ <-]; by left.
  - cbn [py_ret]. destruct (is_dict result) eqn:Hdict; cbn [negb].
    + intros [= _ <-]. right. eauto.
    + intros [= _ <-]. by left.
Qed.

(** X21.  [POST /upload_content/] never hands the list of stored songs
    to the client.  Whenever it returns, the body is the internal
    server error reply, or, for a content type other than songs, a
    dict of [extract_content]; for songs it is always the error reply.
    And whenever it returns, the temporary file of the upload is
    gone. *)
Theorem upload_content_never_returns_the_stored_songs :
  ∀ (file : UploadFile) (content_type : string) (w w' : world) (reply : upload_reply),
    upload_content file content_type w = (w', Return reply) →
    (reply = InternalServerError
     ∨ content_type ≠ "songs"
       ∧ ∃ result, reply = Processed result ∧ ∀ l, result ≠ RStored l)
    ∧ Fs.lookup (w_fs w') (temp_file_of file w) = None.
Proof.
  intros file content_type w w' reply. unfold upload_content.
  destruct (decide (content_type ∉ ALLOWED_CONTENT_TYPES)) as [_|_]; [discriminate |].
  unfold py_bind at 1.
  destruct (validate_file_size file w) as [w0 [[]|e]] eqn:Hsize; [| discriminate].
  assert (w0 = w) as ->.
  { clear -Hsize. unfold validate_file_size in Hsize. revert Hsize.
    generalize (chunk_lengths (1024 * 1024) file), 0.
    intros chunks. induction chunks as [|chunk rest IH]; intros acc; cbn [count_chunks].
    - by intros [= ->].
    - destruct (_ <? _); [discriminate | apply IH]. }
  unfold py_bind at 1, validate_file_extension.
  destruct (decide (_ ∉ ALLOWED_EXTENSIONS)) as [_|_]; [discriminate |].
  cbn [py_ret]. unfold py_bind at 1, call at 1, get_temp_file, bind. cbn [uuid4_hex ret].
  unfold py_finally.
  match goal with
  | |- context [py_try ?body ?handler ?w0] =>
      destruct (py_try body handler w0) as [w1 out] eqn:Hbody
  end.
  apply upload_body_reply in Hbody.
  destruct (remove_temp_file _ w1) as [w2 [[]|e]] eqn:Hclean; [| discriminate].
  intros [= <- ->]. split.
  - destruct Hbody as [[= ->]|(Hsongs & result & [= ->] & Hdict)]; [by left |].
    right. split; [exact Hsongs |]. exists result. split; [reflexivity |].
    intros l ->. discriminate.
  - exact (proj1 (remove_temp_file_gone _ _ _ Hclean)).
Qed.

Lemma upload_content_never_returns_the_stored_songs_witness :
  (InternalServerError = InternalServerError
   ∨ "songs" ≠ "songs"
     ∧ ∃ result, InternalServerError = Processed result ∧ ∀ l, result ≠ RStored l)
  ∧ Fs.lookup (w_fs (upload_content pack_upload "songs" (server_world (empty_db true))).1)
              (temp_file_of pack_upload (server_world (empty_db true))) = None.
Proof.
  refine (upload_content_never_returns_the_stored_songs pack_upload "songs"
            (server_world (empty_db true)) _ InternalServerError _).
  vm_compute. reflexivity.
Defined.

(** A good song pack uploaded as [songs]: the song is stored, and the
    client is told of an internal server error. *)
Example upload_of_a_good_pack :
  let '(w', r) := upload_content pack_upload "songs" (server_world (empty_db true)) in
  r = Return InternalServerError
  ∧ (∃ row, Db.songs (w_db w') = [row] ∧ Db.title row = "Test")
  ∧ EvStore "Test" "Band" "Demo" 1 ∈ w_trace w'.
Proof.
  vm_compute. split; [reflexivity | split; [eauto |]].
  repeat first [apply list_elem_of_here | apply list_elem_of_further].
Qed.




Section SongGeneratorFacts.

Variable librosa : option Fs.node → result beat_analysis.

Lemma save_file_db db p d : preserves (db_is db) (save_file p d).
Proof. apply fs_call_db. Qed.

Lemma process_song_file_db db file_path :
  preserves (db_is db) (process_song_file librosa file_path).
Proof.
  unfold process_song_file.
  apply preserves_try_except; [| intros; apply preserves_ret].
  apply preserves_bind.
  { unfold analyze_audio. apply preserves_try_except; [| intros; apply preserves_raise].
    apply preserves_bind; [apply preserves_gets | intros; apply preserves_lift_result]. }
  intros [tempo beat_times].
  apply preserves_bind; [apply fs_call_db |]. intros _.
  apply preserves_bind; [| intros; apply preserves_ret].
  unfold generate_notes_chart.
  apply preserves_bind; [apply save_file_db | intros; apply preserves_lift_result].
Qed.

Lemma process_song_file_answers file_path w :
  ∃ reply, (process_song_file librosa file_path w).2 = Ok reply.
Proof.
  unfold process_song_file, try_except.
  match goal with
  | |- context [match ?run with _ => _ end] => destruct run as [w1 [reply|e]]
  end; cbn; eauto.
Qed.

End SongGeneratorFacts.

(** X22.  [process_song_file] never raises and never touches the songs
    table: the [store_content] call only makes a coroutine that nobody
    awaits.  When it reports success, the chart written by
    [generate_notes_chart] is in [notes.chart] under the folder named
    after the upload's stem. *)
Theorem process_song_file_stores_nothing :
  ∀ (librosa : option Fs.node → result beat_analysis) (file_path : string) (w : world),
    let '(w', r) := process_song_file librosa file_path w in
    (∃ reply, r = Ok reply)
    ∧ w_db w' = w_db w
    ∧ (∀ message notes_chart tempo,
         r = Ok (SongProcessed message notes_chart tempo) →
         ∃ beat_times text,
           Chart.generate_notes_chart (stem (Path.of_string file_path)) beat_times ""
           = (text, Ok tt)
           ∧ notes_chart
             = Path.to_string
                 (Path.joinpath (Path.joinpath OUTPUT_DIR (stem (Path.of_string file_path)))
                    "notes.chart")
           ∧ w_fs w' !! Fs.resolve
                 (Path.joinpath (Path.joinpath OUTPUT_DIR (stem (Path.of_string file_path)))
                    "notes.chart")
             = Some (Fs.File (Fs.Plain (Fs.Blob text)))).
Proof.
  intros librosa file_path w.
  pose proof (process_song_file_answers librosa file_path w) as Hans.
  pose proof (process_song_file_db librosa (w_db w) file_path w) as Hdb.
  destruct (process_song_file librosa file_path w) as [w' r] eqn:Hrun.
  split; [exact Hans |]. split; [exact (Hdb w' r eq_refl eq_refl) |].
  intros message notes_chart tempo ->. revert Hrun.
  unfold process_song_file, try_except, bind at 1.
  destruct (analyze_audio librosa file_path w) as [w1 [[tempo' beat_times]|e]];
    [| cbn; discriminate].
  unfold bind at 1.
  destruct (mkdir _ w1) as [w2 [[]|e]]; [| cbn; discriminate].
  unfold bind at 1, generate_notes_chart at 1, bind at 1, save_file, fs_call.
  destruct (open_write _ _ (w_fs w2)) as [fs3|e] eqn:Hopen; [| cbn; discriminate].
  unfold lift_result.
  destruct (Chart.generate_notes_chart _ beat_times "") as [text [[]|e]] eqn:Hchart;
    cbn [fst snd]; [| cbn; discriminate].
  cbn [ret]. intros [= <- <- <-]. exists beat_times, text.
  split; [exact Hchart | split; [reflexivity |]].
  cbn [with_fs w_fs]. revert Hopen. unfold open_write.
  destruct (Fs.blocked _ _); [discriminate |].
  destruct (Fs.is_dir (w_fs w2) _); [discriminate |].
  destruct (Fs.is_dir (w_fs w2) _); [| discriminate].
  intros [= <-]. apply lookup_insert_eq.
Qed.

(** X23.  [POST /process_song/] never answers with success: it awaits
    the dict that [process_song_file] returned, and the [TypeError] of
    that becomes status 500.  The outcomes are status 400 for an
    unsupported format, with nothing changed, status 500, or the
    exception of the cleanup. *)
Theorem process_song_route_never_succeeds :
  ∀ (librosa : option Fs.node → result beat_analysis) (file : UploadFile) (w : world),
    let '(w', r) := process_song librosa file w in
    (∃ msg, r = Throw (HTTPException 400 (Message msg)) ∧ w' = w)
    ∨ r = Throw (HTTPException 500 (Message "Error saving uploaded file."))
    ∨ r = Throw (HTTPException 500
                   (Message "Internal server error during song processing."))
    ∨ ∃ p, r = Throw (Service (IsADirectoryError p)).
Proof.
  intros librosa file w. unfold process_song, py_bind at 1, save_uploaded_file.
  destruct (decide (_ ∉ SUPPORTED_FORMATS)) as [_|_]; [left; eauto |].
  unfold py_bind at 1, call at 1. cbn [uuid4_hex].
  unfold py_try at 1, py_bind at 1, call at 1.
  destruct (save_file _ _ _) as [w1 [[]|e]]; [| right; by left].
  cbn [py_ret]. unfold py_finally, py_try at 1, py_bind at 1, py_bind at 1, call at 1.
  destruct (process_song_file librosa _ w1) as [w2 [reply|e]].
  - cbn [await_dict throw].
    unfold remove_temp_file, py_try, call, os_remove, fs_call, Fs.remove.
    destruct (Fs.lookup (w_fs w2) _) as [[|d]|]; cbn; eauto 6.
  - cbn [throw].
    unfold remove_temp_file, py_try, call, os_remove, fs_call, Fs.remove.
    destruct (Fs.lookup (w_fs w2) _) as [[|d]|]; cbn; eauto 6.
Qed.

(** An upload in a supported format on a server whose generator folder
    exists: the chart is written, and the route answers with status 500. *)
Example process_song_of_a_good_file :
  let '(w', r) := process_song two_beats song_upload generator_world in
  r = Throw (HTTPException 500 (Message "Internal server error during song processing."))
  ∧ (∃ text, w_fs w' !! ["app"; "data"; "clonehero_content"; "generator";
                          "3f9a1c0de4b7425a8c6e0f1d2b3a4c5d"; "notes.chart"]
             = Some (Fs.File (Fs.Plain (Fs.Blob text))))
  ∧ Db.songs (w_db w') = [].
Proof. vm_compute. split; [reflexivity | split; [eauto | reflexivity]]. Qed.
Section FilesSurvive.

Import Fs.

(** A successful [mkdir] or write leaves every regular file other than
    the one written as it is. *)
Lemma in_ancestors_blocked (fs : gmap (list string) Fs.node) p t x :
  fs !! t = Some (File x) → t ∈ ancestors p → blocked fs p ≠ None.
Proof.
  intros Ht Hin Hnone.
  destruct (ancestors_spec _ _ Hin) as (_ & _ & Hne).
  pose proof (blocked_None fs p Hnone t Hin) as Hfile.
  unfold is_file, lookup in Hfile. destruct t; [done |]. by rewrite Ht in Hfile.
Qed.

Lemma write_file_other (fs fs' : gmap (list string) Fs.node) p y t x :
  Fs.write_file p y fs = Ok fs' →
  fs !! t = Some (File x) → t ≠ resolve p → fs' !! t = Some (File x).
Proof.
  unfold Fs.write_file.
  destruct (blocked fs (resolve p)) eqn:Hblocked; [discriminate |].
  destruct (is_dir fs (resolve p)); [discriminate |].
  intros [= <-] Ht Hne. rewrite lookup_insert_ne by done.
  rewrite make_dirs_lookup.
  destruct (decide (t ∈ ancestors (resolve p))) as [Hin|_]; [| exact Ht].
  by destruct (in_ancestors_blocked fs _ t x Ht Hin).
Qed.

Lemma write_file_target (fs fs' : gmap (list string) Fs.node) p y :
  Fs.write_file p y fs = Ok fs' → fs' !! resolve p = Some (File y).
Proof.
  unfold Fs.write_file.
  destruct (blocked fs (resolve p)); [discriminate |].
  destruct (is_dir fs (resolve p)); [discriminate |].
  intros [= <-]. apply lookup_insert_eq.
Qed.

Lemma mkdir_parents_other (fs fs' : gmap (list string) Fs.node) p t x :
  Fs.mkdir_parents p fs = Ok fs' →
  fs !! t = Some (File x) → fs' !! t = Some (File x).
Proof.
  intros Hmk Ht.
  unfold Fs.mkdir_parents in Hmk.
  destruct (blocked fs (resolve p)) eqn:Hblocked; [discriminate |].
  destruct (is_file fs (resolve p)) eqn:Hfile; [discriminate |].
  injection Hmk as <-. rewrite make_dirs_lookup.
  destruct (decide (t ∈ prefixes (resolve p))) as [Hin|_]; [| exact Ht].
  destruct (prefixes_spec _ _ Hin) as (_ & Hne & [->|Hanc]).
  - unfold is_file, lookup in Hfile. destruct (resolve p); [done |]. by rewrite Ht in Hfile.
  - by destruct (in_ancestors_blocked fs _ t x Ht Hanc).
Qed.

End FilesSurvive.

Section ZipRoundTrip.

Variable extract_dir : Path.t.

Lemma zip_target filename :
  Fs.resolve (extract_dir ++ zipfile.arcname filename)
  = Fs.resolve extract_dir ++ zipfile.arcname filename.
Proof. apply resolve_app_plain, arcname_plain. Qed.

(** Later members of a successful extraction leave a file alone unless
    one of them has its name. *)
Lemma extract_members_keep members w w' t x :
  zipfile.extract_members extract_dir members w = (w', Ok tt) →
  w_fs w !! t = Some (Fs.File x) →
  (∀ member, member ∈ members →
     Fs.resolve extract_dir ++ zipfile.arcname member.1 ≠ t) →
  w_fs w' !! t = Some (Fs.File x).
Proof.
  revert w. induction members as [|member rest IH]; intros w.
  - by intros [= <-].
  - cbn [zipfile.extract_members]. unfold bind at 1.
    destruct (zipfile.extract_member extract_dir member w) as [w1 [[]|e]] eqn:Hone;
      [| discriminate].
    intros Hrest Ht Hnames. apply (IH w1 Hrest).
    + assert (Hne : t ≠ Fs.resolve (extract_dir ++ zipfile.arcname member.1)).
      { rewrite zip_target. intros Heq.
        exact (Hnames member (list_elem_of_here _ _) (eq_sym Heq)). }
      revert Hone. unfold zipfile.extract_member.
      destruct (zipfile.is_dir member.1).
      * unfold mkdir, fs_call.
        destruct (Fs.mkdir_parents _ (w_fs w)) as [fs1|e] eqn:Hmk; [| discriminate].
        intros [= <-]. cbn [with_fs w_fs]. by eapply mkdir_parents_other.
      * destruct (zipfile.arcname member.1) eqn:Harc; [discriminate |]. rewrite <- Harc in *.
        destruct member.2 as [c|].
        -- unfold write_file, fs_call.
           destruct (Fs.write_file _ _ (w_fs w)) as [fs1|e] eqn:Hwr; [| discriminate].
           intros [= <-]. cbn [with_fs w_fs]. by eapply write_file_other.
        -- unfold bind. destruct (write_file _ _ w) as [w2 [[]|e]]; discriminate.
    + intros m Hm. by apply Hnames, list_elem_of_further.
Qed.

Lemma extract_members_put members :
  ∀ w w' i name c,
    zipfile.extract_members extract_dir members w = (w', Ok tt) →
    members !! i = Some (name, Some c) →
    zipfile.is_dir name = false →
    (∀ j member, (i < j)%nat → members !! j = Some member →
       zipfile.arcname member.1 ≠ zipfile.arcname name) →
    w_fs w' !! (Fs.resolve extract_dir ++ zipfile.arcname name)
    = Some (Fs.File (Fs.Plain c)).
Proof.
  induction members as [|member rest IH]; intros w w' i name c; [done |].
  cbn [zipfile.extract_members]. unfold bind at 1.
  destruct (zipfile.extract_member extract_dir member w) as [w1 [[]|e]] eqn:Hone;
    [| discriminate].
  intros Hrest Hi Hfile Hlater. destruct i as [|i].
  - injection Hi as ->. apply (extract_members_keep rest w1 w' _ _ Hrest).
    + revert Hone. unfold zipfile.extract_member. cbn [fst snd]. rewrite Hfile.
      destruct (zipfile.arcname name) eqn:Harc; [discriminate |]. rewrite <- Harc.
      unfold write_file, fs_call.
      destruct (Fs.write_file _ _ (w_fs w)) as [fs1|e] eqn:Hwr; [| discriminate].
      intros [= <-]. cbn [with_fs w_fs]. rewrite <- zip_target.
      by eapply write_file_target.
    + intros m Hm Heq. apply list_elem_of_lookup in Hm as [j Hj].
      apply (Hlater (S j) m); [lia | exact Hj | by eapply app_inv_head].
  - apply (IH w1 w' i name c Hrest Hi Hfile).
    intros j m Hj Hm. apply (Hlater (S j) m); [lia | exact Hm].
Qed.

End ZipRoundTrip.

(** X24.  After a successful extraction of a .zip archive, every file
    member whose data could be read is on disk with that data, below
    the extraction directory at its name without the empty, [.] and
    [..] segments, provided no later member has the same cleaned
    name. *)
Theorem zip_members_land_at_their_names :
  ∀ (file_path extract_dir : Path.t) (w w' : world)
    (members : list (string * option Fs.content)),
    Fs.lookup (w_fs w) (Fs.resolve file_path) = Some (Fs.File (Fs.ZipFile members)) →
    extract_archive file_path extract_dir ".zip" w = (w', Ok RSuccess) →
    ∀ (i : nat) (name : string) (c : Fs.content),
      members !! i = Some (name, Some c) →
      zipfile.is_dir name = false →
      (∀ j member, (i < j)%nat → members !! j = Some member →
         zipfile.arcname member.1 ≠ zipfile.arcname name) →
      w_fs w' !! (Fs.resolve extract_dir ++ zipfile.arcname name)
      = Some (Fs.File (Fs.Plain c)).
Proof.
  intros file_path extract_dir w w' members Harchive.
  unfold extract_archive, try_except.
  rewrite decide_True by reflexivity.
  unfold bind at 1, zipfile.extractall, bind at 1, gets. rewrite Harchive.
  destruct (zipfile.extract_members extract_dir members w) as [w1 [[]|e]] eqn:Hrun;
    [| discriminate].
  cbn [ret]. intros [= <-] i name c Hi Hfile Hlater.
  by eapply extract_members_put.
Qed.

Lemma zip_members_land_at_their_names_witness :
  w_fs (extract_archive ["tmp"; "upload.zip"] ["tmp"; "extract_3f9a1c"] ".zip"
          (upload_world (empty_db true) evil_zip)).1
    !! (Fs.resolve ["tmp"; "extract_3f9a1c"] ++ zipfile.arcname "/etc/cron.d/evil")
  = Some (Fs.File (Fs.Plain (Fs.Blob "y"))).
Proof.
  refine (zip_members_land_at_their_names ["tmp"; "upload.zip"] ["tmp"; "extract_3f9a1c"]
            (upload_world (empty_db true) evil_zip) _ _ _ _ 1%nat "/etc/cron.d/evil"
            (Fs.Blob "y") _ _ _).
  - vm_compute. reflexivity.
  - vm_compute. reflexivity.
  - reflexivity.
  - reflexivity.
  - intros j member Hj Hm. destruct j as [|[|j]]; [lia | lia | discriminate].
Defined.
Section StartUp.

Import startup.

Lemma create_db_pool_attempts_spec retries delay :
  0 ≤ delay →
  ∀ st,
    let '(st', r) := create_db_pool_attempts retries delay st in
    r = Return tt
    ∧ pool_opens st' = pool_opens st
    ∧ ∃ failures,
        (failures ≤ retries)%nat
        ∧ (∀ i, (i < failures)%nat → pool_opens st (attempts st + i)%nat = false)
        ∧ slept st' = slept st ++ replicate failures (IntSeconds delay)
        ∧ (pool_opens st (attempts st + failures)%nat = true
           ∧ (failures < retries)%nat ∧ db_pool st' = true
           ∧ attempts st' = S (attempts st + failures)
           ∨ failures = retries ∧ db_pool st' = false
             ∧ attempts st' = (attempts st + failures)%nat).
Proof.
  intros Hdelay. induction retries as [|n IH]; intros st.
  - cbn. split; [reflexivity | split; [reflexivity |]]. exists 0%nat.
    split; [lia |]. split; [intros i Hi; lia |].
    split; [by rewrite app_nil_r |]. right. split; [reflexivity |]. split; [reflexivity | lia].
  - cbn [create_db_pool_attempts]. unfold py_bind at 1, py_try, py_bind at 1, open_pool.
    destruct (pool_opens st (attempts st)) eqn:Hopen.
    + cbn. split; [reflexivity | split; [reflexivity |]]. exists 0%nat.
      split; [lia |]. split; [intros i Hi; lia |].
      split; [by rewrite app_nil_r |]. left. rewrite Nat.add_0_r.
      split; [exact Hopen |]. split; [lia |]. split; [reflexivity | lia].
    + unfold py_bind at 1, time_sleep. rewrite (proj2 (Z.ltb_ge _ _)) by lia.
      cbn [py_ret].
      match goal with
      | |- context [create_db_pool_attempts n delay ?st0] =>
          specialize (IH st0);
          destruct (create_db_pool_attempts n delay st0) as [st' r]
      end.
      cbn [pool_opens attempts slept add_sleep] in IH.
      destruct IH as (-> & Horacle & failures & Hle & Hfail & Hslept & Hend).
      split; [reflexivity | split; [exact Horacle |]]. exists (S failures).
      split; [lia |]. split.
      { intros i Hi. destruct i as [|i]; [by rewrite Nat.add_0_r |].
        rewrite <- Nat.add_succ_comm. apply Hfail. lia. }
      split.
      { rewrite Hslept, <- app_assoc. reflexivity. }
      rewrite <- Nat.add_succ_comm.
      destruct Hend as [(Hok & Hlt & Hpool & Hatt)|(-> & Hpool & Hatt)].
      * left. split; [exact Hok |]. split; [lia |]. split; [exact Hpool | exact Hatt].
      * right. split; [reflexivity |]. split; [exact Hpool | exact Hatt].
Qed.

(** What leaves [execute_sql_file] is no database error, and the call
    does not sleep. *)
Lemma execute_sql_file_spec sql_file st :
  let '(st', r) := execute_sql_file sql_file st in
  slept st' = slept st
  ∧ ∀ e, r = Throw e → is_database_error e = false.
Proof.
  unfold execute_sql_file, py_try, py_bind, read_text.
  destruct (sql_files st !! sql_file) as [text|]; [| cbn; split; [done |]; by intros e [= <-]].
  destruct (negb (Str.truthy (Str.strip text))); [cbn; split; [done |]; discriminate |].
  unfold get_connection.
  destruct (db_pool st); cbn [negb];
    [| cbn; split; [done |]; by intros e [= <-]].
  unfold py_finally, py_try, execute_and_commit.
  destruct (sql_result st (Str.strip text)) as [e|].
  - cbn [throw py_ret].
    destruct (is_database_error e) eqn:He; cbn; split; try done.
    intros e' [= <-]. exact He.
  - cbn. split; [done | discriminate].
Qed.

End StartUp.

(** X25.  [create_db_pool] with a non-negative delay never raises.  It
    tries to open the pool until an attempt succeeds or [retries]
    attempts have failed, and sleeps [delay] seconds after every failed
    attempt, the last one included; [db_pool] is set exactly when an
    attempt succeeded. *)
Theorem create_db_pool_sleeps_after_each_failure :
  ∀ (retries delay : Z) (st : startup.server),
    0 ≤ delay →
    let '(st', r) := startup.create_db_pool retries delay st in
    r = Return tt
    ∧ ∃ failures,
        (failures ≤ Z.to_nat retries)%nat
        ∧ (∀ i, (i < failures)%nat →
             startup.pool_opens st (startup.attempts st + i)%nat = false)
        ∧ startup.slept st'
          = startup.slept st ++ replicate failures (startup.IntSeconds delay)
        ∧ (startup.pool_opens st (startup.attempts st + failures)%nat = true
           ∧ (failures < Z.to_nat retries)%nat ∧ startup.db_pool st' = true
           ∨ failures = Z.to_nat retries ∧ startup.db_pool st' = false).
Proof.
  intros retries delay st Hdelay. unfold startup.create_db_pool.
  pose proof (create_db_pool_attempts_spec (Z.to_nat retries) delay Hdelay st) as Hspec.
  destruct (startup.create_db_pool_attempts _ _ st) as [st' r].
  destruct Hspec as (Hr & _ & failures & Hle & Hfail & Hslept & Hend).
  split; [exact Hr |]. exists failures. split; [exact Hle |].
  split; [exact Hfail |]. split; [exact Hslept |]. tauto.
Qed.

Lemma create_db_pool_sleeps_after_each_failure_witness :
  let '(st', r) := startup.create_db_pool 5 5 server_at_boot in
  r = Return tt
  ∧ ∃ failures,
      (failures ≤ Z.to_nat 5)%nat
      ∧ (∀ i, (i < failures)%nat →
           startup.pool_opens server_at_boot (startup.attempts server_at_boot + i)%nat
           = false)
      ∧ startup.slept st'
        = startup.slept server_at_boot ++ replicate failures (startup.IntSeconds 5)
      ∧ (startup.pool_opens server_at_boot
           (startup.attempts server_at_boot + failures)%nat = true
         ∧ (failures < Z.to_nat 5)%nat ∧ startup.db_pool st' = true
         ∨ failures = Z.to_nat 5 ∧ startup.db_pool st' = false).
Proof.
  apply (create_db_pool_sleeps_after_each_failure 5 5 server_at_boot). lia.
Defined.

(** X26.  [wait_for_db] never retries and never sleeps.  With at least
    one attempt allowed it is [init_db], run once: [init_db] handles
    every database error itself, so the retry branch of [wait_for_db]
    is never taken and any other exception is raised again at once.
    With no attempt allowed it raises [RuntimeError] without doing
    anything. *)
Theorem wait_for_db_never_retries :
  ∀ (max_retries base_delay : Z) (st : startup.server),
    (0 < max_retries →
     startup.wait_for_db max_retries base_delay st = startup.init_db st)
    ∧ (max_retries ≤ 0 →
       startup.wait_for_db max_retries base_delay st
       = (st, Throw (Service (RuntimeError
                        "Database connection failed after multiple retries."))))
    ∧ startup.slept (startup.wait_for_db max_retries base_delay st).1 = startup.slept st.
Proof.
  intros max_retries base_delay st.
  pose proof (execute_sql_file_spec "/app/src/sql/schema.sql" st) as Hinit.
  fold startup.init_db in Hinit.
  assert (Hone : ∀ n, startup.wait_for_db_attempts (S n) 0 base_delay st = startup.init_db st).
  { intros n. cbn [startup.wait_for_db_attempts]. unfold py_bind at 1, py_try, py_bind at 1.
    destruct (startup.init_db st) as [st1 [[]|e]]; [reflexivity |].
    destruct Hinit as [_ He]. rewrite (He e eq_refl). reflexivity. }
  unfold startup.wait_for_db. split; [| split].
  - intros Hpos. destruct (Z.to_nat max_retries) as [|n] eqn:Hn; [lia | apply Hone].
  - intros Hneg. rewrite Z2Nat.nonpos by lia. reflexivity.
  - destruct (Z.to_nat max_retries) as [|n]; [reflexivity |].
    rewrite Hone. destruct (startup.init_db st) as [st1 r]. by destruct Hinit.
Qed.

(** X27.  A schema script that the database rejects goes unnoticed:
    when the driver raises a database error for the script,
    [wait_for_db] returns as after a successful initialization, and
    nothing has been committed. *)
Theorem rejected_schema_is_reported_as_success :
  ∀ (max_retries base_delay : Z) (st : startup.server) (text : string) (e : error),
    0 < max_retries →
    startup.db_pool st = true →
    startup.sql_files st !! "/app/src/sql/schema.sql" = Some text →
    Str.strip text ≠ "" →
    startup.sql_result st (Str.strip text) = Some e →
    is_database_error e = true →
    startup.wait_for_db max_retries base_delay st = (st, Return tt).
Proof.
  intros max_retries base_delay st text e Hpos Hpool Hfile Htext Hsql He.
  unfold startup.wait_for_db.
  destruct (Z.to_nat max_retries) as [|n] eqn:Hn; [lia |].
  cbn [startup.wait_for_db_attempts].
  unfold py_bind at 1, py_try at 1, py_bind at 1, startup.init_db,
    startup.execute_sql_file, py_try, py_bind, startup.read_text.
  rewrite Hfile.
  destruct (Str.strip text) as [|c rest] eqn:Hstrip; [done |]. cbn [Str.truthy negb].
  unfold startup.get_connection. rewrite Hpool. cbn [negb].
  unfold py_finally, py_try, startup.execute_and_commit. rewrite Hsql.
  cbn [throw py_ret]. rewrite He. reflexivity.
Qed.

Lemma rejected_schema_is_reported_as_success_witness :
  startup.wait_for_db 10 5 server_with_pool = (server_with_pool, Return tt).
Proof.
  apply (rejected_schema_is_reported_as_success 10 5 server_with_pool
           "CREATE TABLE songs ("
           (DatabaseError "syntax error at end of input")).
  - lia.
  - reflexivity.
  - reflexivity.
  - vm_compute. discriminate.
  - reflexivity.
  - reflexivity.
Defined.

(* ------------------------------------------------------------------ *)

(** ** The last segment of a path and its extension *)

Lemma split_go_nonempty sep cur s : Str.split_go sep cur s ≠ [].
Proof.
  revert cur. induction s as [|c s IH]; intros cur; cbn; [discriminate |].
  destruct (Ascii.eqb c sep); [discriminate | apply IH].
Qed.

Lemma last_cons_nonempty {A} (x : A) (l : list A) : l ≠ [] → last (x :: l) = last l.
Proof. destruct l; [congruence | reflexivity]. Qed.

Lemma rev_app_append a b s : String.rev_app a b +:+ s = String.rev_app a (b +:+ s).
Proof.
  revert b. induction a as [|c a IH]; intros b; [reflexivity |].
  cbn [String.rev_app]. rewrite IH. reflexivity.
Qed.

Lemma string_rev_cons c cur s :
  String.rev (String c cur) +:+ s = String.rev cur +:+ String c s.
Proof. unfold String.rev. cbn [String.rev_app]. rewrite !rev_app_append. reflexivity. Qed.

(** The last piece of a split is cut off after the last separator; with
    no separator it is the whole text behind what was read before. *)
Lemma last_split_go sep p :
  (∃ seg, ∀ cur, last (Str.split_go sep cur p) = Some seg)
  ∨ (∀ cur, last (Str.split_go sep cur p) = Some (String.rev cur +:+ p)).
Proof.
  induction p as [|c p IH].
  - right. intros cur. cbn. by rewrite append_empty_r.
  - cbn [Str.split_go]. destruct (Ascii.eqb c sep).
    + left. destruct IH as [[seg Hseg]|Hplain].
      * exists seg. intros cur.
        rewrite last_cons_nonempty by apply split_go_nonempty. apply Hseg.
      * exists p. intros cur.
        rewrite last_cons_nonempty by apply split_go_nonempty. apply (Hplain "").
    + destruct IH as [[seg Hseg]|Hplain].
      * left. exists seg. intros cur. apply Hseg.
      * right. intros cur. rewrite Hplain. by rewrite string_rev_cons.
Qed.

Lemma last_split_go_app sep q p cur :
  ∃ t, last (Str.split_go sep cur (q +:+ p))
       = Some (t +:+ default "" (last (Str.split sep p))).
Proof.
  revert cur. induction q as [|c q IH]; intros cur.
  - change ("" +:+ p) with p. unfold Str.split.
    destruct (last_split_go sep p) as [[seg Hseg]|Hplain].
    + exists "". rewrite (Hseg cur), (Hseg ""). reflexivity.
    + exists (String.rev cur). rewrite (Hplain cur), (Hplain ""). reflexivity.
  - change (String c q +:+ p) with (String c (q +:+ p)).
    cbn [Str.split_go]. destruct (Ascii.eqb c sep).
    + rewrite last_cons_nonempty by apply split_go_nonempty. apply IH.
    + apply IH.
Qed.

Lemma last_filter {A} (P : A → Prop) `{∀ x, Decision (P x)} (l : list A) x :
  last l = Some x → P x → last (filter P l) = Some x.
Proof.
  induction l as [|y l IH]; [discriminate |].
  intros Hlast Hx. destruct l as [|z l].
  - injection Hlast as ->. rewrite filter_cons_True by done. reflexivity.
  - specialize (IH Hlast Hx). rewrite filter_cons.
    destruct (decide (P y)); [| exact IH].
    rewrite last_cons_nonempty; [exact IH |].
    intros Hnil. rewrite Hnil in IH. discriminate.
Qed.

Lemma from_last_dot_app t b e :
  Path.from_last_dot b = Some e → Path.from_last_dot (t +:+ b) = Some e.
Proof.
  intros Hb. induction t as [|c t IH]; [exact Hb |].
  change (String c t +:+ b) with (String c (t +:+ b)).
  cbn [Path.from_last_dot]. rewrite IH. reflexivity.
Qed.

Lemma from_last_dot_shape s e :
  Path.from_last_dot s = Some e →
  (∃ r, e = String "." r) ∧ (String.length e <= String.length s)%nat.
Proof.
  revert e. induction s as [|c s IH]; intros e; [discriminate |].
  cbn [Path.from_last_dot].
  destruct (Path.from_last_dot s) as [r|] eqn:Hs.
  - intros [= <-]. destruct (IH r eq_refl) as [Hdot Hlen]. split; [exact Hdot |].
    cbn [String.length]. lia.
  - destruct (Ascii.eqb c ".") eqn:Hc; [| discriminate].
    intros [= <-]. apply Ascii.eqb_eq in Hc as ->. split; [by eexists | lia].
Qed.

Lemma lower_length s : String.length (Str.lower s) = String.length s.
Proof. induction s as [|c s IH]; [reflexivity |]. cbn. by rewrite IH. Qed.

Lemma allowed_extension_length e :
  Str.lower e ∈ ALLOWED_EXTENSIONS → String.length e = 4%nat.
Proof.
  intros Hin. rewrite <- lower_length.
  unfold ALLOWED_EXTENSIONS in Hin.
  repeat (apply elem_of_cons in Hin as [-> | Hin]; [reflexivity |]).
  by apply elem_of_nil in Hin.
Qed.

(** What [os.path.splitext] calls the extension is cut from the last
    segment and leaves a part of that segment before it. *)
Lemma splitext_ext_of_basename p :
  os_path.splitext_ext p ≠ "" →
  Path.from_last_dot (os_path.basename p) = Some (os_path.splitext_ext p)
  ∧ os_path.splitext_ext p ≠ os_path.basename p.
Proof.
  unfold os_path.splitext_ext. cbv zeta.
  destruct (Path.from_last_dot (os_path.basename p)) as [e|] eqn:He; [| congruence].
  destruct (os_path.all_dots _) eqn:Hdots; [congruence |].
  intros _. split; [reflexivity |]. intros ->.
  rewrite Nat.sub_diag in Hdots.
  destruct (os_path.basename p); discriminate.
Qed.

Lemma suffix_of_joined_name (p : Path.t) t b e c r :
  last p = Some (t +:+ b) →
  Path.from_last_dot b = Some e → e ≠ b → e = String "." (String c r) →
  Path.suffix p = e.
Proof.
  intros Hlast Hb Hne ->.
  assert (∃ x rest, t +:+ b = String x rest
                    ∧ Path.from_last_dot rest = Some (String "." (String c r)))
    as (x & rest & Hname & Hrest).
  { destruct t as [|x t].
    - change ("" +:+ b) with b. destruct b as [|x b]; [discriminate |].
      exists x, b. split; [reflexivity |].
      cbn [Path.from_last_dot] in Hb.
      destruct (Path.from_last_dot b) as [e'|] eqn:Hb'; [exact Hb |].
      destruct (Ascii.eqb x "."); [| discriminate]. injection Hb as Hb. congruence.
    - exists x, (t +:+ b). split; [reflexivity |]. by apply from_last_dot_app. }
  unfold Path.suffix, Path.name. rewrite Hlast, Hname.
  change (default "" (Some (String x rest))) with (String x rest).
  cbv beta iota. rewrite Hrest. reflexivity.
Qed.

Lemma join_keeps_the_name a b : ∃ q, os_path.join a b = q +:+ b.
Proof.
  unfold os_path.join. destruct (Path.is_absolute b); [by exists "" |].
  destruct a as [|x a]; [by exists "" |].
  destruct (String.rev (String x a)) as [|y ?].
  - exists (String x a +:+ "/"). by rewrite append_assoc.
  - destruct (Ascii.eqb_spec y "/") as [->|Hy].
    + by eexists.
    + exists (String x a +:+ "/").
      destruct y as [[] [] [] [] [] [] [] []]; by rewrite append_assoc.
Qed.

(** The suffix of any path that ends in the text [p], for an extension
    the upload route lets through. *)
Lemma suffix_of_path_ending_in q p :
  Str.lower (os_path.splitext_ext p) ∈ ALLOWED_EXTENSIONS →
  Path.suffix (Path.of_string (q +:+ p)) = os_path.splitext_ext p.
Proof.
  intros Hallowed.
  pose proof (allowed_extension_length _ Hallowed) as Hlen.
  assert (os_path.splitext_ext p ≠ "") as Hne by (intros Heq; rewrite Heq in Hlen; discriminate).
  destruct (splitext_ext_of_basename p Hne) as [Hdot Hproper].
  destruct (from_last_dot_shape _ _ Hdot) as [[r Hr] Hshort].
  destruct r as [|c r]; [rewrite Hr in Hlen; discriminate |].
  destruct (last_split_go_app "/" q p "") as [t Ht].
  fold (Str.split "/" (q +:+ p)) in Ht. fold (os_path.basename p) in Ht.
  apply (suffix_of_joined_name _ t (os_path.basename p) _ c r); try done.
  unfold Path.of_string. apply last_filter; [exact Ht |].
  pose proof (from_last_dot_shape _ _ (from_last_dot_app t _ _ Hdot)) as [_ Hlong].
  rewrite Hlen in Hlong.
  split; intros Heq; rewrite Heq in Hlong; cbn in Hlong; lia.
Qed.

(** X28.  A file name that [validate_file_extension] lets through keeps
    its extension in the temporary path that [get_temp_file] builds for
    it: the [Path.suffix] on which [extract_content] then decides
    between unpacking and moving is the extension the route has
    checked, one of the allowed four up to letter case, whatever the
    name's folders and whatever prefix is put in front of it. *)
Theorem validated_extension_is_the_temp_file_suffix :
  ∀ (file_name : string) (w : world),
    validate_file_extension file_name w = (w, Return tt) →
    ∃ w' temp_file_path,
      get_temp_file file_name w = (w', Ok temp_file_path)
      ∧ Path.suffix (Path.of_string temp_file_path) = os_path.splitext_ext file_name
      ∧ Str.lower (os_path.splitext_ext file_name) ∈ ALLOWED_EXTENSIONS.
Proof.
  intros file_name w Hvalid.
  assert (Str.lower (os_path.splitext_ext file_name) ∈ ALLOWED_EXTENSIONS) as Hallowed.
  { unfold validate_file_extension in Hvalid. cbv zeta in Hvalid.
    destruct (decide (Str.lower (os_path.splitext_ext file_name) ∉ ALLOWED_EXTENSIONS))
      as [Hno|Hyes]; [discriminate |].
    by apply dec_stable. }
  unfold get_temp_file, bind, uuid4_hex, ret. cbv zeta.
  do 2 eexists. split; [reflexivity |]. split; [| exact Hallowed].
  destruct (join_keeps_the_name (Path.to_string gettempdir)
              (w_uuid w (w_drawn w) +:+ "_" +:+ file_name)) as [q ->].
  rewrite <- !append_assoc.
  by apply suffix_of_path_ending_in.
Qed.

Lemma validated_extension_is_the_temp_file_suffix_witness :
  ∃ w' temp_file_path,
    get_temp_file "packs/Band - Live.Set.ZIP" (server_world db_three_songs)
    = (w', Ok temp_file_path)
    ∧ Path.suffix (Path.of_string temp_file_path)
      = os_path.splitext_ext "packs/Band - Live.Set.ZIP"
    ∧ Str.lower (os_path.splitext_ext "packs/Band - Live.Set.ZIP") ∈ ALLOWED_EXTENSIONS.
Proof.
  apply (validated_extension_is_the_temp_file_suffix
           "packs/Band - Live.Set.ZIP" (server_world db_three_songs)).
  reflexivity.
Defined.
